(** * ScraperService: ranked-list extraction and TMDB title matching

    A shallow embedding of [services/scraperService.js] (class
    [ScraperService]) and proofs about its list extractor
    ([parseTableData], [fillMissingRanks], [parseNetflixTop10]), its
    match engine ([searchTMDB], [findBestMatch],
    [calculateStringSimilarity], [levenshteinDistance]), the title
    normalisers ([cleanTitleForSearch], [removeCountryIndicators]) and
    the enrichment loop ([enrichWithTMDB]).  The rest of the service
    ([fetchPage], [scrapeNetflixTop10], [getTMDBIdOnly],
    [batchGetTMDBIds]), the cache and the routes of
    [controllers/scraperController.js] and the error handler of
    [middleware/errorHandler.js] are embedded behind them.

    Conventions of the embedding.
    - A JavaScript string is a [string]: a sequence of code units, each
      below 256.  [chars] gives the code units as a list.
    - A JavaScript integer is a [Z]; a non-integer number (a score, a
      similarity, a popularity) is an exact rational [Q]: the rounding
      of the floating-point arithmetic of the source is not modelled.
    - [x || y] on a possibly absent string is [or_else]: an absent or
      empty left operand is falsy.
    - An array is a [list]; [Set] is a [gset]. *)

From stdpp Require Import gmap list strings sorting.
From Stdlib Require Import Ascii QArith Qminmax Lqa.

Open Scope Z_scope.

(** ** Strings and characters *)

Abbreviation chars := String.list_ascii_of_string.
Abbreviation str := String.string_of_list_ascii.

Definition code (c : ascii) : nat := nat_of_ascii c.

(** [s.charAt(i)], [None] standing for the empty string JavaScript
    returns out of range. *)
Definition charAt (s : string) (i : nat) : option ascii := chars s !! i.

(** ** Arrays that grow on assignment

    [arr[i] = x] overwrites inside the array and extends it when [i] is
    at or past the end (indices skipped over become holes). *)

Definition arr_set {A} (hole : A) (arr : list A) (i : nat) (x : A) : list A :=
  if decide (i < length arr)%nat then <[i:=x]> arr
  else arr ++ replicate (i - length arr) hole ++ [x].

Definition arr_get {A} (undef : A) (arr : list A) (i : nat) : A :=
  default undef (arr !! i).

(** ** levenshteinDistance

    [matrix] is an array of rows.  The three loops of the source are
    folds over their index ranges, the matrix being the threaded
    state. *)

Abbreviation Matrix := (list (list Z)).

Definition mget (m : Matrix) (i j : nat) : Z := arr_get 0 (arr_get [] m i) j.

Definition mset (m : Matrix) (i j : nat) (v : Z) : Matrix :=
  arr_set [] m i (arr_set 0 (arr_get [] m i) j v).

Definition lev_init_rows (n2 : nat) (m : Matrix) : Matrix :=
  fold_left (λ m i, arr_set [] m i [Z.of_nat i]) (seq 0 (S n2)) m.

Definition lev_init_cols (n1 : nat) (m : Matrix) : Matrix :=
  fold_left (λ m j, mset m 0 j (Z.of_nat j)) (seq 0 (S n1)) m.

Definition lev_cell (str1 str2 : string) (i : nat) (m : Matrix) (j : nat) : Matrix :=
  if decide (charAt str2 (i - 1) = charAt str1 (j - 1)) then
    mset m i j (mget m (i - 1) (j - 1))
  else
    mset m i j (Z.min (Z.min (mget m (i - 1) (j - 1) + 1)
                             (mget m i (j - 1) + 1))
                      (mget m (i - 1) j + 1)).

Definition lev_row (str1 str2 : string) (m : Matrix) (i : nat) : Matrix :=
  fold_left (lev_cell str1 str2 i) (seq 1 (String.length str1)) m.

Definition lev_fill (str1 str2 : string) (m : Matrix) : Matrix :=
  fold_left (lev_row str1 str2) (seq 1 (String.length str2)) m.

Definition levenshteinDistance (str1 str2 : string) : Z :=
  let matrix := lev_init_rows (String.length str2) [] in
  let matrix := lev_init_cols (String.length str1) matrix in
  let matrix := lev_fill str1 str2 matrix in
  mget matrix (String.length str2) (String.length str1).

(** ** calculateStringSimilarity

    The quotient of two integers, kept as an exact rational.  The
    source divides the same two integers in floating point. *)

Definition calculateStringSimilarity (str1 str2 : string) : Q :=
  let longer := if decide (String.length str2 < String.length str1)%nat then str1 else str2 in
  let shorter := if decide (String.length str2 < String.length str1)%nat then str2 else str1 in
  if decide (String.length longer = 0%nat) then 1%Q
  else
    let editDistance := levenshteinDistance longer shorter in
    ((Z.of_nat (String.length longer) - editDistance) # Pos.of_nat (String.length longer))%Q.

(** ** Edit scripts: the meaning of the Levenshtein distance

    [edits s t n]: [s] is turned into [t] by a script of single-character
    insertions, replacements and deletions, [n] of them in all. *)

Section EditDistance.
Context {A : Type} `{EqDecision A}.

Inductive edits : list A → list A → nat → Prop :=
| edits_nil : edits [] [] 0
| edits_keep a s t n : edits s t n → edits (a :: s) (a :: t) n
| edits_replace a b s t n : edits s t n → edits (a :: s) (b :: t) (S n)
| edits_delete a s t n : edits s t n → edits (a :: s) t (S n)
| edits_insert b s t n : edits s t n → edits s (b :: t) (S n).

(** The distance is the cost of a cheapest script. *)
Definition edit_distance (s t : list A) (d : nat) : Prop :=
  edits s t d ∧ ∀ n, edits s t n → (d ≤ n)%nat.

(** The textbook recurrence. *)
Fixpoint lev (s : list A) : list A → nat :=
  fix lev_s (t : list A) : nat :=
    match s, t with
    | [], _ => length t
    | _, [] => length s
    | a :: s', b :: t' =>
        if decide (a = b) then lev s' t'
        else S (Nat.min (lev s' t') (Nat.min (lev_s t') (lev s' t)))
    end.

End EditDistance.

(** The matrix [levenshteinDistance] builds, described cell by cell.
    [prefix_dist r c] is the distance between the first [r] characters
    of [str2] and the first [c] characters of [str1]. *)
Definition prefix_dist (str1 str2 : string) (r c : nat) : Z :=
  Z.of_nat (lev (reverse (take r (chars str2))) (reverse (take c (chars str1)))).

(** [mat i j]: rows below [i] are complete, row [i] holds its first [j]
    cells and every later row its first cell only. *)
Definition row_width (n1 i j r : nat) : nat :=
  if decide (r < i)%nat then S n1 else if decide (r = i) then j else 1%nat.

Definition mat (str1 str2 : string) (i j : nat) : Matrix :=
  (λ r, prefix_dist str1 str2 r <$> seq 0 (row_width (String.length str1) i j r))
    <$> seq 0 (S (String.length str2)).

(** ** Character classes of the regular expressions *)

Definition in_range (lo hi : nat) (c : ascii) : bool :=
  ((lo <=? code c) && (code c <=? hi))%nat.

(** [\d] *)
Definition is_digit (c : ascii) : bool := in_range 48 57 c.

(** [\s], which is also what [trim] removes: tab, line feed, vertical
    tab, form feed, carriage return, space, no-break space. *)
Definition is_space (c : ascii) : bool :=
  in_range 9 13 c || (code c =? 32)%nat || (code c =? 160)%nat.

(** [\w] *)
Definition is_word (c : ascii) : bool :=
  in_range 48 57 c || in_range 65 90 c || in_range 97 122 c || (code c =? 95)%nat.

(** [.] matches everything but a line terminator. *)
Definition is_line_terminator (c : ascii) : bool :=
  (code c =? 10)%nat || (code c =? 13)%nat.

Definition is_dot (c : ascii) : bool := negb (is_line_terminator c).

(** Case mapping of one code unit: the ASCII letters and the accented
    letters of the upper half, where both cases are below 256. *)
Definition is_upper (c : ascii) : bool :=
  in_range 65 90 c || in_range 192 214 c || in_range 216 222 c.

Definition is_lower (c : ascii) : bool :=
  in_range 97 122 c || in_range 224 246 c || in_range 248 254 c.

Definition toLowerChar (c : ascii) : ascii :=
  if is_upper c then ascii_of_nat (code c + 32) else c.

Definition toUpperChar (c : ascii) : ascii :=
  if is_lower c then ascii_of_nat (code c - 32) else c.

Definition toLowerCase (s : string) : string := str (toLowerChar <$> chars s).

(** ** Regular expressions

    The constructs the source's patterns are written with, and a
    backtracking matcher with the priorities of the JavaScript one:
    a greedy star tries one more iteration before it tries to go on, a
    lazy star the other way round, an alternation tries its left branch
    first, and an iteration that consumes nothing is refused. *)

Inductive regex : Type :=
| Empty                                   (* the empty pattern *)
| Lit (c : ascii)                         (* one literal character *)
| Class (p : ascii → bool)                (* [\d], [\s], [.], ... *)
| Start                                   (* [^] *)
| End                                     (* [$] *)
| Seq (r1 r2 : regex)
| Alt (r1 r2 : regex)
| Star (greedy : bool) (r : regex).       (* [r*] and [r*?] *)

(** [r+] and [r+?] *)
Definition Plus (greedy : bool) (r : regex) : regex := Seq r (Star greedy r).

(** A sequence of patterns, and a literal word. *)
Definition cat (rs : list regex) : regex := foldr Seq Empty rs.

Definition word (w : string) : regex := cat (Lit <$> chars w).

(** An alternation [w1|w2|...] of literal words. *)
Fixpoint words (ws : list string) : regex :=
  match ws with
  | [] => Empty
  | [w] => word w
  | w :: ws' => Alt (word w) (words ws')
  end.

(** A position in the subject: its index and what is left to read. *)
Definition cursor : Type := nat * list ascii.

Definition or_try {A} (x y : option A) : option A :=
  match x with Some _ => x | None => y end.

(** The iterations of a star over a pattern matched by [m]: [n] bounds
    the number of iterations left, each of which consumes a character;
    [k] is what follows the star. *)
Fixpoint iterate (m : cursor → (cursor → option cursor) → option cursor)
    (greedy : bool) (k : cursor → option cursor) (n : nat) (cur : cursor)
    : option cursor :=
  let once_more :=
    match n with
    | O => None
    | S n' =>
        m cur (λ cur', if decide (length cur'.2 < length cur.2)%nat
                       then iterate m greedy k n' cur' else None)
    end in
  if greedy then or_try once_more (k cur) else or_try (k cur) once_more.

(** [rmatch ci r cur k]: match [r] at [cur] and go on with [k]; [ci] is
    the [i] flag.  The result is the cursor at the end of the match. *)
Fixpoint rmatch (ci : bool) (r : regex) (cur : cursor)
    (k : cursor → option cursor) {struct r} : option cursor :=
  match r with
  | Empty => k cur
  | Lit c =>
      match cur.2 with
      | x :: rest =>
          if decide ((if ci then toUpperChar x else x) = (if ci then toUpperChar c else c))
          then k (S cur.1, rest) else None
      | [] => None
      end
  | Class p =>
      match cur.2 with
      | x :: rest => if p x then k (S cur.1, rest) else None
      | [] => None
      end
  | Start => if decide (cur.1 = 0%nat) then k cur else None
  | End => match cur.2 with [] => k cur | _ :: _ => None end
  | Seq r1 r2 => rmatch ci r1 cur (λ cur', rmatch ci r2 cur' k)
  | Alt r1 r2 => or_try (rmatch ci r1 cur k) (rmatch ci r2 cur k)
  | Star greedy r' => iterate (rmatch ci r') greedy k (length cur.2) cur
  end.

(** [exec]: the match that starts at the cursor, if there is one. *)
Definition exec (ci : bool) (r : regex) (cur : cursor) : option cursor :=
  rmatch ci r cur Some.

(** [s.replace(/r/, repl)]: the leftmost match is replaced. *)
Fixpoint replace_first_from (ci : bool) (r : regex) (repl : list ascii)
    (pos : nat) (s : list ascii) : list ascii :=
  match exec ci r (pos, s) with
  | Some cur' => repl ++ cur'.2
  | None =>
      match s with
      | [] => []
      | c :: rest => c :: replace_first_from ci r repl (S pos) rest
      end
  end.

Definition replace_first (ci : bool) (r : regex) (repl : list ascii)
    (s : list ascii) : list ascii :=
  replace_first_from ci r repl 0 s.

(** [s.replace(/r/g, repl)]: every match is replaced, the search going on
    where the last match ended, one character further after an empty
    match. *)
Fixpoint replace_all_from (fuel : nat) (ci : bool) (r : regex) (repl : list ascii)
    (cur : cursor) : list ascii :=
  match fuel with
  | O => cur.2
  | S fuel' =>
      let skip :=
        match cur.2 with
        | [] => []
        | c :: rest => c :: replace_all_from fuel' ci r repl (S cur.1, rest)
        end in
      match exec ci r cur with
      | Some cur' =>
          if decide (cur'.1 = cur.1) then repl ++ skip
          else repl ++ replace_all_from fuel' ci r repl cur'
      | None => skip
      end
  end.

Definition replace_all (ci : bool) (r : regex) (repl : list ascii)
    (s : list ascii) : list ascii :=
  replace_all_from (S (length s)) ci r repl (0%nat, s).

(** [/r/.test(s)]: is there a match anywhere in [s]? *)
Fixpoint test_from (ci : bool) (r : regex) (pos : nat) (s : list ascii) : bool :=
  match exec ci r (pos, s) with
  | Some _ => true
  | None =>
      match s with
      | [] => false
      | _ :: rest => test_from ci r (S pos) rest
      end
  end.

Definition test (ci : bool) (r : regex) (s : string) : bool := test_from ci r 0 (chars s).

(** [parseInt(s)] for a string of decimal digits. *)
Definition parseInt (s : string) : Z :=
  fold_left (λ n c, 10 * n + Z.of_nat (code c - 48)) (chars s) 0.

(** [s.trim()] *)
Fixpoint drop_while (p : ascii → bool) (s : list ascii) : list ascii :=
  match s with
  | c :: rest => if p c then drop_while p rest else s
  | [] => []
  end.

Definition trim_start (s : list ascii) : list ascii := drop_while is_space s.

Definition trim_chars (s : list ascii) : list ascii :=
  reverse (trim_start (reverse (trim_start s))).

Definition trim (s : string) : string := str (trim_chars (chars s)).

(** [s.split(sep)] on a one-character separator, and [parts.join(sep)]. *)
Fixpoint split_on (sep : ascii) (s : list ascii) : list (list ascii) :=
  match s with
  | [] => [[]]
  | c :: rest =>
      if decide (c = sep) then [] :: split_on sep rest
      else match split_on sep rest with
           | part :: parts => (c :: part) :: parts
           | [] => [[c]]
           end
  end.

Fixpoint join_with (sep : ascii) (parts : list (list ascii)) : list ascii :=
  match parts with
  | [] => []
  | [part] => part
  | part :: parts' => part ++ sep :: join_with sep parts'
  end.

(** [s.includes(t)] *)
Fixpoint is_prefix (t s : list ascii) : bool :=
  match t, s with
  | [], _ => true
  | x :: t', y :: s' => bool_decide (x = y) && is_prefix t' s'
  | _ :: _, [] => false
  end.

Fixpoint includes_chars (s t : list ascii) : bool :=
  is_prefix t s || match s with [] => false | _ :: s' => includes_chars s' t end.

Definition includes (s t : string) : bool := includes_chars (chars s) (chars t).

(** ** removeCountryIndicators and cleanTitleForSearch *)

Definition spaces : regex := Star true (Class is_space).          (* [\s*] *)
Definition some_spaces : regex := Plus true (Class is_space).     (* [\s+] *)
Definition digits : regex := Plus true (Class is_digit).          (* [\d+] *)
Definition anything_lazy : regex := Star false (Class is_dot).    (* [.*?] *)

(** [/\s*(ph|philippines|filipino|pinoy|tagalog|tl)\s*/gi] *)
Definition re_country_word : regex :=
  cat [spaces; words ["ph"; "philippines"; "filipino"; "pinoy"; "tagalog"; "tl"]; spaces].

(** [/\s*\(.*?(ph|philippines|filipino|pinoy).*?\)\s*/gi] *)
Definition re_country_paren : regex :=
  cat [spaces; Lit "("; anything_lazy;
       words ["ph"; "philippines"; "filipino"; "pinoy"];
       anything_lazy; Lit ")"; spaces].

Definition removeCountryIndicators (title : string) : string :=
  let t := chars title in
  let t := replace_all true re_country_word [] t in
  let t := replace_all true re_country_paren [] t in
  let t := replace_all false some_spaces [" "%char] t in
  str (trim_chars t).

(** [/^\d+\.\s*/] *)
Definition re_leading_number : regex := cat [Start; digits; Lit "."; spaces].

(** [/\s*\(.*?\)\s*/g] and [/\s*\[.*?\]\s*/g] *)
Definition re_enclosed (open close : ascii) : regex :=
  cat [spaces; Lit open; anything_lazy; Lit close; spaces].

(** [/season\s+\d+/gi] and [/series\s+\d+/gi] *)
Definition re_numbered (w : string) : regex := cat [word w; some_spaces; digits].

Definition cleanTitleForSearch (title : string) : string :=
  let t := chars title in
  let t := replace_first false re_leading_number [] t in
  let t := replace_all false (re_enclosed "(" ")") [] t in
  let t := replace_all false (re_enclosed "[" "]") [] t in
  let t := replace_all true (re_numbered "season") [] t in
  let t := replace_all true (re_numbered "series") [] t in
  let t := replace_all false some_spaces [" "%char] t in
  str (trim_chars t).

(** ** Optional values and numbers

    [truthy] is JavaScript truthiness of a string that may be absent;
    [or_else x y] is [x || y] and [or_default x d] is [x || d] with a
    string literal on the right. *)

Definition truthy (x : option string) : bool :=
  match x with
  | Some s => negb (String.eqb s "")
  | None => false
  end.

Definition or_else (x y : option string) : option string :=
  if truthy x then x else y.

Definition or_default (x : option string) (d : string) : string :=
  match x with
  | Some s => if String.eqb s "" then d else s
  | None => d
  end.

Definition Qltb (x y : Q) : bool := negb (Qle_bool y x).

(** ** TMDB search results and what the service keeps of a match *)

Module Candidate.
Record t : Type := mk {
  id : Z;
  title : option string;
  name : option string;
  release_date : option string;
  first_air_date : option string;
  media_type : option string;
  origin_country : option (list string);
  popularity : option Q;
  vote_average : option Q
}.
End Candidate.

Record TmdbData : Type := {
  tmdb_id : Z;
  tmdb_title : option string;
  tmdb_release_date : option string;
  tmdb_media_type : string;
  search_strategy_used : Z
}.

(** ** The calendar

    [getFullYear s] is [new Date(s).getFullYear()], [None] being the NaN
    of an invalid date; [currentYear] is [new Date().getFullYear()]. *)

Class Calendar : Type := {
  getFullYear : string → option Z;
  currentYear : Z
}.

(** A comparison with NaN is false. *)
Definition year_ge (y : option Z) (n : Z) : bool :=
  match y with Some v => n <=? v | None => false end.

Definition year_le (y : option Z) (n : Z) : bool :=
  match y with Some v => v <=? n | None => false end.

Definition year_lt (y : option Z) (n : Z) : bool :=
  match y with Some v => v <? n | None => false end.

(** ** Sorting

    [array.sort(compare)] for a comparator that orders by a key:
    [before a b] says [compare(a, b) < 0].  The sort is stable. *)

Fixpoint insert_sorted {A} (before : A → A → bool) (x : A) (l : list A) : list A :=
  match l with
  | [] => [x]
  | y :: l' => if before y x then y :: insert_sorted before x l' else x :: l
  end.

Definition array_sort {A} (before : A → A → bool) (l : list A) : list A :=
  foldr (insert_sorted before) [] l.

(** ** findBestMatch *)

(** [s.replace(/[^\w\s]/g, '')] *)
Definition strip_punctuation (s : string) : string :=
  str (replace_all false (Class (λ c, negb (is_word c || is_space c))) [] (chars s)).

Definition media_type_filter (mediaType : string) (results : list Candidate.t)
    : list Candidate.t :=
  List.filter (λ r, bool_decide (or_default (Candidate.media_type r) mediaType = mediaType))
    results.

Definition filter_results (mediaType : string) (results : list Candidate.t)
    : list Candidate.t :=
  if decide (mediaType ≠ "multi") then
    let filteredResults := media_type_filter mediaType results in
    if decide (length filteredResults = 0%nat) then results else filteredResults
  else results.

Definition releaseYear `{Calendar} (result : Candidate.t) : option Z :=
  getFullYear
    (or_default (or_else (Candidate.release_date result) (Candidate.first_air_date result))
       "1900").

Definition similarity_score `{Calendar} (originalTitle countryCode : string)
    (result : Candidate.t) : Q :=
  let score := 0%Q in
  let resultTitle :=
    toLowerCase (or_default (or_else (Candidate.title result) (Candidate.name result)) "") in
  let cleanOriginalTitle := strip_punctuation (toLowerCase originalTitle) in
  let cleanResultTitle := strip_punctuation resultTitle in
  let score :=
    if decide (cleanResultTitle = cleanOriginalTitle) then (score + 100)%Q
    else if includes cleanResultTitle cleanOriginalTitle
            || includes cleanOriginalTitle cleanResultTitle then (score + 80)%Q
    else
      let similarity := calculateStringSimilarity cleanOriginalTitle cleanResultTitle in
      (score + similarity * 60)%Q in
  let releaseYear := releaseYear result in
  let score :=
    if decide (countryCode = "PH") then
      if year_ge releaseYear (currentYear - 2) then (score + 30)%Q
      else if year_ge releaseYear (currentYear - 5) then (score + 20)%Q
      else if year_ge releaseYear 2010 then (score + 10)%Q
      else score
    else
      if year_ge releaseYear 2000 && year_le releaseYear (currentYear - 1)
      then (score + 20)%Q else score in
  let score :=
    match Candidate.origin_country result with
    | Some countries =>
        if bool_decide (countryCode ∈ countries) then (score + 25)%Q else score
    | None => score
    end in
  let score := (score + Qmin (default 0%Q (Candidate.popularity result) * (1 # 10)) 10)%Q in
  let score := (score + Qmin (default 0%Q (Candidate.vote_average result) * 2) 20)%Q in
  let score :=
    if year_lt releaseYear 1990 && Qltb (default 0%Q (Candidate.vote_average result)) 7
    then (score - 20)%Q else score in
  score.

(** A scored result: [{ ...result, similarity_score: score }]. *)
Definition Scored : Type := Candidate.t * Q.

Definition findBestMatch `{Calendar} (results : list Candidate.t)
    (originalTitle countryCode mediaType : string) : option Scored :=
  if decide (length results = 0%nat) then None
  else
    let filteredResults := filter_results mediaType results in
    let scoredResults :=
      (λ result, (result, similarity_score originalTitle countryCode result))
        <$> filteredResults in
    let scoredResults := array_sort (λ a b : Scored, Qltb b.2 a.2) scoredResults in
    head scoredResults.

(** ** The service object and its collaborators *)

Record ScraperService : Type := {
  tmdbApiKey : option string
}.

(** One call [axios.get(tmdbBaseUrl + /search/ + mediaType, { params })].
    The parameters [language], [page] and [include_adult] are constants
    of the source. *)
Record Request : Type := {
  search_media_type : string;
  api_key : option string;
  query : string;
  region : option string
}.

(** What the call does: it throws, or it resolves to a response whose
    [data.results] is an array or is missing. *)
Inductive Outcome : Type :=
| Threw (message : string)
| Responded (results : option (list Candidate.t)).

(** The world outside the service: the search API answers a request in
    the state the world is in, and both a call and a delay move the
    world on. *)
Class Host : Type := {
  World : Type;
  axios_get : Request → World → Outcome * World;
  setTimeout : Z → World → World;
  Host_calendar :: Calendar
}.

(** What an observer sees of a run. *)
Inductive Event : Type :=
| Searched (request : Request) (outcome : Outcome)
| Waited (ms : Z).

(** ** Computations: state, a log, and exceptions *)

Inductive Result (A : Type) : Type :=
| Ok (a : A)
| Throw (message : string).
Arguments Ok {A} a.
Arguments Throw {A} message.

Definition M `{Host} (A : Type) : Type := World * list Event → Result A * (World * list Event).

#[global] Instance M_ret `{Host} : MRet M := λ A a st, (Ok a, st).

#[global] Instance M_bind `{Host} : MBind M := λ A B f m st,
  match m st with
  | (Ok a, st') => f a st'
  | (Throw e, st') => (Throw e, st')
  end.

(** [try { body } catch (e) { handler }] *)
Definition try_catch `{Host} {A} (body : M A) (handler : string → M A) : M A := λ st,
  match body st with
  | (Ok a, st') => (Ok a, st')
  | (Throw e, st') => handler e st'
  end.

(** [await axios.get(...)], giving [response.data.results]. *)
Definition axios_search `{Host} (request : Request) : M (option (list Candidate.t)) := λ st,
  let '(outcome, world) := axios_get request st.1 in
  let st' := (world, st.2 ++ [Searched request outcome]) in
  match outcome with
  | Threw message => (Throw message, st')
  | Responded results => (Ok results, st')
  end.

(** [await this.wait(ms)] *)
Definition wait `{Host} (ms : Z) : M unit := λ st,
  (Ok (), (setTimeout ms st.1, st.2 ++ [Waited ms])).

(** ** searchTMDB *)

Record Strategy : Type := {
  strategy_query : string;
  strategy_region : option string
}.

(** [cleanTitle.split(' ').slice(0, 3).join(' ')] *)
Definition first_three_words (cleanTitle : string) : string :=
  str (join_with " " (take 3 (split_on " " (chars cleanTitle)))).

Definition searchStrategies (title countryCode : string) : list Strategy :=
  let cleanTitle := cleanTitleForSearch title in
  [ {| strategy_query := cleanTitle; strategy_region := Some countryCode |};
    {| strategy_query := cleanTitle; strategy_region := None |};
    {| strategy_query := removeCountryIndicators cleanTitle; strategy_region := None |};
    {| strategy_query := first_three_words cleanTitle; strategy_region := None |} ].

Definition search_request (this : ScraperService) (mediaType : string)
    (strategy : Strategy) : Request :=
  {| search_media_type := mediaType;
     api_key := tmdbApiKey this;
     query := strategy_query strategy;
     region := if truthy (strategy_region strategy) then strategy_region strategy else None |}.

Definition tmdb_data (bestMatch : Scored) (mediaType : string) (i : Z) : TmdbData :=
  {| tmdb_id := Candidate.id bestMatch.1;
     tmdb_title := or_else (Candidate.title bestMatch.1) (Candidate.name bestMatch.1);
     tmdb_release_date :=
       or_else (Candidate.release_date bestMatch.1) (Candidate.first_air_date bestMatch.1);
     tmdb_media_type := or_default (Candidate.media_type bestMatch.1) mediaType;
     search_strategy_used := i + 1 |}.

(** The body of the inner [try]: [Some data] is the [return] of the
    source, [None] falls out of the [if]s. *)
Definition try_strategy `{Host} (this : ScraperService) (title mediaType countryCode : string)
    (i : Z) (strategy : Strategy) : M (option TmdbData) :=
  results ← axios_search (search_request this mediaType strategy);
  match results with
  | Some results =>
      if decide (0 < length results)%nat then
        match findBestMatch results title countryCode mediaType with
        | Some bestMatch => mret (Some (tmdb_data bestMatch mediaType i))
        | None => mret None
        end
      else mret None
  | None => mret None
  end.

(** The [for] loop from index [i] on, and the [return null] after it. *)
Fixpoint strategy_loop `{Host} (this : ScraperService) (title mediaType countryCode : string)
    (i : Z) (strategies : list Strategy) : M (option TmdbData) :=
  match strategies with
  | [] => mret None
  | strategy :: later =>
      found ← try_catch (try_strategy this title mediaType countryCode i strategy)
                        (λ strategyError, mret None);
      match found with
      | Some data => mret (Some data)
      | None =>
          _ ← wait 100;
          strategy_loop this title mediaType countryCode (i + 1) later
      end
  end.

Definition searchTMDB `{Host} (this : ScraperService) (title mediaType countryCode : string)
    : M (option TmdbData) :=
  if truthy (tmdbApiKey this) then
    try_catch
      (strategy_loop this title mediaType countryCode 0 (searchStrategies title countryCode))
      (λ error, mret None)
  else mret None.

(** ** Ranked entries and enrichWithTMDB *)

Module Item.
Record t : Type := mk {
  rank : Z;
  title : string;
  category : string;
  poster : string;
  country : string;
  platform : string;
  tmdb : option TmdbData
}.
End Item.

(** [{ ...item, ...tmdbData }] and [Object.assign(enrichedItem, data)]:
    the five match fields are set, every other field is the item's. *)
Definition with_tmdb (item : Item.t) (tmdbData : option TmdbData) : Item.t :=
  match tmdbData with
  | Some data =>
      Item.mk (Item.rank item) (Item.title item) (Item.category item) (Item.poster item)
        (Item.country item) (Item.platform item) (Some data)
  | None => item
  end.

Definition enrich_item `{Host} (this : ScraperService) (countryCode : string)
    (item : Item.t) : M Item.t :=
  let mediaType := if decide (Item.category item = "Movie") then "movie" else "tv" in
  tmdbData ← searchTMDB this (Item.title item) mediaType countryCode;
  let enrichedItem := with_tmdb item tmdbData in
  enrichedItem ←
    match tmdbData with
    | None =>
        multiSearchData ← searchTMDB this (Item.title item) "multi" countryCode;
        mret (with_tmdb enrichedItem multiSearchData)
    | Some _ => mret enrichedItem
    end;
  mret enrichedItem.

Fixpoint enrich_loop `{Host} (this : ScraperService) (countryCode : string)
    (items : list Item.t) (enrichedItems : list Item.t) : M (list Item.t) :=
  match items with
  | [] => mret enrichedItems
  | item :: later =>
      enrichedItem ← enrich_item this countryCode item;
      let enrichedItems := enrichedItems ++ [enrichedItem] in
      _ ← wait 200;
      enrich_loop this countryCode later enrichedItems
  end.

Definition enrichWithTMDB `{Host} (this : ScraperService) (items : list Item.t)
    (countryCode : string) : M (list Item.t) :=
  if truthy (tmdbApiKey this) then enrich_loop this countryCode items []
  else mret items.

(** ** What the extractor asks of the parsed page

    The page is read through cheerio only.  A [Document] holds the
    answers to the queries the source makes, in document order. *)

(** A title link and the table row it sits in. *)
Record TitleLink : Type := {
  link_text : string;                 (* $link.text() *)
  row_cells : list string;            (* $(cell).text() for each td of $link.closest(tr) *)
  row_img : option (option string * option string);
                                      (* src and data-src of the img of the row, if any *)
  row_index : Z                       (* $link.closest(tr).index() *)
}.

(** The section header selected in stage 1. *)
Record Header : Type := {
  header_index : Z;                   (* $sectionHeader.index() *)
  header_next : list (list TitleLink);
    (* find(td.table-td a[href*=/title/]) in $sectionHeader.next(), in the
       sibling after it, and so on while there is one *)
  header_parents : list (list TitleLink)
    (* the same query in $sectionHeader.parent(), in its parent, and so on *)
}.

(** A heading of the section-based scan. *)
Record Heading : Type := {
  heading_text : string;              (* $(el).text() *)
  heading_next : list (list string)
    (* $link.text() of find(a[href*=/title/]) in each following sibling *)
}.

Inductive HeaderSelector : Type :=
| Exact (label : string)    (* h3.table-th:contains(label) *)
| Loose (label : string).   (* h3:contains(label), h2:contains(label), .table-th:contains(label) *)

Record Document : Type := {
  select_header : HeaderSelector → option Header;   (* None: the selection is empty *)
  table_links : list TitleLink;       (* $(td.table-td a[href*=/title/]) *)
  headings : list Heading;            (* $(h1, h2, h3, h4, .title, .heading) *)
  numbered_items : string → list (Z * string);
    (* the numbered items the two regular expressions of the text scan
       find in $.text() for a section keyword: parseInt(match[1]) and
       the title after its clean-up *)
  title_links : list string           (* $link.text() for $(a[href*=/title/]) *)
}.

Class Cheerio : Type := {
  cheerio_load : string → Document
}.

Definition new_item (rank : Z) (title category poster : string) : Item.t :=
  Item.mk rank title category poster "Philippines" "Netflix" None.

(** [results.find(r => r.rank === rank)] is truthy. *)
Definition has_rank (results : list Item.t) (rank : Z) : bool :=
  existsb (λ r, Item.rank r =? rank) results.

(** [list.each((index, element) => ...)] with an accumulator. *)
Definition each_indexed {A S : Type} (f : S → nat → A → S) (l : list A) (s : S) : S :=
  fold_left (λ s p, f s p.1 p.2) (zip (seq 0 (length l)) l) s.

(** [sectionType === 'TV Shows' ? 'TV Show' : 'Movie'] *)
Definition category_of (sectionType : string) : string :=
  if decide (sectionType = "TV Shows") then "TV Show" else "Movie".

(** ** parseTableData, stage 1 *)

(** The rank cell of a row: the first cell that is a standalone number
    from 1 to 10. *)
Fixpoint find_rank (cells : list string) : option Z :=
  match cells with
  | [] => None
  | cell :: later =>
      let cellText := trim cell in
      if test false (cat [Start; digits; End]) cellText then
        let num := parseInt cellText in
        if (1 <=? num) && (num <=? 10) then Some num else find_rank later
      else find_rank later
  end.

Definition scan_row (category : string) (results : list Item.t) (index : nat)
    (link : TitleLink) : list Item.t :=
  let title := trim (link_text link) in
  if String.eqb title "" then results
  else
    let rank :=
      match find_rank (row_cells link) with
      | Some rank => rank
      | None => Z.of_nat index + 1
      end in
    let poster :=
      match row_img link with
      | Some (src, data_src) => or_default (or_else src data_src) ""
      | None => ""
      end in
    if (1 <=? rank) && (rank <=? 10) && negb (has_rank results rank)
    then results ++ [new_item rank title category poster]
    else results.

(** The [while] loop over the siblings that follow the header: the
    first of at most ten that holds title links is scanned. *)
Definition scan_siblings (category : string) (header : Header) (results : list Item.t)
    : list Item.t :=
  match List.find (λ titleLinks, (0 <? length titleLinks)%nat) (take 10 (header_next header)) with
  | Some titleLinks => each_indexed (scan_row category) titleLinks results
  | None => results
  end.

Definition scan_parent_link (category : string) (header : Header) (level : nat)
    (results : list Item.t) (index : nat) (link : TitleLink) : list Item.t :=
  let title := trim (link_text link) in
  if String.eqb title "" || (10 <=? length results)%nat then results
  else
    let linkPosition := row_index link in
    let headerPosition := header_index header in
    if (headerPosition <? linkPosition) || (0 <? level)%nat then
      let rank := Z.of_nat (length results) + 1 in
      results ++ [new_item rank title category ""]
    else results.

(** The [for] loop over three ancestor levels, from [level] on. *)
Fixpoint scan_parents (category : string) (header : Header) (levels : list nat)
    (results : list Item.t) : list Item.t :=
  match levels with
  | [] => results
  | level :: higher =>
      let titleLinks := default [] (header_parents header !! level) in
      if (0 <? length titleLinks)%nat then
        each_indexed (scan_parent_link category header level) titleLinks results
      else scan_parents category header higher results
  end.

Definition scan_all_links (category : string) (doc : Document) (results : list Item.t)
    : list Item.t :=
  each_indexed
    (λ results index link,
       let title := trim (link_text link) in
       if String.eqb title "" then results
       else results ++ [new_item (Z.of_nat index + 1) title category ""])
    (take 10 (table_links doc)) results.

Definition section_header (doc : Document) (sectionType : string) : option Header :=
  let label := if decide (sectionType = "TV Shows") then "TOP 10 TV Shows" else "TOP 10 Movies" in
  match select_header doc (Exact label) with
  | Some header => Some header
  | None => select_header doc (Loose label)
  end.

Definition parse_by_header (doc : Document) (sectionType category : string) : list Item.t :=
  let results := [] in
  match section_header doc sectionType with
  | Some header =>
      let results := scan_siblings category header results in
      if decide (length results = 0%nat) then scan_parents category header [0; 1; 2]%nat results
      else results
  | None => scan_all_links category doc results
  end.

(** ** parseSectionBased *)

(** [s.replace(' ', '')]: the first space is removed. *)
Fixpoint remove_first_space (s : list ascii) : list ascii :=
  match s with
  | [] => []
  | c :: rest => if decide (c = " "%char) then rest else c :: remove_first_space rest
  end.

Definition is_section_heading (sectionType : string) (heading : Heading) : bool :=
  let text := toLowerCase (heading_text heading) in
  includes text "top 10"
  && includes text (str (remove_first_space (chars (toLowerCase sectionType)))).

Definition collect_link (category : string) (results : list Item.t) (text : string)
    : list Item.t :=
  let title := trim text in
  if negb (String.eqb title "") && (length results <? 10)%nat then
    results ++ [new_item (Z.of_nat (length results) + 1) title category ""]
  else results.

Definition parseSectionBased (doc : Document) (sectionType : string) : list Item.t :=
  let results := [] in
  let category := category_of sectionType in
  let sectionHeaders := List.filter (is_section_heading sectionType) (headings doc) in
  match sectionHeaders with
  | section :: _ =>
      fold_left (λ results titleLinks, fold_left (collect_link category) titleLinks results)
        (take 10 (heading_next section)) results
  | [] => results
  end.

(** ** parseTextBasedAggressive *)

Definition keep_numbered_item (category : string) (results : list Item.t)
    (item : Z * string) : list Item.t :=
  let rank := item.1 in
  let title := item.2 in
  if negb (String.eqb title "")
     && (1 <? String.length title)%nat && (String.length title <? 100)%nat
     && (1 <=? rank) && (rank <=? 10)
  then results ++ [new_item rank title category ""]
  else results.

Definition parseTextBasedAggressive (doc : Document) (sectionType : string) : list Item.t :=
  let results := [] in
  let category := category_of sectionType in
  let sectionKeyword := if decide (sectionType = "TV Shows") then "TV Shows" else "Movies" in
  fold_left (keep_numbered_item category) (numbered_items doc sectionKeyword) results.

(** ** fillMissingRanks *)

(** The [for] loop over the ranks 1 to 10: the first one not taken. *)
Definition first_free_rank (existingRanks : gset Z) : option Z :=
  List.find (λ rank, bool_decide (rank ∉ existingRanks)) (seqZ 1 10).

(** The [each] over all title links; [return false] stops it. *)
Fixpoint fill_loop (category : string) (links : list string)
    (currentResults : list Item.t) (existingRanks : gset Z) : list Item.t :=
  match links with
  | [] => currentResults
  | text :: later =>
      let title := trim text in
      if String.eqb title "" then fill_loop category later currentResults existingRanks
      else
        let '(currentResults, existingRanks) :=
          match first_free_rank existingRanks with
          | Some rank =>
              (currentResults ++ [new_item rank title category ""], {[rank]} ∪ existingRanks)
          | None => (currentResults, existingRanks)
          end in
        if (10 <=? length currentResults)%nat then currentResults
        else fill_loop category later currentResults existingRanks
  end.

Definition fillMissingRanks (doc : Document) (currentResults : list Item.t)
    (category : string) : list Item.t :=
  let allTitleLinks := title_links doc in
  let existingRanks : gset Z := list_to_set (Item.rank <$> currentResults) in
  fill_loop category allTitleLinks currentResults existingRanks.

(** ** parseTableData *)

(** [extra.forEach(item => { if (!results.find(r => r.rank === item.rank))
    results.push(item) })] *)
Definition merge_by_rank (results extra : list Item.t) : list Item.t :=
  fold_left (λ results item,
               if has_rank results (Item.rank item) then results else results ++ [item])
    extra results.

(** The three stages, each run while fewer than 8 entries are known. *)
Definition collect_results (doc : Document) (sectionType : string) : list Item.t :=
  let category := category_of sectionType in
  let results := parse_by_header doc sectionType category in
  let results :=
    if (length results <? 8)%nat
    then merge_by_rank results (parseSectionBased doc sectionType) else results in
  let results :=
    if (length results <? 8)%nat
    then merge_by_rank results (parseTextBasedAggressive doc sectionType) else results in
  results.

(** One turn of the loop that keeps the first entry of each rank from 1
    to 10: [finalResults] and [seenRanks] are the state. *)
Definition keep_first_of_rank (acc : list Item.t * gset Z) (item : Item.t)
    : list Item.t * gset Z :=
  let '(finalResults, seenRanks) := acc in
  if bool_decide (Item.rank item ∉ seenRanks)
     && (1 <=? Item.rank item) && (Item.rank item <=? 10)
  then (finalResults ++ [item], {[Item.rank item]} ∪ seenRanks)
  else (finalResults, seenRanks).

(** The sort by rank, then that loop. *)
Definition unique_ranks (results : list Item.t) : list Item.t :=
  let results := array_sort (λ a b, Item.rank a <? Item.rank b) results in
  (fold_left keep_first_of_rank results ([], ∅)).1.

Definition parseTableData (doc : Document) (sectionType : string) : list Item.t :=
  let category := category_of sectionType in
  let results := collect_results doc sectionType in
  let finalResults := unique_ranks results in
  if (length finalResults <? 10)%nat then fillMissingRanks doc finalResults category
  else finalResults.

(** ** parseNetflixTop10 *)

Definition parseNetflixTop10 `{Cheerio} (html type : string) : list Item.t :=
  let doc := cheerio_load html in
  let results := [] in
  let results :=
    if decide (type = "tv" ∨ type = "both")
    then results ++ parseTableData doc "TV Shows" else results in
  let results :=
    if decide (type = "movies" ∨ type = "both")
    then results ++ parseTableData doc "Movies" else results in
  results.

(** ** Vocabulary of the statements about ranked lists *)

Definition ranks (entries : list Item.t) : list Z := Item.rank <$> entries.

(** Every rank is between 1 and 10, and no rank occurs twice. *)
Definition valid_ranks (entries : list Item.t) : Prop :=
  NoDup (ranks entries) ∧ Forall (λ rank, 1 ≤ rank ≤ 10) (ranks entries).

(** Ascending order of rank. *)
Definition sorted_by_rank (entries : list Item.t) : Prop :=
  Sorted Z.le (ranks entries).

(** Every entry carries the same category. *)
Definition in_category (category : string) (entries : list Item.t) : Prop :=
  Forall (λ entry, Item.category entry = category) entries.




(** ** A page with one ranked row

    The page
    [<div><h3 class='table-th'>TOP 10 TV Shows</h3><table><tr>
     <td class='table-td'>2</td>
     <td class='table-td'><a href='/title/alpha/'>Alpha</a></td>
     </tr></table></div>]
    as cheerio answers for it: the heading is found by both header
    selectors for TV shows and by none for movies, the table is its only
    following sibling, and the text of the page is
    [TOP 10 TV Shows2Alpha]. *)

Definition alpha_link : TitleLink :=
  {| link_text := "Alpha"; row_cells := ["2"; "Alpha"]; row_img := None; row_index := 0 |}.

Definition alpha_header : Header :=
  {| header_index := 0;
     header_next := [[alpha_link]];
     header_parents := [[alpha_link]; [alpha_link]; [alpha_link]] |}.

Definition alpha_page : Document :=
  {| select_header := λ selector,
       match selector with
       | Exact label | Loose label =>
           if decide (label = "TOP 10 TV Shows") then Some alpha_header else None
       end;
     table_links := [alpha_link];
     headings := [ {| heading_text := "TOP 10 TV Shows"; heading_next := [["Alpha"]] |} ];
     numbered_items := λ sectionKeyword,
       if decide (sectionKeyword = "TV Shows") then [(2, "Alpha")] else [];
     title_links := ["Alpha"] |}.

Definition alpha_html : string :=
  "<div><h3 class='table-th'>TOP 10 TV Shows</h3><table><tr><td class='table-td'>2</td><td class='table-td'><a href='/title/alpha/'>Alpha</a></td></tr></table></div>".

(** cheerio on that page; any other text is taken to hold nothing. *)
Definition empty_page : Document :=
  {| select_header := λ _, None; table_links := []; headings := [];
     numbered_items := λ _, []; title_links := [] |}.

Definition alpha_cheerio : Cheerio :=
  {| cheerio_load := λ html, if decide (html = alpha_html) then alpha_page else empty_page |}.

(** ** Vocabulary of the statements about scores *)

(** The title of a candidate and the searched title, as [findBestMatch]
    compares them: lowercased, punctuation removed. *)
Definition clean_result_title (result : Candidate.t) : string :=
  strip_punctuation
    (toLowerCase (or_default (or_else (Candidate.title result) (Candidate.name result)) "")).

Definition clean_original_title (originalTitle : string) : string :=
  strip_punctuation (toLowerCase originalTitle).

(** The points a candidate gets for its title. *)
Definition title_points (originalTitle : string) (result : Candidate.t) : Q :=
  if decide (clean_result_title result = clean_original_title originalTitle) then 100
  else if includes (clean_result_title result) (clean_original_title originalTitle)
          || includes (clean_original_title originalTitle) (clean_result_title result) then 80
  else calculateStringSimilarity (clean_original_title originalTitle)
         (clean_result_title result) * 60.

(** The points for the release year and for the origin country. *)
Definition date_points `{Calendar} (countryCode : string) (result : Candidate.t) : Q :=
  if decide (countryCode = "PH") then
    if year_ge (releaseYear result) (currentYear - 2) then 30
    else if year_ge (releaseYear result) (currentYear - 5) then 20
    else if year_ge (releaseYear result) 2010 then 10
    else 0
  else
    if year_ge (releaseYear result) 2000 && year_le (releaseYear result) (currentYear - 1)
    then 20 else 0.

Definition origin_points (countryCode : string) (result : Candidate.t) : Q :=
  match Candidate.origin_country result with
  | Some countries => if bool_decide (countryCode ∈ countries) then 25 else 0
  | None => 0
  end.

(** What popularity and rating add, less the penalty on old,
    low-rated content. *)
Definition tiebreak_points `{Calendar} (result : Candidate.t) : Q :=
  Qmin (default 0%Q (Candidate.popularity result) * (1 # 10)) 10
  + Qmin (default 0%Q (Candidate.vote_average result) * 2) 20
  - (if year_lt (releaseYear result) 1990
        && Qltb (default 0%Q (Candidate.vote_average result)) 7 then 20 else 0).

(** ** A calendar and two candidates

    The calendar reads the year off the first four characters of a date
    and takes 2026 for the current year.  [my_show] bears the searched
    title; [my_show_2] bears a longer one and is more popular and better
    rated; on date and origin they agree. *)

Definition year_prefix_calendar : Calendar :=
  {| getFullYear := λ s,
       let year := take 4 (chars s) in
       if (length year =? 4)%nat && forallb is_digit year then Some (parseInt (str year))
       else None;
     currentYear := 2026 |}.

Definition my_show : Candidate.t :=
  {| Candidate.id := 1; Candidate.title := Some "My Show"; Candidate.name := None;
     Candidate.release_date := Some "2020-05-01"; Candidate.first_air_date := None;
     Candidate.media_type := None; Candidate.origin_country := Some ["PH"];
     Candidate.popularity := Some 0%Q; Candidate.vote_average := Some 0%Q |}.

Definition my_show_2 : Candidate.t :=
  {| Candidate.id := 2; Candidate.title := Some "My Show 2"; Candidate.name := None;
     Candidate.release_date := Some "2020-05-01"; Candidate.first_air_date := None;
     Candidate.media_type := None; Candidate.origin_country := Some ["PH"];
     Candidate.popularity := Some 1000%Q; Candidate.vote_average := Some 10%Q |}.


(** ** Vocabulary of the statements about searches *)

(** A call that gave no candidate: it threw, or its response held no
    result. *)
Definition unproductive (outcome : Outcome) : Prop :=
  match outcome with
  | Threw _ => True
  | Responded None => True
  | Responded (Some results) => results = []
  end.

(** The log of calls that gave no candidate: each is followed by the
    pause of 100 ms. *)
Definition failed_events (failed : list (Request * Outcome)) : list Event :=
  flat_map (λ call, [Searched call.1 call.2; Waited 100]) failed.

(** The calls of the search API in a log, in their order. *)
Definition calls (events : list Event) : list (Request * Outcome) :=
  omap (λ event, match event with
                 | Searched request outcome => Some (request, outcome)
                 | Waited _ => None
                 end) events.

(** [consistent events w w']: from the world [w], the calls and pauses of
    [events] get the recorded outcomes and lead to the world [w']. *)
Fixpoint consistent `{Host} (events : list Event) (w w' : World) : Prop :=
  match events with
  | [] => w' = w
  | Searched request outcome :: later =>
      outcome = (axios_get request w).1 ∧ consistent later (axios_get request w).2 w'
  | Waited ms :: later => consistent later (setTimeout ms w) w'
  end.

(** What one strategy gives: the value the loop goes on with, after the
    call and whatever it threw has been caught. *)
Definition strategy_found `{Calendar} (title mediaType countryCode : string) (i : Z)
    (outcome : Outcome) : option TmdbData :=
  match outcome with
  | Responded (Some results) =>
      if decide (0 < length results)%nat then
        (λ bestMatch, tmdb_data bestMatch mediaType i)
          <$> findBestMatch results title countryCode mediaType
      else None
  | _ => None
  end.

(** The same host, but a call that would throw returns an empty list of
    results instead. *)
Definition hush (outcome : Outcome) : Outcome :=
  match outcome with
  | Threw _ => Responded (Some [])
  | Responded results => Responded results
  end.

Definition hush_event (event : Event) : Event :=
  match event with
  | Searched request outcome => Searched request (hush outcome)
  | Waited ms => Waited ms
  end.

Definition hushed (H : Host) : Host :=
  {| World := @World H;
     axios_get := λ request w, (hush (@axios_get H request w).1, (@axios_get H request w).2);
     setTimeout := @setTimeout H;
     Host_calendar := @Host_calendar H |}.

(** ** A service with a key and a scripted search API

    The world counts the calls made so far.  The first call throws, the
    second returns no result, every later call returns [my_show_remake]
    and [my_show]. *)

Definition keyed_service : ScraperService := {| tmdbApiKey := Some "key" |}.


(** A search API that is down: every call throws. *)
Definition failing_host : Host :=
  {| World := unit;
     axios_get := λ request w, (Threw "ECONNREFUSED", w);
     setTimeout := λ ms w, w;
     Host_calendar := year_prefix_calendar |}.

(** ** cleanTitleForSearch without regular expressions

    What the seven steps of [cleanTitleForSearch] compute, written as
    scans of the title: [normalise_title] follows the regular
    expressions of the source, the dot of [.*?] that matches no line
    terminator included. *)

(** A leading number and dot, with the whitespace after the dot. *)
Definition strip_leading_number (s : list ascii) : list ascii :=
  match s with
  | d :: rest =>
      if is_digit d then
        match drop_while is_digit rest with
        | c :: after => if decide (c = "."%char) then trim_start after else s
        | [] => s
        end
      else s
  | [] => s
  end.

(** What follows the first [close], when no line ends before it. *)
Fixpoint after_close (close : ascii) (s : list ascii) : option (list ascii) :=
  match s with
  | [] => None
  | c :: rest =>
      if decide (c = close) then Some rest
      else if is_line_terminator c then None
      else after_close close rest
  end.

(** An enclosed group starts here: whitespace, [open], the content up to
    the first [close], whitespace.  The result is what follows it. *)
Definition group_at (open close : ascii) (s : list ascii) : option (list ascii) :=
  match trim_start s with
  | c :: rest => if decide (c = open) then trim_start <$> after_close close rest else None
  | [] => None
  end.

(** [w] starts here, in any letter case.  The result is what follows. *)
Fixpoint strip_word (w s : list ascii) : option (list ascii) :=
  match w, s with
  | [], _ => Some s
  | x :: w', y :: s' =>
      if decide (toUpperChar y = toUpperChar x) then strip_word w' s' else None
  | _ :: _, [] => None
  end.

(** [w], whitespace and a number start here. *)
Definition numbered_at (w : string) (s : list ascii) : option (list ascii) :=
  match strip_word (chars w) s with
  | Some (c :: rest) =>
      if is_space c then
        match trim_start rest with
        | d :: after => if is_digit d then Some (drop_while is_digit after) else None
        | [] => None
        end
      else None
  | _ => None
  end.

(** A run of whitespace starts here. *)
Definition spaces_at (s : list ascii) : option (list ascii) :=
  match s with
  | c :: rest => if is_space c then Some (trim_start rest) else None
  | [] => None
  end.

(** Reading [s] from the left, what starts as [found] says is replaced
    by [repl] and the reading goes on behind it. *)
Fixpoint replace_matches (fuel : nat) (found : list ascii → option (list ascii))
    (repl s : list ascii) : list ascii :=
  match fuel with
  | O => s
  | S fuel' =>
      match found s with
      | Some rest => repl ++ replace_matches fuel' found repl rest
      | None =>
          match s with
          | [] => []
          | c :: s' => c :: replace_matches fuel' found repl s'
          end
      end
  end.

Definition replace_each (found : list ascii → option (list ascii))
    (repl s : list ascii) : list ascii :=
  replace_matches (S (length s)) found repl s.

Definition normalise_title (title : string) : string :=
  let t := chars title in
  let t := strip_leading_number t in
  let t := replace_each (group_at "(" ")") [] t in
  let t := replace_each (group_at "[" "]") [] t in
  let t := replace_each (numbered_at "season") [] t in
  let t := replace_each (numbered_at "series") [] t in
  let t := replace_each spaces_at [" "%char] t in
  str (trim_chars t).

(** ** The normalisation of a title, in the words of the specification

    Strip a leading number-and-dot prefix; remove parenthetical and
    bracketed content; remove the patterns season n and series n in any
    letter case; collapse whitespace; trim.  Parenthetical content runs
    from an opening parenthesis to the next closing one, wherever that
    stands, and goes with the whitespace around it. *)





(** A matcher of one character of the class [p]. *)
Definition class_matcher (p : ascii → bool)
    (m : cursor → (cursor → option cursor) → option cursor) : Prop :=
  ∀ cur k, m cur k = match cur.2 with
                     | x :: rest => if p x then k (S cur.1, rest) else None
                     | [] => None
                     end.

(** The cursor behind a match that leaves [rest] of [s]. *)
Definition behind (pos : nat) (s rest : list ascii) : cursor :=
  ((pos + (length s - length rest))%nat, rest).



(** A tidy title: every whitespace character is a single space between
    two other characters. *)
Fixpoint single_spaced (s : list ascii) : Prop :=
  match s with
  | [] => True
  | c :: rest =>
      (is_space c = true → c = " "%char ∧ is_space (default "x"%char (head rest)) = false)
      ∧ single_spaced rest
  end.

Definition tidy (s : list ascii) : Prop :=
  single_spaced s
  ∧ is_space (default "x"%char (head s)) = false
  ∧ is_space (default "x"%char (last s)) = false.

(** ** Vocabulary of the statements about the gap-fill pass *)

(** The ranks from 1 to 10 that no entry of the list has, in ascending
    order. *)
Definition free_ranks (entries : list Item.t) : list Z :=
  List.filter (λ rank, negb (has_rank entries rank)) (seqZ 1 10).

(** The trimmed texts of the links that are not blank, in document
    order. *)
Definition nonblank_titles (texts : list string) : list string :=
  List.filter (λ title, negb (String.eqb title "")) (trim <$> texts).

(** An entry as the extractor makes it. *)
Definition scraped_entry (category : string) (entry : Item.t) : Prop :=
  Item.title entry ≠ ""
  ∧ Item.category entry = category
  ∧ Item.country entry = "Philippines"
  ∧ Item.platform entry = "Netflix"
  ∧ Item.tmdb entry = None.

(** Entries for the titles, ranked from [start] on in their order. *)
Definition ranked_from (start : Z) (category : string) (titles : list string)
    : list Item.t :=
  imap (λ i title, new_item (start + Z.of_nat i) title category "") titles.

(** ** Vocabulary of the statements about queries *)

(** The number of space characters of a string. *)
Definition count_spaces (s : list ascii) : nat :=
  length (List.filter (λ c, bool_decide (c = " "%char)) s).

(** ** removeCountryIndicators without regular expressions *)

(** The first of the words [ws] that starts here, in any letter case.
    The result is what follows it. *)
Fixpoint strip_first_word (ws : list string) (s : list ascii) : option (list ascii) :=
  match ws with
  | [] => None
  | w :: later =>
      match strip_word (chars w) s with
      | Some rest => Some rest
      | None => strip_first_word later s
      end
  end.

(** The words of the first pattern of [removeCountryIndicators], in the
    order of its alternation. *)
Definition country_words : list string :=
  ["ph"; "philippines"; "filipino"; "pinoy"; "tagalog"; "tl"].

(** A country word starts here, behind whitespace or none.  The result
    is what follows the word and the whitespace behind it. *)
Definition country_word_at (s : list ascii) : option (list ascii) :=
  trim_start <$> strip_first_word country_words (trim_start s).

(** [s] without the whitespace at its end. *)
Definition trim_end (s : list ascii) : list ascii := reverse (trim_start (reverse s)).

(** Runs of whitespace collapsed to one space each, then trimmed. *)
Definition normalise_spaces (s : list ascii) : list ascii :=
  trim_chars (replace_each spaces_at [" "%char] s).

(** A text in which no country word can start and no parenthesis
    opens: none of the letters p, f and t, in either case, and no
    opening parenthesis. *)
Definition indicator_free (s : list ascii) : Prop :=
  Forall (λ c, c ∉ chars "pPfFtT(") s.

(** The letters a country word starts with. *)
Definition country_initial (c : ascii) : bool :=
  existsb (Ascii.eqb (toUpperChar c)) (chars "PFT").

(** No country word starts with the letters [X], given in upper case: each
    word differs from them within the length of both. *)
Definition starts_no_country_word (X : list ascii) : bool :=
  negb (is_space (default " "%char (head X)))
  && forallb (λ word : string,
                let n := Nat.min (length X) (String.length word) in
                bool_decide (take n X ≠ take n (toUpperChar <$> chars word)))
       country_words.

(** A title that needs no cleaning: trimmed and single-spaced, without
    digits, parentheses or brackets, and without the letters a country
    word starts with. *)
Definition plain_title (title : string) : Prop :=
  tidy (chars title)
  ∧ Forall (λ c, is_digit c = false ∧ c ∉ chars "([pPfFtT") (chars title).

(** ** getTMDBIdOnly and batchGetTMDBIds *)

Definition getTMDBIdOnly `{Host} (this : ScraperService)
    (title mediaType countryCode : string) : M (option Z) :=
  result ← searchTMDB this title mediaType countryCode;
  mret (match result with Some data => Some (tmdb_id data) | None => None end).

(** One entry of the batch result: [{ title: title, tmdb_id: tmdbId }]. *)
Record IdResult : Type := {
  id_title : string;
  id_tmdb_id : option Z
}.

(** The [for] loop from index [i] on; [titles] is the whole array and
    [remaining] what is left of it from [i]. *)
Fixpoint batch_loop `{Host} (this : ScraperService) (mediaType countryCode : string)
    (titles : list string) (i : nat) (remaining : list string) (results : list IdResult)
    : M (list IdResult) :=
  match remaining with
  | [] => mret results
  | title :: later =>
      tmdbId ← getTMDBIdOnly this title mediaType countryCode;
      let results := results ++ [{| id_title := title; id_tmdb_id := tmdbId |}] in
      _ ← (if decide (i < length titles - 1)%nat then wait 150 else mret ());
      batch_loop this mediaType countryCode titles (S i) later results
  end.

Definition batchGetTMDBIds `{Host} (this : ScraperService) (titles : list string)
    (mediaType countryCode : string) : M (list IdResult) :=
  batch_loop this mediaType countryCode titles 0 titles [].

(** ** Vocabulary of the statements about logs *)

Definition is_search (event : Event) : bool :=
  match event with Searched _ _ => true | Waited _ => false end.

Definition is_pause (ms : Z) (event : Event) : bool :=
  match event with Searched _ _ => false | Waited ms' => ms' =? ms end.

(** The number of calls of the search API, and of pauses of [ms]
    milliseconds, in a log. *)
Definition searches (events : list Event) : nat := length (List.filter is_search events).

Definition pauses (ms : Z) (events : list Event) : nat :=
  length (List.filter (is_pause ms) events).

(** The candidates the calls of a log returned. *)
Definition returned_candidates (events : list Event) : list Candidate.t :=
  flat_map (λ event, match event with
                     | Searched _ (Responded (Some results)) => results
                     | _ => []
                     end) events.

(** A log of calls of the search API in which every call that gave no
    candidate is followed at once by the pause of 100 ms, and which
    holds nothing else. *)
Inductive paced : list Event → Prop :=
| paced_nil : paced []
| paced_found request outcome events :
    ¬ unproductive outcome → paced events → paced (Searched request outcome :: events)
| paced_failed request outcome events :
    unproductive outcome → paced events →
    paced (Searched request outcome :: Waited 100 :: events).

(** The logs of [segments] one after the other, with [sep] between two
    of them. *)
Fixpoint joined (sep : list Event) (segments : list (list Event)) : list Event :=
  match segments with
  | [] => []
  | log :: later =>
      match later with
      | [] => log
      | _ :: _ => log ++ sep ++ joined sep later
      end
  end.

(** [searches_for this title countryCode mediaTypes log]: every call of
    [log] is the request of one of the four strategies for [title], for
    one of the media types [mediaTypes]. *)
Definition searches_for (this : ScraperService) (title countryCode : string)
    (mediaTypes : list string) (log : list Event) : Prop :=
  Forall (λ call : Request * Outcome,
            ∃ mediaType, mediaType ∈ mediaTypes
              ∧ call.1 ∈ search_request this mediaType <$> searchStrategies title countryCode)
    (calls log).

(** ** Exceptions, the page and the file system

    An exception is known by what the error handler reads of it. *)

Record JsError : Type := {
  err_name : string;             (* err.name *)
  err_code : option string;      (* err.code *)
  err_message : string           (* err.message *)
}.

(** [new Error(message)] *)
Definition new_Error (message : string) : JsError :=
  {| err_name := "Error"; err_code := None; err_message := message |}.

(** What lies outside the service besides the search API: the page at
    [baseURL], requested with the headers of [fetchPage], resolves to
    [response.data] or the request throws; [fs.writeFileSync] returns or
    throws; [Date.now()] reads the clock of the world and [toISOString]
    prints a time. *)
Class Site `{Host} : Type := {
  axios_get_page : World → (JsError + string) * World;
  writeFileSync : string → string → World → option JsError * World;
  Date_now : World → Z;
  toISOString : Z → string;
  Site_cheerio :: Cheerio
}.

(** What an observer sees of a scrape: the request of the page, the
    calls and pauses of the enrichment, the debug file. *)
Inductive SiteEvent : Type :=
| Fetched (outcome : JsError + string)
| Tmdb (event : Event)
| Wrote (path data : string) (failed : option JsError).

(** A computation returns a value or throws an exception. *)
Inductive Completion (A : Type) : Type :=
| Returned (a : A)
| Raised (error : JsError).
Arguments Returned {A} a.
Arguments Raised {A} error.

Definition Scrape `{Site} (A : Type) : Type :=
  World * list SiteEvent → Completion A * (World * list SiteEvent).

(** A computation of the search layer, run inside a scrape.  An
    exception of that layer is an error known by its message. *)
Definition run_tmdb `{Site} {A} (m : M A) : Scrape A := λ st,
  let run := m (st.1, []) in
  let st' := (run.2.1, st.2 ++ (Tmdb <$> run.2.2)) in
  match run.1 with
  | Ok a => (Returned a, st')
  | Throw message => (Raised (new_Error message), st')
  end.

(** ** fetchPage *)

Definition fetchPage `{Site} : Scrape string := λ st,
  let outcome := (axios_get_page st.1).1 in
  let st' := ((axios_get_page st.1).2, st.2 ++ [Fetched outcome]) in
  match outcome with
  | inl error => (Raised (new_Error ("Failed to fetch page: " +:+ err_message error)), st')
  | inr data => (Returned data, st')
  end.

(** ** scrapeNetflixTop10 *)

Record ScrapeResult : Type := {
  success : bool;
  data : list Item.t;
  scrapedAt : string;
  count : Z;
  result_type : string;          (* type *)
  result_countryCode : string;   (* countryCode *)
  enrichedWithTMDB_flag : bool   (* enrichedWithTMDB *)
}.

(** [s.substring(0, n)] *)
Definition substring_to (n : Z) (s : string) : string := str (take (Z.to_nat n) (chars s)).

(** The [catch] of the source logs the exception and throws it again:
    an exception goes through as it is. *)
Definition scrapeNetflixTop10 `{Site} (this : ScraperService) (type : string)
    (enrichWithTMDB_wanted : bool) (countryCode : string) : Scrape ScrapeResult := λ st,
  match fetchPage st with
  | (Raised error, st) => (Raised error, st)
  | (Returned html, st) =>
      let data := parseNetflixTop10 html type in
      let enriched :=
        if enrichWithTMDB_wanted && truthy (tmdbApiKey this) && (0 <? length data)%nat
        then run_tmdb (enrichWithTMDB this data countryCode) st
        else (Returned data, st) in
      match enriched with
      | (Raised error, st) => (Raised error, st)
      | (Returned data, st) =>
          let written :=
            if decide (length data = 0%nat) then
              let sample := substring_to 5000 html in
              let write := writeFileSync "./debug-html.txt" sample st.1 in
              (write.1, (write.2, st.2 ++ [Wrote "./debug-html.txt" sample write.1]))
            else (None, st) in
          match written with
          | (Some error, st) => (Raised error, st)
          | (None, st) =>
              (Returned {| success := true;
                           data := data;
                           scrapedAt := toISOString (Date_now st.1);
                           count := Z.of_nat (length data);
                           result_type := type;
                           result_countryCode := countryCode;
                           enrichedWithTMDB_flag :=
                             enrichWithTMDB_wanted && truthy (tmdbApiKey this) |}, st)
          end
      end
  end.

(** ** A site for examples

    The search API is down, the page is [alpha_html], the file system
    accepts every write and the clock stands at 0; [offline_site] is the
    same with a page request that is refused. *)

Definition iso_1970 : string := "1970-01-01T00:00:00.000Z".

Definition alpha_site : @Site failing_host :=
  {| axios_get_page := λ w, (inr alpha_html, w);
     writeFileSync := λ path data w, (None, w);
     Date_now := λ w, 0;
     toISOString := λ t, iso_1970;
     Site_cheerio := alpha_cheerio |}.

Definition refused : JsError :=
  {| err_name := "Error"; err_code := Some "ECONNREFUSED";
     err_message := "connect ECONNREFUSED" |}.

Definition offline_site : @Site failing_host :=
  {| axios_get_page := λ w, (inl refused, w);
     writeFileSync := λ path data w, (None, w);
     Date_now := λ w, 0;
     toISOString := λ t, iso_1970;
     Site_cheerio := alpha_cheerio |}.

(** ** errorHandler

    The status and the body of the response it sends. *)

Record ErrorBody : Type := {
  body_error : string;           (* error *)
  body_message : string          (* message *)
}.

Definition errorHandler (NODE_ENV : option string) (err : JsError) : Z * ErrorBody :=
  if decide (err_name err = "ValidationError") then
    (400, {| body_error := "Validation Error"; body_message := err_message err |})
  else if decide (err_code err = Some "ENOTFOUND" ∨ err_code err = Some "ECONNREFUSED") then
    (503, {| body_error := "Service Unavailable";
             body_message := "Unable to reach target website" |})
  else
    (500, {| body_error := "Internal Server Error";
             body_message := if decide (NODE_ENV = Some "production")
                             then "Something went wrong" else err_message err |}).

(** ** ScraperController: the cache *)

(** A cache entry: [{ value: value, expiry: ... }]. *)
Record CacheData : Type := {
  cache_value : ScrapeResult;
  cache_expiry : Z
}.

Definition CACHE_DURATION : Z := 60 * 60 * 1000.

(** [localStorage], where there is one.  A call returns or throws;
    [JSON_parse] gives [data.value] and [data.expiry] of the entry a
    stored string holds; [storage_keys] lists [localStorage.key(i)] for
    [i] below [localStorage.length]. *)
Record Storage (W : Type) : Type := {
  getItem : string → W → option (option string) * W;     (* [None]: it throws *)
  setItem : string → string → W → bool * W;              (* [false]: it throws *)
  removeItem : string → W → bool * W;                    (* [false]: it throws *)
  storage_keys : W → option (list (option string));      (* [None]: it throws *)
  JSON_parse : string → option (option ScrapeResult * option Z);   (* [None]: it throws *)
  JSON_stringify : CacheData → string
}.
Arguments getItem {W} _ _ _.
Arguments setItem {W} _ _ _ _.
Arguments removeItem {W} _ _ _.
Arguments storage_keys {W} _ _.
Arguments JSON_parse {W} _ _.
Arguments JSON_stringify {W} _ _.

(** Where the application runs: [localStorage] is [None] when
    [typeof localStorage] is [undefined]. *)
Class Runtime `{Site} : Type := {
  localStorage : option (Storage World);
  NODE_ENV : option string
}.

(** The state of the controller is its [memoryCache]; a method of the
    controller runs on it and on the state of the scrapes. *)
Definition Ctl `{Runtime} (A : Type) : Type :=
  gmap string CacheData * (World * list SiteEvent)
  → A * (gmap string CacheData * (World * list SiteEvent)).

(** The [try] block of [getFromCache] on a storage: [Some value] is
    [return data.value], [None] falls out of the block or into its
    [catch]. *)
Definition local_lookup `{Runtime} (storage : Storage World) (key : string) (w : World)
    : option (option ScrapeResult) * World :=
  match getItem storage key w with
  | (Some cached, w) =>
      if truthy cached then
        match JSON_parse storage (default "" cached) with
        | Some (value, expiry) =>
            if match expiry with Some expiry => Date_now w <? expiry | None => false end
            then (Some value, w)
            else (None, (removeItem storage key w).2)
        | None => (None, w)
        end
      else (None, w)
  | (None, w) => (None, w)
  end.

Definition getFromCache `{Runtime} (key : string) : Ctl (option ScrapeResult) := λ s,
  let memoryCache := s.1 in
  let local :=
    match localStorage with
    | Some storage => local_lookup storage key s.2.1
    | None => (None, s.2.1)
    end in
  match local.1 with
  | Some value => (value, (memoryCache, (local.2, s.2.2)))
  | None =>
      match memoryCache !! key with
      | Some cached =>
          if Date_now local.2 <? cache_expiry cached
          then (Some (cache_value cached), (memoryCache, (local.2, s.2.2)))
          else (None, (delete key memoryCache, (local.2, s.2.2)))
      | None => (None, (memoryCache, (local.2, s.2.2)))
      end
  end.

Definition setCache `{Runtime} (key : string) (value : ScrapeResult) : Ctl unit := λ s,
  let memoryCache := s.1 in
  let cacheData :=
    {| cache_value := value; cache_expiry := Date_now s.2.1 + CACHE_DURATION |} in
  match localStorage with
  | Some storage =>
      let stored := setItem storage key (JSON_stringify storage cacheData) s.2.1 in
      if stored.1 then ((), (memoryCache, (stored.2, s.2.2)))
      else ((), (<[key := cacheData]> memoryCache, (stored.2, s.2.2)))
  | None => ((), (<[key := cacheData]> memoryCache, s.2))
  end.

(** [key.startsWith('netflix_')] *)
Definition is_netflix_key (key : option string) : bool :=
  match key with
  | Some key => is_prefix (chars "netflix_") (chars key)
  | None => false
  end.

(** [keysToRemove.forEach(key => localStorage.removeItem(key))]; the
    first call that throws ends the loop. *)
Fixpoint remove_items {W} (storage : Storage W) (keys : list string) (w : W) : W :=
  match keys with
  | [] => w
  | key :: later =>
      let removed := removeItem storage key w in
      if removed.1 then remove_items storage later removed.2 else removed.2
  end.

Definition clearCache `{Runtime} (cacheKey : option string) : Ctl unit := λ s,
  let memoryCache := s.1 in
  if truthy cacheKey then
    let key := default "" cacheKey in
    let w := match localStorage with
             | Some storage => (removeItem storage key s.2.1).2
             | None => s.2.1
             end in
    ((), (delete key memoryCache, (w, s.2.2)))
  else
    let w := match localStorage with
             | Some storage =>
                 match storage_keys storage s.2.1 with
                 | Some keys =>
                     let keysToRemove :=
                       omap (λ key, if is_netflix_key key then key else None) keys in
                     remove_items storage keysToRemove s.2.1
                 | None => s.2.1
                 end
             | None => s.2.1
             end in
    ((), (∅, (w, s.2.2))).

(** ** ScraperController: the routes *)

Inductive Body : Type :=
| ResultBody (result : ScrapeResult)
    (* [res.json(result)] *)
| TvBody (result : ScrapeResult) (cached : bool) (stamp : string)
    (* [{ ...result, cached, cacheTimestamp }] when [cached], and
       [{ ...result, cached, timestamp }] when not *)
| FailureBody (failure : ErrorBody).

Record Response : Type := {
  status : Z;
  body : Body
}.

(** [res.json(body)]: the status is 200. *)
Definition res_json (body : Body) : Response := {| status := 200; body := body |}.

(** [next(error)]: the application hands the error to [errorHandler]. *)
Definition next `{Runtime} (error : JsError) : Response :=
  let answer := errorHandler NODE_ENV error in
  {| status := answer.1; body := FailureBody answer.2 |}.

(** [scraperService.scrapeNetflixTop10(type)], the other two parameters
    at their defaults. *)
Definition scrape `{Runtime} (scraperService : ScraperService) (type : string)
    : Scrape ScrapeResult :=
  scrapeNetflixTop10 scraperService type true "PH".

Definition getNetflixTop10 `{Runtime} (scraperService : ScraperService) : Ctl Response := λ s,
  match scrape scraperService "both" s.2 with
  | (Returned result, st) => (res_json (ResultBody result), (s.1, st))
  | (Raised error, st) => (next error, (s.1, st))
  end.

Definition getNetflixMovies `{Runtime} (scraperService : ScraperService) : Ctl Response := λ s,
  match scrape scraperService "movies" s.2 with
  | (Returned result, st) => (res_json (ResultBody result), (s.1, st))
  | (Raised error, st) => (next error, (s.1, st))
  end.

Definition getNetflixTVShows `{Runtime} (scraperService : ScraperService) : Ctl Response := λ s,
  let cacheKey := "netflix_tv_shows" in
  let looked := getFromCache cacheKey s in
  match looked.1 with
  | Some cachedResult =>
      (res_json (TvBody cachedResult true (toISOString (Date_now looked.2.2.1))), looked.2)
  | None =>
      match scrape scraperService "tv" looked.2.2 with
      | (Returned result, st) =>
          let stored := setCache cacheKey result (looked.2.1, st) in
          (res_json (TvBody result false (toISOString (Date_now stored.2.2.1))), stored.2)
      | (Raised error, st) => (next error, (looked.2.1, st))
      end
  end.

(** The application on the server: no [localStorage]; in production or
    not. *)
Definition server (site : @Site failing_host) (NODE_ENV : option string)
    : @Runtime failing_host site :=
  {| localStorage := None; NODE_ENV := NODE_ENV |}.

(** A result without entries. *)
Definition no_data : ScrapeResult :=
  {| success := true; data := []; scrapedAt := iso_1970; count := 0;
     result_type := "tv"; result_countryCode := "PH"; enrichedWithTMDB_flag := true |}.

(* ===================================================================== *)
(** * Properties *)
(* ===================================================================== *)

(** ** Strings *)

Lemma chars_length (s : string) : length (chars s) = String.length s.
Proof. induction s; simpl; congruence. Qed.

Lemma chars_str (l : list ascii) : chars (str l) = l.
Proof. apply String.list_ascii_of_string_of_list_ascii. Qed.

Lemma str_chars (s : string) : str (chars s) = s.
Proof. apply String.string_of_list_ascii_of_string. Qed.

Lemma chars_inj (s t : string) : chars s = chars t → s = t.
Proof. intros H. rewrite <- (str_chars s), <- (str_chars t). by rewrite H. Qed.

(** ** Edit distance: the recurrence computes the cheapest script *)

Create HintDb edits discriminated.
#[export] Hint Constructors edits : edits.

Section EditDistanceFacts.
Context {A : Type} `{EqDecision A}.
Implicit Types s t : list A.

Lemma lev_nil_l t : lev [] t = length t.
Proof. by destruct t. Qed.

Lemma lev_nil_r s : lev s [] = length s.
Proof. by destruct s. Qed.

Lemma lev_cons a b s t :
  lev (a :: s) (b :: t) =
    if decide (a = b) then lev s t
    else S (Nat.min (lev s t) (Nat.min (lev (a :: s) t) (lev s (b :: t)))).
Proof. reflexivity. Qed.

Lemma lev_sym s t : lev s t = lev t s.
Proof.
  revert t. induction s as [|a s IHs]; intros t.
  - by rewrite lev_nil_l, lev_nil_r.
  - induction t as [|b t IHt].
    + by rewrite lev_nil_l, lev_nil_r.
    + rewrite !lev_cons. rewrite <- IHt, (IHs t), (IHs (b :: t)).
      repeat case_decide; subst; try congruence. lia.
Qed.

(** Dropping or adding one character moves the distance by at most one. *)
Lemma lev_step s t :
  (∀ b, lev s (b :: t) ≤ S (lev s t))%nat ∧ (∀ a, lev s t ≤ S (lev (a :: s) t))%nat.
Proof.
  remember (length s + length t)%nat as k eqn:Hk.
  revert s t Hk. induction (lt_wf k) as [k _ IH]. intros s t ->.
  assert (IHl : ∀ s' t', (length s' + length t' < length s + length t)%nat →
            ∀ b, (lev s' (b :: t') ≤ S (lev s' t'))%nat).
  { intros s' t' Hlt. by apply (IH _ Hlt s' t'). }
  assert (IHr : ∀ s' t', (length s' + length t' < length s + length t)%nat →
            ∀ a, (lev s' t' ≤ S (lev (a :: s') t'))%nat).
  { intros s' t' Hlt. by apply (IH _ Hlt s' t'). }
  split.
  - intros b. destruct s as [|a s'].
    + rewrite !lev_nil_l. simpl. lia.
    + rewrite lev_cons. case_decide; [subst|lia].
      apply IHr. simpl. lia.
  - intros a. destruct t as [|b t'].
    + rewrite !lev_nil_r. simpl. lia.
    + rewrite lev_cons. case_decide.
      * subst. apply (IHl s t'). simpl. lia.
      * pose proof (IHl s t' ltac:(simpl; lia) b).
        pose proof (IHr s t' ltac:(simpl; lia) a). lia.
Qed.

Lemma lev_edits s t : edits s t (lev s t).
Proof.
  revert t. induction s as [|a s IHs]; intros t.
  - rewrite lev_nil_l. induction t; simpl; constructor; done.
  - induction t as [|b t IHt].
    + rewrite lev_nil_r. clear IHs. induction (a :: s); simpl; constructor; done.
    + rewrite lev_cons. case_decide.
      * subst. by constructor.
      * destruct (Nat.min_spec (lev s t) (Nat.min (lev (a :: s) t) (lev s (b :: t))))
          as [[_ ->]|[_ ->]]; [by constructor|].
        destruct (Nat.min_spec (lev (a :: s) t) (lev s (b :: t)))
          as [[_ ->]|[_ ->]]; by constructor.
Qed.

Lemma lev_least s t n : edits s t n → (lev s t ≤ n)%nat.
Proof.
  induction 1 as [|a s t n _ IH|a b s t n _ IH|a s t n _ IH|b s t n _ IH].
  - done.
  - rewrite lev_cons. by rewrite decide_True.
  - rewrite lev_cons. case_decide; lia.
  - pose proof (proj2 (lev_step s t) a). rewrite (lev_sym (a :: s)), (lev_sym s) in *.
    pose proof (proj1 (lev_step t s) a). lia.
  - pose proof (proj1 (lev_step s t) b). lia.
Qed.

Lemma lev_edit_distance s t : edit_distance s t (lev s t).
Proof. split; [apply lev_edits | apply lev_least]. Qed.

Lemma edit_distance_unique s t d d' :
  edit_distance s t d → edit_distance s t d' → d = d'.
Proof. intros [H1 H2] [H3 H4]. apply H2 in H3. apply H4 in H1. lia. Qed.

(** Scripts can be read backwards and from the other side. *)
Lemma edits_sym s t n : edits s t n → edits t s n.
Proof. induction 1; eauto with edits. Qed.

Lemma edits_snoc_keep s t n a : edits s t n → edits (s ++ [a]) (t ++ [a]) n.
Proof. induction 1; simpl; eauto with edits. Qed.

Lemma edits_snoc_replace s t n a b : edits s t n → edits (s ++ [a]) (t ++ [b]) (S n).
Proof. induction 1; simpl; eauto with edits. Qed.

Lemma edits_snoc_delete s t n a : edits s t n → edits (s ++ [a]) t (S n).
Proof. induction 1; simpl; eauto with edits. Qed.

Lemma edits_snoc_insert s t n b : edits s t n → edits s (t ++ [b]) (S n).
Proof. induction 1; simpl; eauto with edits. Qed.

Lemma edits_rev s t n : edits s t n → edits (reverse s) (reverse t) n.
Proof.
  induction 1; rewrite ?reverse_cons.
  - constructor.
  - by apply edits_snoc_keep.
  - by apply edits_snoc_replace.
  - by apply edits_snoc_delete.
  - by apply edits_snoc_insert.
Qed.

Lemma lev_reverse s t : lev (reverse s) (reverse t) = lev s t.
Proof.
  apply Nat.le_antisymm.
  - apply lev_least, edits_rev, lev_edits.
  - apply lev_least.
    rewrite <- (reverse_involutive s) at 1. rewrite <- (reverse_involutive t) at 1.
    apply edits_rev, lev_edits.
Qed.

End EditDistanceFacts.

(** ** levenshteinDistance fills the matrix with prefix distances *)

Lemma arr_set_at_end {A} (hole : A) (arr : list A) (x : A) :
  arr_set hole arr (length arr) x = arr ++ [x].
Proof.
  unfold arr_set. rewrite decide_False by lia. by rewrite Nat.sub_diag.
Qed.

Lemma arr_set_push {A} (hole : A) (arr : list A) (i : nat) (x : A) :
  i = length arr → arr_set hole arr i x = arr ++ [x].
Proof. intros ->. apply arr_set_at_end. Qed.

Lemma arr_set_fmap_seq {A} (hole : A) (f : nat → A) (j : nat) :
  arr_set hole (f <$> seq 0 j) j (f j) = f <$> seq 0 (S j).
Proof.
  rewrite arr_set_push by (by rewrite length_fmap, length_seq).
  by rewrite seq_S, fmap_app.
Qed.

Lemma arr_set_inside {A} (hole : A) (arr : list A) (i : nat) (x : A) :
  (i < length arr)%nat → arr_set hole arr i x = <[i:=x]> arr.
Proof. intros. unfold arr_set. by rewrite decide_True. Qed.

Section LevenshteinMatrix.
Variables str1 str2 : string.

Let n1 := String.length str1.
Let n2 := String.length str2.

Local Abbreviation dist := (prefix_dist str1 str2).
Local Abbreviation width := (row_width n1).
Local Abbreviation matrix_at := (mat str1 str2).

Lemma prefix_dist_0_r r : (r ≤ n2)%nat → dist r 0 = Z.of_nat r.
Proof.
  intros. unfold prefix_dist. rewrite take_0, reverse_nil, lev_nil_r, length_reverse, length_take.
  rewrite chars_length. fold n2. f_equal. lia.
Qed.

Lemma prefix_dist_0_l c : (c ≤ n1)%nat → dist 0 c = Z.of_nat c.
Proof.
  intros. unfold prefix_dist. rewrite take_0, reverse_nil, lev_nil_l, length_reverse, length_take.
  rewrite chars_length. fold n1. f_equal. lia.
Qed.

Lemma prefix_dist_S r c :
  (r < n2)%nat → (c < n1)%nat →
  dist (S r) (S c) =
    if decide (charAt str2 r = charAt str1 c) then dist r c
    else Z.min (Z.min (dist r c + 1) (dist (S r) c + 1))
               (dist r (S c) + 1).
Proof.
  intros Hr Hc. unfold prefix_dist, charAt.
  destruct (lookup_lt_is_Some_2 (chars str2) r) as [a Ha];
    [rewrite chars_length; done|].
  destruct (lookup_lt_is_Some_2 (chars str1) c) as [b Hb];
    [rewrite chars_length; done|].
  rewrite (take_S_r _ _ _ Ha), (take_S_r _ _ _ Hb), !reverse_snoc, lev_cons, Ha, Hb.
  rewrite <- !reverse_snoc, <- (take_S_r _ _ _ Ha), <- (take_S_r _ _ _ Hb).
  destruct (decide (a = b)) as [->|Hne].
  - by rewrite decide_True.
  - rewrite decide_False by congruence. lia.
Qed.

Lemma mat_lookup i j r :
  (r ≤ n2)%nat → matrix_at i j !! r = Some (dist r <$> seq 0 (width i j r)).
Proof.
  intros. unfold mat. rewrite list_lookup_fmap, lookup_seq_lt by lia. done.
Qed.

Lemma mat_length i j : length (matrix_at i j) = S n2.
Proof. unfold mat. by rewrite length_fmap, length_seq. Qed.

Lemma mget_mat i j r c :
  (r ≤ n2)%nat → (c < width i j r)%nat → mget (matrix_at i j) r c = dist r c.
Proof.
  intros Hr Hc. unfold mget, arr_get. rewrite mat_lookup by done. simpl.
  rewrite list_lookup_fmap, lookup_seq_lt by lia. done.
Qed.

(** Writing the next cell of the current row. *)
Lemma mset_mat i j :
  (i ≤ n2)%nat → mset (matrix_at i j) i j (dist i j) = matrix_at i (S j).
Proof.
  intros Hi. unfold mset, arr_get. rewrite mat_lookup by done. simpl.
  assert (Hw : width i j i = j).
  { unfold row_width. rewrite decide_False by lia. by rewrite decide_True. }
  rewrite Hw.
  rewrite arr_set_fmap_seq.
  rewrite arr_set_inside by (rewrite mat_length; lia).
  apply list_eq. intros r.
  destruct (decide (r ≤ n2)%nat) as [Hr|Hr].
  - destruct (decide (r = i)) as [->|Hne].
    + rewrite list_lookup_insert_eq by (rewrite mat_length; lia).
      rewrite mat_lookup by done. unfold row_width.
      rewrite decide_False by lia. by rewrite decide_True.
    + rewrite list_lookup_insert_ne by done. rewrite !mat_lookup by done.
      unfold row_width. repeat case_decide; done || lia.
  - rewrite !lookup_ge_None_2; [done| |].
    + rewrite mat_length. lia.
    + rewrite length_insert, mat_length. lia.
Qed.

Lemma mat_row_done i : matrix_at i (S n1) = matrix_at (S i) 1.
Proof.
  unfold mat. apply list_fmap_ext. intros _ r _. unfold row_width.
  repeat case_decide; done || lia.
Qed.

Lemma lev_init_rows_spec k :
  lev_init_rows k [] = (λ r, [Z.of_nat r]) <$> seq 0 (S k).
Proof.
  unfold lev_init_rows. generalize (S k). clear k.
  induction n as [|k IH]; [done|].
  rewrite seq_S, fold_left_app, IH, fmap_app. cbn [fold_left Nat.add].
  apply arr_set_push. by rewrite length_fmap, length_seq.
Qed.

Lemma lev_init_cols_step m k :
  (0 < length m)%nat → arr_get [] m 0 = Z.of_nat <$> seq 0 k →
  mset m 0 k (Z.of_nat k) = <[0%nat := Z.of_nat <$> seq 0 (S k)]> m.
Proof.
  intros Hm Hrow. unfold mset. rewrite Hrow, arr_set_inside by done.
  by rewrite arr_set_fmap_seq.
Qed.

Lemma lev_init_cols_spec m k :
  (0 < length m)%nat → arr_get [] m 0 = [0] →
  lev_init_cols k m = <[0%nat := Z.of_nat <$> seq 0 (S k)]> m.
Proof.
  intros Hm Hrow. unfold lev_init_cols. induction k as [|k IH].
  - cbn [seq fold_left]. unfold mset. rewrite Hrow. rewrite arr_set_inside by done.
    by rewrite arr_set_inside by (simpl; lia).
  - rewrite (seq_S (S k)), fold_left_app, IH. cbn [fold_left Nat.add].
    rewrite lev_init_cols_step.
    + rewrite list_insert_insert_eq. by rewrite (seq_S (S k)).
    + by rewrite length_insert.
    + unfold arr_get. by rewrite list_lookup_insert_eq.
Qed.

Lemma lev_init_spec :
  lev_init_cols n1 (lev_init_rows n2 []) = matrix_at 1 1.
Proof.
  rewrite lev_init_rows_spec, lev_init_cols_spec.
  - apply list_eq. intros r. destruct (decide (r ≤ n2)%nat) as [Hr|Hr].
    + rewrite mat_lookup by done. destruct r as [|r].
      * rewrite list_lookup_insert_eq by (rewrite length_fmap, length_seq; lia).
        f_equal. unfold row_width. rewrite decide_True by lia.
        apply list_eq. intros c. rewrite !list_lookup_fmap.
        destruct (decide (c < S n1)%nat).
        -- rewrite lookup_seq_lt by done. simpl. by rewrite prefix_dist_0_l by lia.
        -- by rewrite lookup_seq_ge by lia.
      * rewrite list_lookup_insert_ne by done.
        rewrite list_lookup_fmap, lookup_seq_lt by lia. simpl. f_equal.
        unfold row_width. rewrite decide_False by lia.
        replace (if decide (S r = 1%nat) then 1%nat else 1%nat) with 1%nat
          by (by case_decide).
        simpl. by rewrite prefix_dist_0_r by lia.
    + rewrite !lookup_ge_None_2; [done| |].
      * rewrite mat_length. lia.
      * rewrite length_insert, length_fmap, length_seq. lia.
  - rewrite length_fmap, length_seq. lia.
  - done.
Qed.

Lemma lev_cell_spec i j :
  (1 ≤ i ≤ n2)%nat → (1 ≤ j ≤ n1)%nat →
  lev_cell str1 str2 i (matrix_at i j) j = matrix_at i (S j).
Proof.
  intros Hi Hj. destruct i as [|i]; [lia|]. destruct j as [|j]; [lia|].
  unfold lev_cell.
  replace (S i - 1)%nat with i by lia. replace (S j - 1)%nat with j by lia.
  assert (Hd : mget (matrix_at (S i) (S j)) i j = dist i j).
  { apply mget_mat; [lia|]. unfold row_width. rewrite decide_True by lia. lia. }
  assert (Hl : mget (matrix_at (S i) (S j)) (S i) j = dist (S i) j).
  { apply mget_mat; [lia|]. unfold row_width.
    rewrite decide_False by lia. rewrite decide_True by done. lia. }
  assert (Hu : mget (matrix_at (S i) (S j)) i (S j) = dist i (S j)).
  { apply mget_mat; [lia|]. unfold row_width. rewrite decide_True by lia. lia. }
  rewrite Hd, Hl, Hu. rewrite <- (mset_mat (S i) (S j)) by lia.
  rewrite prefix_dist_S by lia. by case_decide.
Qed.

Lemma lev_row_spec i :
  (1 ≤ i ≤ n2)%nat → lev_row str1 str2 (matrix_at i 1) i = matrix_at (S i) 1.
Proof.
  intros Hi. unfold lev_row. fold n1. rewrite <- mat_row_done.
  assert (H : ∀ k, (k ≤ n1)%nat →
            fold_left (lev_cell str1 str2 i) (seq 1 k) (matrix_at i 1) = matrix_at i (S k)).
  { induction k as [|k IH]; intros Hk; [done|].
    rewrite seq_S, fold_left_app, IH by lia. cbn [fold_left].
    apply lev_cell_spec; lia. }
  by apply H.
Qed.

Lemma lev_fill_spec : lev_fill str1 str2 (matrix_at 1 1) = matrix_at (S n2) 1.
Proof.
  unfold lev_fill. fold n2.
  assert (H : ∀ k, (k ≤ n2)%nat →
            fold_left (lev_row str1 str2) (seq 1 k) (matrix_at 1 1) = matrix_at (S k) 1).
  { induction k as [|k IH]; intros Hk; [done|].
    rewrite seq_S, fold_left_app, IH by lia. cbn [fold_left].
    apply lev_row_spec; lia. }
  by apply H.
Qed.

Lemma levenshteinDistance_prefix_dist :
  levenshteinDistance str1 str2 = dist n2 n1.
Proof.
  unfold levenshteinDistance. fold n1 n2.
  rewrite lev_init_spec, lev_fill_spec.
  apply mget_mat; [done|]. unfold row_width. rewrite decide_True by lia. lia.
Qed.

End LevenshteinMatrix.

Lemma levenshteinDistance_lev (str1 str2 : string) :
  levenshteinDistance str1 str2 = Z.of_nat (lev (chars str1) (chars str2)).
Proof.
  rewrite levenshteinDistance_prefix_dist. unfold prefix_dist.
  rewrite !take_ge by (rewrite chars_length; lia).
  by rewrite lev_reverse, lev_sym.
Qed.

(** ** calculateStringSimilarity *)

Lemma lev_diag {A} `{EqDecision A} (s : list A) : lev s s = 0%nat.
Proof. induction s as [|a s IH]; [done|]. rewrite lev_cons. by rewrite decide_True. Qed.

(** The value of [calculateStringSimilarity], with the branch on the
    longer string resolved. *)
Lemma calculateStringSimilarity_lev (a b : string) :
  calculateStringSimilarity a b =
    let maxLength := Nat.max (String.length a) (String.length b) in
    if decide (maxLength = 0%nat) then 1%Q
    else ((Z.of_nat maxLength - Z.of_nat (lev (chars a) (chars b))) # Pos.of_nat maxLength)%Q.
Proof.
  unfold calculateStringSimilarity. cbv zeta.
  destruct (decide (String.length b < String.length a)%nat) as [Hlt|Hge].
  - rewrite Nat.max_l by lia. case_decide; [done|].
    by rewrite levenshteinDistance_lev.
  - rewrite Nat.max_r by lia. case_decide; [done|].
    by rewrite levenshteinDistance_lev, lev_sym.
Qed.

(** C4.  [calculateStringSimilarity] is symmetric; a string is at
    similarity 1 from itself; two empty strings are at similarity 1;
    and in general the value is [(maxLength - editDistance) / maxLength],
    where [editDistance] is the cost of a cheapest script of
    single-character insertions, replacements and deletions turning one
    string into the other and [maxLength] is the length of the longer
    string.  The quotient is exact here; the source takes it in floating
    point, from the same two integers. *)
Theorem calculateStringSimilarity_symmetric_normalised :
  (∀ a b : string, calculateStringSimilarity a b = calculateStringSimilarity b a) ∧
  (∀ a : string, (calculateStringSimilarity a a == 1)%Q) ∧
  calculateStringSimilarity "" "" = 1%Q ∧
  (∀ a b : string, ∃ editDistance : nat,
      edit_distance (chars a) (chars b) editDistance ∧
      levenshteinDistance a b = Z.of_nat editDistance ∧
      let maxLength := Nat.max (String.length a) (String.length b) in
      calculateStringSimilarity a b =
        if decide (maxLength = 0%nat) then 1%Q
        else ((Z.of_nat maxLength - Z.of_nat editDistance) # Pos.of_nat maxLength)%Q).
Proof.
  split; [|split; [|split]].
  - intros a b. rewrite !calculateStringSimilarity_lev. cbv zeta.
    by rewrite (Nat.max_comm (String.length b)), (lev_sym (chars b)).
  - intros a. rewrite calculateStringSimilarity_lev. cbv zeta.
    rewrite Nat.max_id, lev_diag. case_decide; [done|].
    unfold Qeq. simpl. lia.
  - reflexivity.
  - intros a b. exists (lev (chars a) (chars b)).
    split; [apply lev_edit_distance|].
    split; [apply levenshteinDistance_lev|].
    apply calculateStringSimilarity_lev.
Qed.

(** ** Ranked lists *)

Lemma has_rank_spec (results : list Item.t) (rank : Z) :
  has_rank results rank = true ↔ rank ∈ ranks results.
Proof.
  unfold has_rank, ranks. rewrite existsb_exists, list_elem_of_fmap.
  split.
  - intros (x & Hx & Heq). exists x. apply Z.eqb_eq in Heq.
    split; [done|]. by apply list_elem_of_In.
  - intros (x & -> & Hx). exists x. split; [by apply list_elem_of_In|]. apply Z.eqb_refl.
Qed.

Lemma has_rank_false (results : list Item.t) (rank : Z) :
  has_rank results rank = false ↔ rank ∉ ranks results.
Proof.
  rewrite <- has_rank_spec. destruct (has_rank results rank); split; congruence.
Qed.

Lemma ranks_app (l k : list Item.t) : ranks (l ++ k) = ranks l ++ ranks k.
Proof. apply fmap_app. Qed.

Lemma valid_ranks_nil : valid_ranks [].
Proof. split; constructor. Qed.

Lemma valid_ranks_push (entries : list Item.t) (e : Item.t) :
  valid_ranks entries → 1 ≤ Item.rank e ≤ 10 → Item.rank e ∉ ranks entries →
  valid_ranks (entries ++ [e]).
Proof.
  intros [Hnd Hr] Hb Hfresh. unfold valid_ranks. rewrite ranks_app. split.
  - apply NoDup_app. split; [done|]. split; [|apply NoDup_singleton].
    intros x Hx Hx'. apply list_elem_of_singleton in Hx'. by subst.
  - apply Forall_app. split; [done|]. by constructor.
Qed.

(** Ten ranks at most can be told apart. *)
Lemma valid_ranks_length (entries : list Item.t) :
  valid_ranks entries → (length entries ≤ 10)%nat.
Proof.
  intros [Hnd Hr]. unfold ranks in *.
  rewrite <- (length_fmap Item.rank).
  change 10%nat with (length (seqZ 1 10)).
  apply submseteq_length, NoDup_submseteq; [done|].
  intros x Hx. rewrite Forall_forall in Hr. apply Hr in Hx.
  apply elem_of_seqZ. lia.
Qed.

(** *** The final pass *)

Lemma unique_ranks_fold (l finalResults : list Item.t) (seenRanks : gset Z) :
  (∀ rank, rank ∈ seenRanks ↔ rank ∈ ranks finalResults) →
  valid_ranks finalResults →
  valid_ranks (fold_left keep_first_of_rank l (finalResults, seenRanks)).1.
Proof.
  revert finalResults seenRanks.
  induction l as [|item l IH]; intros finalResults seenRanks Hseen Hvalid; [done|].
  cbn [fold_left]. unfold keep_first_of_rank at 2.
  destruct (bool_decide (Item.rank item ∉ seenRanks) && (1 <=? Item.rank item)
            && (Item.rank item <=? 10)) eqn:Hguard.
  - apply andb_true_iff in Hguard as [Hguard Hle].
    apply andb_true_iff in Hguard as [Hnew Hge].
    apply bool_decide_eq_true in Hnew. apply IH.
    + intros rank. rewrite ranks_app, elem_of_union, elem_of_singleton, elem_of_app.
      rewrite Hseen. unfold ranks at 2. simpl. rewrite list_elem_of_singleton. tauto.
    + apply valid_ranks_push; [done|lia|]. by rewrite <- Hseen.
  - by apply IH.
Qed.

Lemma unique_ranks_valid (results : list Item.t) : valid_ranks (unique_ranks results).
Proof.
  unfold unique_ranks. apply unique_ranks_fold.
  - intros rank. unfold ranks. simpl. rewrite elem_of_empty, elem_of_nil. tauto.
  - apply valid_ranks_nil.
Qed.

(** *** The gap-fill pass *)

Lemma first_free_rank_spec (existingRanks : gset Z) (rank : Z) :
  first_free_rank existingRanks = Some rank → 1 ≤ rank ≤ 10 ∧ rank ∉ existingRanks.
Proof.
  unfold first_free_rank. intros H. apply find_some in H as [Hin Hfree].
  apply list_elem_of_In, elem_of_seqZ in Hin. apply bool_decide_eq_true in Hfree.
  split; [lia|done].
Qed.

Lemma fill_loop_valid (category : string) (links : list string)
    (currentResults : list Item.t) (existingRanks : gset Z) :
  (∀ rank, rank ∈ existingRanks ↔ rank ∈ ranks currentResults) →
  valid_ranks currentResults →
  valid_ranks (fill_loop category links currentResults existingRanks).
Proof.
  revert currentResults existingRanks.
  induction links as [|text links IH]; intros currentResults existingRanks Hex Hvalid;
    [done|].
  cbn [fill_loop]. destruct (String.eqb (trim text) ""); [by apply IH|].
  destruct (first_free_rank existingRanks) as [rank|] eqn:Hfree.
  - apply first_free_rank_spec in Hfree as [Hb Hnew].
    assert (valid_ranks (currentResults ++ [new_item rank (trim text) category ""])).
    { apply valid_ranks_push; [done|done|]. simpl. by rewrite <- Hex. }
    case_match; [done|]. apply IH; [|done].
    intros r. rewrite ranks_app, elem_of_union, elem_of_singleton, elem_of_app, Hex.
    unfold ranks at 2. simpl. rewrite list_elem_of_singleton. tauto.
  - case_match; [done|]. by apply IH.
Qed.

Lemma fillMissingRanks_valid (doc : Document) (currentResults : list Item.t)
    (category : string) :
  valid_ranks currentResults → valid_ranks (fillMissingRanks doc currentResults category).
Proof.
  intros. apply fill_loop_valid; [|done].
  intros rank. by rewrite elem_of_list_to_set.
Qed.

Lemma parseTableData_valid (doc : Document) (sectionType : string) :
  valid_ranks (parseTableData doc sectionType).
Proof.
  unfold parseTableData. cbv zeta. case_match.
  - apply fillMissingRanks_valid, unique_ranks_valid.
  - apply unique_ranks_valid.
Qed.

(** C1.  Whatever the page and the section label, [parseTableData], the
    gap-fill pass [fillMissingRanks] included, returns at most 10
    entries; the rank of every entry is an integer from 1 to 10; and no
    two entries have the same rank. *)
Theorem parseTableData_at_most_ten_distinct_ranks :
  ∀ (doc : Document) (sectionType : string),
    let entries := parseTableData doc sectionType in
    (length entries ≤ 10)%nat
    ∧ Forall (λ entry, 1 ≤ Item.rank entry ≤ 10) entries
    ∧ NoDup (Item.rank <$> entries).
Proof.
  intros doc sectionType entries.
  pose proof (parseTableData_valid doc sectionType) as Hvalid. fold entries in Hvalid.
  split; [by apply valid_ranks_length|].
  destruct Hvalid as [Hnd Hr]. split; [|done].
  unfold ranks in Hr. by rewrite Forall_fmap in Hr.
Qed.

(** *** Loops with an index *)

Lemma each_indexed_snoc {A S : Type} (f : S → nat → A → S) (l : list A) (x : A) (s : S) :
  each_indexed f (l ++ [x]) s = f (each_indexed f l s) (length l) x.
Proof.
  unfold each_indexed. rewrite length_app, Nat.add_1_r, seq_S.
  rewrite zip_with_app by (by rewrite length_seq). by rewrite fold_left_app.
Qed.

Lemma each_indexed_ind {A S : Type} (P : nat → S → Prop) (f : S → nat → A → S)
    (l : list A) (s : S) :
  P 0%nat s →
  (∀ i x s, (i < length l)%nat → P i s → P (Datatypes.S i) (f s i x)) →
  P (length l) (each_indexed f l s).
Proof.
  induction l as [|x l IH] using rev_ind; intros H0 Hstep; [done|].
  rewrite each_indexed_snoc, length_app, Nat.add_1_r.
  apply Hstep; [rewrite length_app; simpl; lia|].
  apply IH; [done|]. intros i y s' Hi. apply Hstep. rewrite length_app. lia.
Qed.

Lemma fold_left_ind {A S : Type} (P : S → Prop) (f : S → A → S) (l : list A) (s : S) :
  P s → (∀ s x, P s → P (f s x)) → P (fold_left f l s).
Proof. revert s. induction l; simpl; auto. Qed.

(** *** The stages collect distinct ranks from 1 to 10 *)

Lemma valid_ranks_seqZ (entries : list Item.t) :
  ranks entries = seqZ 1 (Z.of_nat (length entries)) → (length entries ≤ 10)%nat →
  valid_ranks entries.
Proof.
  intros Heq Hlen. split; rewrite Heq; [apply NoDup_seqZ|].
  apply Forall_seqZ. intros. lia.
Qed.

Lemma seqZ_push (entries : list Item.t) (e : Item.t) :
  ranks entries = seqZ 1 (Z.of_nat (length entries)) →
  Item.rank e = Z.of_nat (length entries) + 1 →
  ranks (entries ++ [e]) = seqZ 1 (Z.of_nat (length (entries ++ [e]))).
Proof.
  intros Heq Hr. rewrite ranks_app, length_app, Nat.add_1_r, seqZ_S, Heq.
  unfold ranks at 1. simpl. rewrite Hr. do 2 f_equal. lia.
Qed.

Lemma scan_row_valid category results index link :
  valid_ranks results → valid_ranks (scan_row category results index link).
Proof.
  intros Hv. unfold scan_row. cbv zeta. case_match; [done|].
  case_match eqn:Hguard; [|done].
  apply andb_true_iff in Hguard as [Hguard Hfresh].
  apply andb_true_iff in Hguard as [Hge Hle].
  apply negb_true_iff, has_rank_false in Hfresh.
  apply valid_ranks_push; [done| |done]. simpl. lia.
Qed.

Lemma scan_siblings_valid category header results :
  valid_ranks results → valid_ranks (scan_siblings category header results).
Proof.
  intros Hv. unfold scan_siblings. case_match; [|done].
  apply (each_indexed_ind (λ _, valid_ranks)); [done|].
  intros. by apply scan_row_valid.
Qed.

Lemma scan_parents_valid category header levels :
  valid_ranks (scan_parents category header levels []).
Proof.
  induction levels as [|level levels IH]; [apply valid_ranks_nil|].
  cbn [scan_parents]. cbv zeta. case_match; [|done].
  set (P := λ (_ : nat) (results : list Item.t),
         ranks results = seqZ 1 (Z.of_nat (length results)) ∧ (length results ≤ 10)%nat).
  assert (H' : P (length (default [] (header_parents header !! level)))
                 (each_indexed (scan_parent_link category header level)
                    (default [] (header_parents header !! level)) [])).
  { apply each_indexed_ind; [split; [done|simpl; lia]|].
    intros i x s _ [Heq Hlen]. unfold scan_parent_link. cbv zeta.
    destruct (String.eqb _ _ || (10 <=? length s)%nat) eqn:Hskip; [done|].
    apply orb_false_iff in Hskip as [_ Hlt]. apply Nat.leb_gt in Hlt.
    case_match; [|done]. split.
    - by apply seqZ_push.
    - rewrite length_app. simpl. lia. }
  destruct H'. by apply valid_ranks_seqZ.
Qed.

Lemma scan_all_links_valid category doc :
  valid_ranks (scan_all_links category doc []).
Proof.
  unfold scan_all_links.
  set (links := take 10 (table_links doc)).
  set (P := λ (i : nat) (results : list Item.t),
         NoDup (ranks results) ∧ Forall (λ rank, 1 ≤ rank ≤ Z.of_nat i) (ranks results)).
  assert (Hlen : (length links ≤ 10)%nat) by (unfold links; rewrite length_take; lia).
  assert (H' : P (length links)
                 (each_indexed
                    (λ results index link,
                       let title := trim (link_text link) in
                       if String.eqb title "" then results
                       else results ++ [new_item (Z.of_nat index + 1) title category ""])
                    links [])).
  { apply each_indexed_ind; [split; constructor|].
    intros i x s Hi [Hnd Hr]. unfold P. cbv zeta. case_match.
    - split; [done|]. eapply Forall_impl; [done|]. simpl. intros. lia.
    - rewrite ranks_app. split.
      + apply NoDup_app. split; [done|]. split; [|apply NoDup_singleton].
        intros r Hin Hin'. apply list_elem_of_singleton in Hin'.
        rewrite Forall_forall in Hr. apply Hr in Hin. simpl in Hin'. lia.
      + apply Forall_app. split.
        * eapply Forall_impl; [done|]. simpl. intros. lia.
        * constructor; [simpl; lia|constructor]. }
  destruct H' as [Hnd Hr]. split; [done|].
  eapply Forall_impl; [done|]. simpl. intros. lia.
Qed.

Lemma parse_by_header_valid doc sectionType category :
  valid_ranks (parse_by_header doc sectionType category).
Proof.
  unfold parse_by_header. cbv zeta. case_match.
  - pose proof (scan_siblings_valid category h [] valid_ranks_nil) as Hs.
    case_decide as Hempty; [|done].
    apply nil_length_inv in Hempty. rewrite Hempty. apply scan_parents_valid.
  - apply scan_all_links_valid.
Qed.

Lemma parseSectionBased_ranks doc sectionType :
  Forall (λ rank, 1 ≤ rank ≤ 10) (ranks (parseSectionBased doc sectionType)).
Proof.
  unfold parseSectionBased. cbv zeta. case_match; [constructor|].
  set (P := λ results : list Item.t,
         ranks results = seqZ 1 (Z.of_nat (length results)) ∧ (length results ≤ 10)%nat).
  match goal with |- Forall _ (ranks ?r) => assert (H' : P r) end.
  { apply fold_left_ind; [split; [done|simpl; lia]|].
    intros s x Hs. apply fold_left_ind; [done|].
    clear. intros s text [Heq Hlen]. unfold collect_link. cbv zeta.
    case_match eqn:Hguard; [|done].
    apply andb_true_iff in Hguard as [_ Hlt]. apply Nat.ltb_lt in Hlt. split.
    - by apply seqZ_push.
    - rewrite length_app. simpl. lia. }
  destruct H'. by apply valid_ranks_seqZ.
Qed.

Lemma parseTextBasedAggressive_ranks doc sectionType :
  Forall (λ rank, 1 ≤ rank ≤ 10) (ranks (parseTextBasedAggressive doc sectionType)).
Proof.
  unfold parseTextBasedAggressive. cbv zeta.
  apply (fold_left_ind (λ results, Forall (λ rank, 1 ≤ rank ≤ 10) (ranks results)));
    [constructor|].
  intros s [rank title] Hs. unfold keep_numbered_item. cbv zeta. simpl.
  case_match eqn:Hguard; [|done].
  apply andb_true_iff in Hguard as [Hguard Hle].
  apply andb_true_iff in Hguard as [_ Hge].
  rewrite ranks_app. apply Forall_app. split; [done|].
  constructor; [simpl; lia|constructor].
Qed.

Lemma merge_by_rank_valid results extra :
  valid_ranks results → Forall (λ rank, 1 ≤ rank ≤ 10) (ranks extra) →
  valid_ranks (merge_by_rank results extra).
Proof.
  unfold merge_by_rank. revert results.
  induction extra as [|item extra IH]; intros results Hv Hr; [done|].
  unfold ranks in Hr. rewrite fmap_cons in Hr. apply Forall_cons in Hr as [Hb Hr].
  cbn [fold_left]. apply IH; [|done].
  destruct (has_rank results (Item.rank item)) eqn:Hhas; [done|].
  apply has_rank_false in Hhas. by apply valid_ranks_push.
Qed.

Lemma collect_results_valid doc sectionType :
  valid_ranks (collect_results doc sectionType).
Proof.
  unfold collect_results. cbv zeta.
  pose proof (parse_by_header_valid doc sectionType (category_of sectionType)) as H1.
  set (r1 := parse_by_header _ _ _) in *.
  assert (H2 : valid_ranks
            (if (length r1 <? 8)%nat
             then merge_by_rank r1 (parseSectionBased doc sectionType) else r1)).
  { case_match; [|done]. apply merge_by_rank_valid; [done|apply parseSectionBased_ranks]. }
  set (r2 := if (length r1 <? 8)%nat then _ else _) in *.
  case_match; [|done].
  apply merge_by_rank_valid; [done|apply parseTextBasedAggressive_ranks].
Qed.

(** *** Sorting by rank *)

Lemma insert_sorted_perm {A} (before : A → A → bool) (x : A) (l : list A) :
  insert_sorted before x l ≡ₚ x :: l.
Proof.
  induction l as [|y l IH]; [done|]. simpl. case_match; [|done].
  rewrite IH. apply Permutation_swap.
Qed.

Lemma array_sort_perm {A} (before : A → A → bool) (l : list A) :
  array_sort before l ≡ₚ l.
Proof.
  induction l as [|x l IH]; [done|]. unfold array_sort in *. simpl.
  by rewrite insert_sorted_perm, IH.
Qed.

Lemma insert_sorted_ranks (x : Item.t) (l : list Item.t) :
  StronglySorted Z.le (ranks l) →
  StronglySorted Z.le (ranks (insert_sorted (λ a b, Item.rank a <? Item.rank b) x l)).
Proof.
  induction l as [|y l IH]; intros Hs.
  - simpl. repeat constructor.
  - unfold ranks in Hs. rewrite fmap_cons in Hs.
    apply StronglySorted_cons in Hs as [Hy Hs]. simpl.
    destruct (Item.rank y <? Item.rank x) eqn:Hlt.
    + apply Z.ltb_lt in Hlt. unfold ranks. rewrite fmap_cons. apply StronglySorted_cons.
      split; [|by apply IH].
      fold (ranks (insert_sorted (λ a b, Item.rank a <? Item.rank b) x l)).
      unfold ranks. rewrite insert_sorted_perm, fmap_cons. constructor; [lia|done].
    + apply Z.ltb_ge in Hlt. unfold ranks. rewrite !fmap_cons.
      apply StronglySorted_cons. split.
      * constructor; [done|]. eapply Forall_impl; [done|]. simpl. intros. lia.
      * apply StronglySorted_cons. done.
Qed.

Lemma array_sort_ranks (l : list Item.t) :
  StronglySorted Z.le (ranks (array_sort (λ a b, Item.rank a <? Item.rank b) l)).
Proof.
  induction l as [|x l IH]; [constructor|].
  unfold array_sort in *. simpl. by apply insert_sorted_ranks.
Qed.

Lemma StronglySorted_sublist {A} (R : relation A) (l k : list A) :
  l `sublist_of` k → StronglySorted R k → StronglySorted R l.
Proof.
  induction 1 as [|x l k Hsub IH|x l k Hsub IH]; intros Hs; [done| |].
  - apply StronglySorted_cons in Hs as [Hx Hs]. apply StronglySorted_cons.
    split; [|by apply IH].
    rewrite Forall_forall in *. intros y Hy. apply Hx. by eapply elem_of_sublist.
  - apply StronglySorted_cons in Hs as [_ Hs]. by apply IH.
Qed.

(** The loop keeps entries in the order it meets them. *)
Lemma keep_first_of_rank_sublist (l finalResults : list Item.t) (seenRanks : gset Z) :
  ∃ kept, (fold_left keep_first_of_rank l (finalResults, seenRanks)).1 = finalResults ++ kept
          ∧ kept `sublist_of` l.
Proof.
  revert finalResults seenRanks.
  induction l as [|item l IH]; intros finalResults seenRanks.
  - exists []. by rewrite app_nil_r.
  - cbn [fold_left]. unfold keep_first_of_rank at 2. case_match.
    + destruct (IH (finalResults ++ [item]) ({[Item.rank item]} ∪ seenRanks))
        as (kept & -> & Hsub).
      exists (item :: kept). rewrite <- app_assoc. split; [done|]. by constructor.
    + destruct (IH finalResults seenRanks) as (kept & -> & Hsub).
      exists kept. split; [done|]. by constructor.
Qed.

(** When all ranks are distinct and between 1 and 10, it keeps them all. *)
Lemma keep_first_of_rank_all (l finalResults : list Item.t) (seenRanks : gset Z) :
  (∀ rank, rank ∈ seenRanks ↔ rank ∈ ranks finalResults) →
  valid_ranks (finalResults ++ l) →
  (fold_left keep_first_of_rank l (finalResults, seenRanks)).1 = finalResults ++ l.
Proof.
  revert finalResults seenRanks.
  induction l as [|item l IH]; intros finalResults seenRanks Hseen Hv.
  - by rewrite app_nil_r.
  - cbn [fold_left]. unfold keep_first_of_rank at 2.
    pose proof Hv as [Hnd Hr]. rewrite ranks_app in Hnd, Hr.
    apply NoDup_app in Hnd as (_ & Hdisj & _).
    apply Forall_app in Hr as [_ Hr]. unfold ranks in Hr. rewrite fmap_cons in Hr.
    apply Forall_cons in Hr as [Hb _].
    assert (Hnew : Item.rank item ∉ seenRanks).
    { rewrite Hseen. intros Hin. apply (Hdisj _ Hin). unfold ranks. rewrite fmap_cons. left. }
    rewrite bool_decide_eq_true_2 by done.
    replace (1 <=? Item.rank item) with true by (symmetry; apply Z.leb_le; lia).
    replace (Item.rank item <=? 10) with true by (symmetry; apply Z.leb_le; lia).
    simpl. rewrite IH.
    + by rewrite <- app_assoc.
    + intros rank. rewrite ranks_app, elem_of_union, elem_of_singleton, elem_of_app.
      rewrite Hseen. unfold ranks at 2. simpl. rewrite list_elem_of_singleton. tauto.
    + by rewrite <- app_assoc.
Qed.

(** Before the gap-fill pass the list is in ascending order of rank. *)
Lemma unique_ranks_sorted (results : list Item.t) : sorted_by_rank (unique_ranks results).
Proof.
  unfold sorted_by_rank, unique_ranks. cbv zeta.
  apply StronglySorted_Sorted.
  destruct (keep_first_of_rank_sublist
              (array_sort (λ a b, Item.rank a <? Item.rank b) results) [] ∅)
    as (kept & -> & Hsub).
  simpl. eapply StronglySorted_sublist; [|apply array_sort_ranks].
  unfold ranks. by apply fmap_sublist.
Qed.

(** The final pass loses nothing of what the stages collected. *)
Lemma unique_ranks_perm (results : list Item.t) :
  valid_ranks results → unique_ranks results ≡ₚ results.
Proof.
  intros Hv. unfold unique_ranks. cbv zeta.
  rewrite keep_first_of_rank_all.
  - apply array_sort_perm.
  - intros rank. unfold ranks. simpl. rewrite elem_of_empty, elem_of_nil. tauto.
  - simpl. destruct Hv as [Hnd Hr]. unfold valid_ranks, ranks in *.
    split; by rewrite array_sort_perm.
Qed.

(** *** Every entry of a section carries the category of the section *)








(** The gap-fill pass only appends. *)
Lemma fill_loop_appends category links currentResults existingRanks :
  ∃ filled, fill_loop category links currentResults existingRanks = currentResults ++ filled
            ∧ in_category category filled.
Proof.
  revert currentResults existingRanks.
  induction links as [|text links IH]; intros currentResults existingRanks.
  - exists []. split; [by rewrite app_nil_r|constructor].
  - cbn [fill_loop]. case_match; [apply IH|].
    destruct (first_free_rank existingRanks) as [rank|].
    + case_match.
      * eexists. split; [done|]. by repeat constructor.
      * destruct (IH (currentResults ++ [new_item rank (trim text) category ""])
                    ({[rank]} ∪ existingRanks)) as (filled & -> & Hc).
        eexists. rewrite <- app_assoc. split; [done|]. by constructor.
    + case_match; [|apply IH].
      exists []. split; [by rewrite app_nil_r|constructor].
Qed.

Lemma parseTableData_appends doc sectionType :
  ∃ filled, parseTableData doc sectionType
            = unique_ranks (collect_results doc sectionType) ++ filled
            ∧ in_category (category_of sectionType) filled.
Proof.
  unfold parseTableData. cbv zeta. case_match.
  - apply fill_loop_appends.
  - exists []. split; [by rewrite app_nil_r|constructor].
Qed.


(** Nothing the stages collected is missing from the result. *)
Lemma collect_results_kept doc sectionType :
  collect_results doc sectionType ⊆ parseTableData doc sectionType.
Proof.
  destruct (parseTableData_appends doc sectionType) as (filled & -> & _).
  intros e He. apply elem_of_app. left.
  by rewrite unique_ranks_perm by apply collect_results_valid.
Qed.

(** C5.  On the page [alpha_html], whose only table row carries rank 2,
    the stages collect that row and the gap-fill pass then appends an
    entry of rank 1 behind it: [parseTableData] returns the ranks in the
    order 2, 1, which is not ascending.  The list is in ascending order
    before the gap-fill pass ([unique_ranks_sorted]); the pass pushes
    onto its end and the list is not sorted again. *)
Theorem parseTableData_gap_fill_out_of_order :
  collect_results alpha_page "TV Shows" = [new_item 2 "Alpha" "TV Show" ""]
  ∧ parseTableData alpha_page "TV Shows"
    = [new_item 2 "Alpha" "TV Show" ""; new_item 1 "Alpha" "TV Show" ""]
  ∧ ¬ sorted_by_rank (parseTableData alpha_page "TV Shows").
Proof.
  split; [by vm_compute|]. split; [by vm_compute|].
  replace (parseTableData alpha_page "TV Shows")
    with [new_item 2 "Alpha" "TV Show" ""; new_item 1 "Alpha" "TV Show" ""]
    by (by vm_compute).
  unfold sorted_by_rank, ranks. simpl. intros Hs.
  apply Sorted_inv in Hs as [_ Hhd]. apply HdRel_inv in Hhd. lia.
Qed.

(** ** parseNetflixTop10 *)






(** ** findBestMatch *)

Lemma Qltb_lt (x y : Q) : Qltb x y = true ↔ (x < y)%Q.
Proof.
  unfold Qltb. rewrite negb_true_iff. split.
  - intros Hb. apply Qnot_le_lt. intros Hle. apply Qle_bool_iff in Hle. congruence.
  - intros Hlt. destruct (Qle_bool y x) eqn:Hb; [|done].
    apply Qle_bool_iff in Hb. by apply Qlt_not_le in Hlt.
Qed.

Lemma Qltb_ge (x y : Q) : Qltb x y = false ↔ (y <= x)%Q.
Proof.
  unfold Qltb. rewrite negb_false_iff. apply Qle_bool_iff.
Qed.

(** A sort puts first what the comparator puts before. *)
Lemma insert_sorted_sorted {A} (before : A → A → bool) (R : relation A)
    `{!Transitive R} (x : A) (l : list A) :
  (∀ x y, before x y = true → R x y) → (∀ x y, before x y = false → R y x) →
  StronglySorted R l → StronglySorted R (insert_sorted before x l).
Proof.
  intros Ht Hf. induction l as [|y l IH]; intros Hs.
  - simpl. repeat constructor.
  - apply StronglySorted_cons in Hs as [Hy Hs]. simpl.
    destruct (before y x) eqn:Hb.
    + apply StronglySorted_cons. split; [|by apply IH].
      rewrite insert_sorted_perm. constructor; [by apply Ht|done].
    + apply StronglySorted_cons. split; [|by apply StronglySorted_cons].
      apply Hf in Hb. constructor; [done|].
      eapply Forall_impl; [done|]. simpl. intros z Hz. by transitivity y.
Qed.

Lemma array_sort_sorted {A} (before : A → A → bool) (R : relation A)
    `{!Transitive R} (l : list A) :
  (∀ x y, before x y = true → R x y) → (∀ x y, before x y = false → R y x) →
  StronglySorted R (array_sort before l).
Proof.
  intros Ht Hf. induction l as [|x l IH]; [constructor|].
  unfold array_sort in *. simpl. by apply insert_sorted_sorted.
Qed.

(** The first of the sorted results has the top score. *)
Lemma head_by_score (l : list Scored) :
  l ≠ [] →
  ∃ best, head (array_sort (λ a b : Scored, Qltb b.2 a.2) l) = Some best
          ∧ best ∈ l ∧ ∀ x, x ∈ l → (x.2 <= best.2)%Q.
Proof.
  intros Hne.
  pose proof (array_sort_perm (λ a b : Scored, Qltb b.2 a.2) l) as Hperm.
  assert (Hs : StronglySorted (λ a b : Scored, (b.2 <= a.2)%Q)
                 (array_sort (λ a b : Scored, Qltb b.2 a.2) l)).
  { apply array_sort_sorted.
    - intros x y z Hxy Hyz. simpl in *. by eapply Qle_trans.
    - intros x y Hb. apply Qltb_lt in Hb. by apply Qlt_le_weak.
    - intros x y Hb. by apply Qltb_ge in Hb. }
  destruct (array_sort _ l) as [|best sorted] eqn:Hsorted.
  - apply Permutation_nil_l in Hperm. by subst.
  - exists best. split; [done|]. apply StronglySorted_cons in Hs as [Hbest _].
    split.
    + rewrite <- Hperm. left.
    + intros x Hx. rewrite <- Hperm in Hx. apply elem_of_cons in Hx as [->|Hx].
      * apply Qle_refl.
      * rewrite Forall_forall in Hbest. by apply Hbest.
Qed.

Lemma media_type_filter_absent mediaType results r :
  r ∈ results → truthy (Candidate.media_type r) = false →
  r ∈ media_type_filter mediaType results.
Proof.
  intros Hin Habsent. unfold media_type_filter.
  apply list_elem_of_In, filter_In. split; [by apply list_elem_of_In|].
  apply bool_decide_eq_true. unfold or_default, truthy in *.
  destruct (Candidate.media_type r) as [s|]; [|done].
  apply negb_false_iff in Habsent. by rewrite Habsent.
Qed.

(** C10.  When a definite media type is asked for, a candidate whose
    [media_type] is absent passes the filter of [findBestMatch] and is
    among the candidates scored; when the filter would leave no
    candidate, all the candidates are scored; and the match returned is
    a top-scoring one of the candidates scored, so a match is reported
    whenever there is a candidate. *)
Theorem findBestMatch_media_type_filter `{Calendar}
    (results : list Candidate.t) (originalTitle countryCode mediaType : string) :
  mediaType ≠ "multi" → results ≠ [] →
  let scored := filter_results mediaType results in
  (∀ r, r ∈ results → truthy (Candidate.media_type r) = false → r ∈ scored)
  ∧ (media_type_filter mediaType results = [] → scored = results)
  ∧ ∃ best, findBestMatch results originalTitle countryCode mediaType = Some best
            ∧ best.1 ∈ scored
            ∧ best.2 = similarity_score originalTitle countryCode best.1
            ∧ ∀ r, r ∈ scored → (similarity_score originalTitle countryCode r <= best.2)%Q.
Proof.
  intros Hdefinite Hne scored.
  assert (Hscored : scored = media_type_filter mediaType results ∧ scored ≠ []
                    ∨ scored = results ∧ media_type_filter mediaType results = []).
  { unfold scored, filter_results. rewrite decide_True by done. cbv zeta.
    case_decide as Hlen.
    - right. split; [done|]. by apply nil_length_inv.
    - left. split; [done|]. intros Heq. by rewrite Heq in Hlen. }
  split; [|split].
  - intros r Hin Habsent.
    pose proof (media_type_filter_absent mediaType results r Hin Habsent) as Hpass.
    destruct Hscored as [[-> _]|[_ Hnone]]; [done|].
    rewrite Hnone in Hpass. by apply elem_of_nil in Hpass.
  - intros Hnone. destruct Hscored as [[Heq Hne']|[Heq _]]; [|done].
    by rewrite Heq, Hnone in Hne'.
  - assert (Hne' : scored ≠ []) by (by destruct Hscored as [[_ ?]|[-> _]]).
    destruct (head_by_score
                ((λ result, (result, similarity_score originalTitle countryCode result))
                   <$> scored)) as (best & Hhead & Hin & Hmax).
    { by destruct scored. }
    exists best. split; [|split; [|split]].
    + unfold findBestMatch. rewrite decide_False; [done|].
      intros Hlen. by apply nil_length_inv in Hlen.
    + apply list_elem_of_fmap in Hin as (r & -> & Hr). done.
    + apply list_elem_of_fmap in Hin as (r & -> & Hr). done.
    + intros r Hr.
      apply (Hmax (r, similarity_score originalTitle countryCode r)).
      apply list_elem_of_fmap. by exists r.
Qed.

Lemma findBestMatch_media_type_filter_witness :
  "movie" ≠ "multi" ∧ [my_show; my_show_2] ≠ []
  ∧ let scored := filter_results "movie" [my_show; my_show_2] in
    (∀ r, r ∈ [my_show; my_show_2] → truthy (Candidate.media_type r) = false → r ∈ scored)
    ∧ (media_type_filter "movie" [my_show; my_show_2] = [] → scored = [my_show; my_show_2])
    ∧ ∃ best, @findBestMatch year_prefix_calendar [my_show; my_show_2] "My Show" "PH" "movie"
              = Some best
              ∧ best.1 ∈ scored
              ∧ best.2 = @similarity_score year_prefix_calendar "My Show" "PH" best.1
              ∧ ∀ r, r ∈ scored →
                  (@similarity_score year_prefix_calendar "My Show" "PH" r <= best.2)%Q.
Proof.
  assert (H1 : "movie" ≠ "multi") by discriminate.
  assert (H2 : [my_show; my_show_2] ≠ []) by discriminate.
  split; [exact H1|]. split; [exact H2|].
  exact (@findBestMatch_media_type_filter year_prefix_calendar
           [my_show; my_show_2] "My Show" "PH" "movie" H1 H2).
Defined.

(** The score is the sum of its four parts. *)
Lemma similarity_score_points `{Calendar} (originalTitle countryCode : string)
    (result : Candidate.t) :
  (similarity_score originalTitle countryCode result
   == title_points originalTitle result + date_points countryCode result
      + origin_points countryCode result + tiebreak_points result)%Q.
Proof.
  unfold similarity_score, title_points, date_points, origin_points, tiebreak_points,
    clean_result_title, clean_original_title.
  cbv zeta. repeat case_match; ring.
Qed.

Lemma calculateStringSimilarity_le_1 (a b : string) : (calculateStringSimilarity a b <= 1)%Q.
Proof.
  rewrite calculateStringSimilarity_lev. cbv zeta. case_decide as Hmax; [apply Qle_refl|].
  unfold Qle. simpl.
  rewrite <- (positive_nat_Z (Pos.of_nat _)), Nat2Pos.id by done. lia.
Qed.

(** C3.  [findBestMatch] lets popularity and rating outweigh the title.
    [my_show] bears the searched title, [my_show_2] a title that
    contains it; they agree on release date, origin country and media
    type, and [my_show_2] is more popular and better rated.  The exact
    title scores 135 and the other one 145, so [findBestMatch] selects
    [my_show_2], in whichever order the two are listed: the 20 points
    between the bonus for the exact title (100) and the bonus for a
    title that contains it (80) are fewer than the 30 that popularity
    and rating can add, which the source adds as tiebreakers. *)
Theorem findBestMatch_selects_popular_near_title :
  clean_result_title my_show = clean_original_title "My Show"
  ∧ clean_result_title my_show_2 ≠ clean_original_title "My Show"
  ∧ includes (clean_result_title my_show_2) (clean_original_title "My Show") = true
  ∧ Candidate.release_date my_show = Candidate.release_date my_show_2
  ∧ Candidate.origin_country my_show = Candidate.origin_country my_show_2
  ∧ Candidate.media_type my_show = Candidate.media_type my_show_2
  ∧ (@similarity_score year_prefix_calendar "My Show" "PH" my_show == 135)%Q
  ∧ (@similarity_score year_prefix_calendar "My Show" "PH" my_show_2 == 145)%Q
  ∧ fst <$> @findBestMatch year_prefix_calendar [my_show; my_show_2] "My Show" "PH" "multi"
    = Some my_show_2
  ∧ fst <$> @findBestMatch year_prefix_calendar [my_show_2; my_show] "My Show" "PH" "multi"
    = Some my_show_2.
Proof.
  repeat split; try (by vm_compute).
Qed.

(** ** searchTMDB *)

Lemma findBestMatch_Some `{Calendar} (results : list Candidate.t)
    (originalTitle countryCode mediaType : string) :
  results ≠ [] → is_Some (findBestMatch results originalTitle countryCode mediaType).
Proof.
  intros Hne. unfold findBestMatch. rewrite decide_False; cbv zeta.
  2:{ intros Hlen. by apply nil_length_inv in Hlen. }
  assert (Hf : filter_results mediaType results ≠ []).
  { unfold filter_results. case_decide; [|done]. cbv zeta. case_decide as Hlen; [done|].
    intros Heq. by rewrite Heq in Hlen. }
  destruct (head_by_score
              ((λ result, (result, similarity_score originalTitle countryCode result))
                 <$> filter_results mediaType results)) as (best & -> & _).
  - by destruct (filter_results mediaType results).
  - by eexists.
Qed.

Lemma consistent_app `{Host} (e1 e2 : list Event) (w w' w'' : World) :
  consistent e1 w w' → consistent e2 w' w'' → consistent (e1 ++ e2) w w''.
Proof.
  revert w. induction e1 as [|[request outcome|ms] e1 IH]; intros w; simpl.
  - by intros ->.
  - intros [-> H1] H2. split; [done|]. by apply IH.
  - intros H1 H2. by apply IH.
Qed.

Lemma try_strategy_caught `{Host} (this : ScraperService)
    (title mediaType countryCode : string) (i : Z) (strategy : Strategy)
    (st : World * list Event) :
  let request := search_request this mediaType strategy in
  let outcome := (axios_get request st.1).1 in
  try_catch (try_strategy this title mediaType countryCode i strategy)
    (λ strategyError, mret None) st
  = (Ok (strategy_found title mediaType countryCode i outcome),
     ((axios_get request st.1).2, st.2 ++ [Searched request outcome])).
Proof.
  cbv zeta. unfold try_catch, try_strategy, mbind, M_bind, axios_search, strategy_found.
  destruct (axios_get (search_request this mediaType strategy) st.1) as [outcome w] eqn:Hget.
  simpl. destruct outcome as [message|[results|]]; [done| |done].
  case_decide; [|done].
  by destruct (findBestMatch results title countryCode mediaType).
Qed.

Lemma strategy_found_None `{Calendar} title mediaType countryCode i outcome :
  strategy_found title mediaType countryCode i outcome = None → unproductive outcome.
Proof.
  unfold strategy_found, unproductive.
  destruct outcome as [message|[results|]]; [done| |done].
  case_decide as Hlen.
  - destruct (findBestMatch_Some results title countryCode mediaType) as [best ->];
      [intros ->; simpl in Hlen; lia|done].
  - intros _. destruct results; [done|simpl in Hlen; lia].
Qed.

Lemma strategy_found_Some `{Calendar} title mediaType countryCode i outcome data :
  strategy_found title mediaType countryCode i outcome = Some data →
  ∃ results best, outcome = Responded (Some results) ∧ results ≠ []
    ∧ findBestMatch results title countryCode mediaType = Some best
    ∧ data = tmdb_data best mediaType i.
Proof.
  unfold strategy_found.
  destruct outcome as [message|[results|]]; [done| |done].
  case_decide as Hlen; [|done].
  destruct (findBestMatch results title countryCode mediaType) as [best|] eqn:Hbest; [|done].
  intros [= <-]. exists results, best. repeat split; [|done].
  intros ->. simpl in Hlen. lia.
Qed.

Lemma strategy_loop_cons `{Host} (this : ScraperService)
    (title mediaType countryCode : string) (i : Z) (strategy : Strategy)
    (later : list Strategy) (st : World * list Event) :
  let request := search_request this mediaType strategy in
  let outcome := (axios_get request st.1).1 in
  let w := (axios_get request st.1).2 in
  strategy_loop this title mediaType countryCode i (strategy :: later) st
  = match strategy_found title mediaType countryCode i outcome with
    | Some data => (Ok (Some data), (w, st.2 ++ [Searched request outcome]))
    | None =>
        strategy_loop this title mediaType countryCode (i + 1) later
          (setTimeout 100 w, st.2 ++ [Searched request outcome; Waited 100])
    end.
Proof.
  cbv zeta. cbn [strategy_loop]. unfold mbind at 1. unfold M_bind at 1.
  rewrite try_strategy_caught. cbv zeta.
  destruct (strategy_found _ _ _ _ _); [done|].
  unfold mbind, M_bind, wait. simpl. by rewrite <- app_assoc.
Qed.

(** The loop calls the strategies in order until one gives a candidate. *)
Lemma strategy_loop_spec `{Host} (this : ScraperService)
    (title mediaType countryCode : string) (strategies : list Strategy) (i : Z)
    (st : World * list Event) :
  let requests := search_request this mediaType <$> strategies in
  let run := strategy_loop this title mediaType countryCode i strategies st in
  ∃ failed : list (Request * Outcome),
    Forall (λ call, unproductive call.2) failed
    ∧ failed.*1 = take (length failed) requests
    ∧ ((run.1 = Ok None
        ∧ length failed = length strategies
        ∧ run.2.2 = st.2 ++ failed_events failed
        ∧ consistent (failed_events failed) st.1 run.2.1)
       ∨ ∃ request results best,
           requests !! length failed = Some request
           ∧ results ≠ []
           ∧ findBestMatch results title countryCode mediaType = Some best
           ∧ run.1 = Ok (Some (tmdb_data best mediaType (i + Z.of_nat (length failed))))
           ∧ run.2.2 = st.2 ++ failed_events failed
                         ++ [Searched request (Responded (Some results))]
           ∧ consistent (failed_events failed
                           ++ [Searched request (Responded (Some results))])
               st.1 run.2.1).
Proof.
  cbv zeta. revert i st.
  induction strategies as [|strategy later IH]; intros i st.
  - exists []. split; [constructor|]. split; [done|]. left.
    simpl. by rewrite app_nil_r.
  - rewrite strategy_loop_cons. cbv zeta.
    set (request := search_request this mediaType strategy).
    set (outcome := (axios_get request st.1).1).
    set (w := (axios_get request st.1).2).
    destruct (strategy_found title mediaType countryCode i outcome) as [data|] eqn:Hfound.
    + apply strategy_found_Some in Hfound as (results & best & Hout & Hne & Hbest & ->).
      exists []. split; [constructor|]. split; [done|]. right.
      exists request, results, best. simpl.
      rewrite Z.add_0_r, <- Hout. repeat split; done.
    + apply strategy_found_None in Hfound.
      destruct (IH (i + 1) (setTimeout 100 w, st.2 ++ [Searched request outcome; Waited 100]))
        as (failed & Hfailed & Hreqs & Hrun).
      exists ((request, outcome) :: failed).
      split; [by constructor|].
      split; [rewrite !fmap_cons; cbn [length take fst]; f_equal; exact Hreqs|].
      destruct Hrun as [(Hnone & Hlen & Hlog & Hcons)
                       |(request' & results & best & Hreq & Hne & Hbest & Hsome & Hlog & Hcons)].
      * left. split; [done|]. split; [simpl; by rewrite Hlen|].
        split; [rewrite Hlog; simpl; by rewrite <- app_assoc|].
        simpl. split; done.
      * right. exists request', results, best.
        split; [done|]. split; [done|]. split; [done|].
        split; [rewrite Hsome; do 3 f_equal; simpl length; lia|].
        split; [rewrite Hlog; simpl; by rewrite <- app_assoc|].
        simpl. split; done.
Qed.

Lemma try_catch_Ok `{Host} {A} (body : M A) (handler : string → M A)
    (st : World * list Event) (a : A) :
  (body st).1 = Ok a → try_catch body handler st = body st.
Proof.
  unfold try_catch. destruct (body st) as [[a'|message] st']; simpl; [done|congruence].
Qed.

Lemma strategy_loop_Ok `{Host} (this : ScraperService)
    (title mediaType countryCode : string) (strategies : list Strategy) (i : Z)
    (st : World * list Event) :
  ∃ result, (strategy_loop this title mediaType countryCode i strategies st).1 = Ok result.
Proof.
  destruct (strategy_loop_spec this title mediaType countryCode strategies i st)
    as (failed & _ & _ & [(Hnone & _)|(request & results & best & _ & _ & _ & Hsome & _)]);
    eauto.
Qed.

Lemma searchTMDB_with_key `{Host} (this : ScraperService)
    (title mediaType countryCode : string) (st : World * list Event) :
  truthy (tmdbApiKey this) = true →
  searchTMDB this title mediaType countryCode st
  = strategy_loop this title mediaType countryCode 0 (searchStrategies title countryCode) st.
Proof.
  intros Hkey. unfold searchTMDB. rewrite Hkey.
  destruct (strategy_loop_Ok this title mediaType countryCode
              (searchStrategies title countryCode) 0 st) as [result Hok].
  by eapply try_catch_Ok.
Qed.

Lemma searchTMDB_without_key `{Host} (this : ScraperService)
    (title mediaType countryCode : string) (st : World * list Event) :
  truthy (tmdbApiKey this) = false →
  searchTMDB this title mediaType countryCode st = (Ok None, st).
Proof. intros Hkey. unfold searchTMDB. by rewrite Hkey. Qed.

(** A call that throws and a call that returns no result are the same to
    the loop. *)
Lemma strategy_found_hush `{Calendar} title mediaType countryCode i outcome :
  strategy_found title mediaType countryCode i (hush outcome)
  = strategy_found title mediaType countryCode i outcome.
Proof. by destruct outcome. Qed.

Lemma strategy_loop_hushed (H : Host) (this : ScraperService)
    (title mediaType countryCode : string) (strategies : list Strategy) (i : Z)
    (w : @World H) (log log' : list Event) :
  ∃ events,
    (@strategy_loop H this title mediaType countryCode i strategies (w, log)).2.2
      = log ++ events
    ∧ @strategy_loop (hushed H) this title mediaType countryCode i strategies (w, log')
      = ((@strategy_loop H this title mediaType countryCode i strategies (w, log)).1,
         ((@strategy_loop H this title mediaType countryCode i strategies (w, log)).2.1,
          log' ++ (hush_event <$> events))).
Proof.
  revert i w log log'. induction strategies as [|strategy later IH]; intros i w log log'.
  - exists []. simpl. by rewrite !app_nil_r.
  - rewrite (@strategy_loop_cons H), (@strategy_loop_cons (hushed H)). cbv zeta.
    cbn [fst snd axios_get setTimeout hushed].
    change (@Host_calendar (hushed H)) with (@Host_calendar H).
    rewrite strategy_found_hush.
    set (request := search_request this mediaType strategy).
    destruct (@axios_get H request w) as [outcome w1] eqn:Hget. cbn [fst snd].
    destruct (strategy_found title mediaType countryCode i outcome) as [data|].
    + exists [Searched request outcome]. done.
    + destruct (IH (i + 1) (@setTimeout H 100 w1)
                  (log ++ [Searched request outcome; Waited 100])
                  (log' ++ [Searched request (hush outcome); Waited 100]))
        as (events & Hlog & Hrun).
      exists ([Searched request outcome; Waited 100] ++ events).
      split; [by rewrite Hlog, <- app_assoc|].
      etrans; [exact Hrun|]. by rewrite fmap_app, <- app_assoc.
Qed.

Lemma failed_events_searched (failed : list (Request * Outcome)) request outcome :
  Searched request outcome ∈ failed_events failed → (request, outcome) ∈ failed.
Proof.
  induction failed as [|[r o] failed IH]; simpl.
  - by intros ?%elem_of_nil.
  - intros Hin. apply elem_of_cons in Hin as [[= -> ->]|Hin]; [left|].
    apply elem_of_cons in Hin as [?|Hin]; [done|]. right. by apply IH.
Qed.

(** ** enrichWithTMDB *)

Lemma searchTMDB_Ok `{Host} (this : ScraperService) (title mediaType countryCode : string)
    (st : World * list Event) :
  ∃ result, (searchTMDB this title mediaType countryCode st).1 = Ok result.
Proof.
  destruct (truthy (tmdbApiKey this)) eqn:Hkey.
  - rewrite searchTMDB_with_key by done. apply strategy_loop_Ok.
  - rewrite searchTMDB_without_key by done. by exists None.
Qed.

Lemma with_tmdb_rank item found : Item.rank (with_tmdb item found) = Item.rank item.
Proof. by destruct found. Qed.

Lemma with_tmdb_title item found : Item.title (with_tmdb item found) = Item.title item.
Proof. by destruct found. Qed.

Lemma with_tmdb_category item found :
  Item.category (with_tmdb item found) = Item.category item.
Proof. by destruct found. Qed.

(** One entry: the match of the search by category, or else the match of
    the retry with [multi], is attached; with no match the entry is
    returned as it came. *)
Lemma enrich_item_spec `{Host} (this : ScraperService) (countryCode : string)
    (item : Item.t) (st : World * list Event) :
  let mediaType := if decide (Item.category item = "Movie") then "movie" else "tv" in
  let first := searchTMDB this (Item.title item) mediaType countryCode st in
  let retry := searchTMDB this (Item.title item) "multi" countryCode first.2 in
  ∃ found : option TmdbData,
    enrich_item this countryCode item st
    = (Ok (with_tmdb item found), match first.1 with Ok None => retry.2 | _ => first.2 end)
    ∧ (first.1 = Ok None → retry.1 = Ok found)
    ∧ (first.1 ≠ Ok None → first.1 = Ok found).
Proof.
  cbv zeta. unfold enrich_item. cbv zeta. unfold mbind at 1, M_bind at 1.
  set (mediaType := if decide (Item.category item = "Movie") then "movie" else "tv").
  destruct (searchTMDB_Ok this (Item.title item) mediaType countryCode st) as [found1 H1].
  destruct (searchTMDB this (Item.title item) mediaType countryCode st) as [r1 st1] eqn:Hrun1.
  simpl in H1. subst r1. cbn [fst snd].
  destruct found1 as [data|].
  - exists (Some data). split; [done|]. split; done.
  - destruct (searchTMDB_Ok this (Item.title item) "multi" countryCode st1) as [found2 H2].
    exists found2.
    unfold mbind, M_bind.
    destruct (searchTMDB this (Item.title item) "multi" countryCode st1) as [r2 st2].
    simpl in H2. subst r2. simpl. split; [done|]. split; done.
Qed.

Lemma enrich_loop_spec `{Host} (this : ScraperService) (countryCode : string)
    (items enrichedItems : list Item.t) (st : World * list Event) :
  ∃ (matches : list (option TmdbData)) (st' : World * list Event),
    length matches = length items
    ∧ enrich_loop this countryCode items enrichedItems st
      = (Ok (enrichedItems ++ zip_with with_tmdb items matches), st').
Proof.
  revert enrichedItems st. induction items as [|item later IH]; intros enrichedItems st.
  - exists [], st. simpl. by rewrite app_nil_r.
  - cbn [enrich_loop]. unfold mbind at 1, M_bind at 1.
    destruct (enrich_item_spec this countryCode item st) as (found & -> & _).
    cbv zeta. unfold mbind at 1, M_bind at 1, wait at 1. cbn [fst snd].
    match goal with |- context [enrich_loop _ _ _ _ ?s] =>
      destruct (IH (enrichedItems ++ [with_tmdb item found]) s) as (matches & st' & Hlen & ->)
    end.
    exists (found :: matches), st'. split; [simpl; by rewrite Hlen|].
    simpl. by rewrite <- app_assoc.
Qed.



(** ** The regular expressions of cleanTitleForSearch *)

Lemma drop_while_length (p : ascii → bool) (s : list ascii) :
  (length (drop_while p s) ≤ length s)%nat.
Proof. induction s as [|c s IH]; simpl; [lia|]. case_match; simpl; lia. Qed.

Lemma trim_start_length (s : list ascii) : (length (trim_start s) ≤ length s)%nat.
Proof. apply drop_while_length. Qed.

Lemma drop_while_head (p : ascii → bool) (s : list ascii) (c : ascii) (rest : list ascii) :
  drop_while p s = c :: rest → p c = false.
Proof.
  induction s as [|x s IH]; simpl; [done|].
  destruct (p x) eqn:Hp; [done|]. by intros [= <- _].
Qed.

Lemma rmatch_class_matcher (ci : bool) (p : ascii → bool) :
  class_matcher p (rmatch ci (Class p)).
Proof. by intros cur k. Qed.

(** A greedy star over a character class takes the whole run when what
    follows cannot start inside the run... *)
Lemma star_greedy_blocked (p : ascii → bool)
    (m : cursor → (cursor → option cursor) → option cursor)
    (k : cursor → option cursor) (n pos : nat) (s : list ascii) :
  class_matcher p m →
  (length s ≤ n)%nat →
  (∀ pos' c rest, p c = true → k (pos', c :: rest) = None) →
  iterate m true k n (pos, s)
  = k ((pos + (length s - length (drop_while p s)))%nat, drop_while p s).
Proof.
  intros Hm Hn Hblocked. revert n pos Hn.
  induction s as [|c s IH]; intros n pos Hn.
  - destruct n; cbn [iterate]; rewrite ?Hm; simpl; by rewrite Nat.add_0_r.
  - destruct n as [|n]; [simpl in Hn; lia|]. simpl in Hn.
    cbn [iterate]. rewrite Hm. cbn [snd fst]. destruct (p c) eqn:Hp.
    + rewrite decide_True by (simpl; lia).
      rewrite IH by lia. rewrite (Hblocked pos c s Hp).
      cbn [drop_while]. rewrite Hp.
      pose proof (drop_while_length p s).
      replace (pos + (length (c :: s) - length (drop_while p s)))%nat
        with (S pos + (length s - length (drop_while p s)))%nat by (simpl; lia).
      by destruct (k _).
    + cbn [drop_while]. rewrite Hp. simpl. do 2 f_equal. lia.
Qed.

(** ... and also when what follows succeeds behind the whole run. *)
Lemma star_greedy_accepted (p : ascii → bool)
    (m : cursor → (cursor → option cursor) → option cursor)
    (k : cursor → option cursor) (n pos : nat) (s : list ascii) (v : cursor) :
  class_matcher p m →
  (length s ≤ n)%nat →
  k ((pos + (length s - length (drop_while p s)))%nat, drop_while p s) = Some v →
  iterate m true k n (pos, s) = Some v.
Proof.
  intros Hm. revert n pos. induction s as [|c s IH]; intros n pos Hn Hk.
  - simpl in Hk. rewrite Nat.add_0_r in Hk.
    destruct n; cbn [iterate]; rewrite ?Hm; simpl; by rewrite Hk.
  - destruct n as [|n]; [simpl in Hn; lia|]. simpl in Hn.
    cbn [iterate]. rewrite Hm. cbn [snd fst]. cbn [drop_while] in Hk.
    destruct (p c) eqn:Hp.
    + rewrite decide_True by (simpl; lia).
      rewrite (IH n (S pos)); [done|lia|].
      pose proof (drop_while_length p s).
      replace (S pos + (length s - length (drop_while p s)))%nat
        with (pos + (length (c :: s) - length (drop_while p s)))%nat by (simpl; lia).
      done.
    + simpl. simpl in Hk. rewrite Nat.sub_diag, Nat.add_0_r in Hk. by rewrite Hk.
Qed.

Lemma rmatch_star (ci greedy : bool) (r : regex) (cur : cursor) (k : cursor → option cursor) :
  rmatch ci (Star greedy r) cur k = iterate (rmatch ci r) greedy k (length cur.2) cur.
Proof. reflexivity. Qed.

Lemma rmatch_seq (ci : bool) (r1 r2 : regex) (cur : cursor) (k : cursor → option cursor) :
  rmatch ci (Seq r1 r2) cur k = rmatch ci r1 cur (λ cur', rmatch ci r2 cur' k).
Proof. reflexivity. Qed.

Lemma rmatch_class (ci : bool) (p : ascii → bool) (pos : nat) (s : list ascii)
    (k : cursor → option cursor) :
  rmatch ci (Class p) (pos, s) k
  = match s with
    | x :: rest => if p x then k (S pos, rest) else None
    | [] => None
    end.
Proof. reflexivity. Qed.

Lemma rmatch_lit (c : ascii) (pos : nat) (s : list ascii) (k : cursor → option cursor) :
  rmatch false (Lit c) (pos, s) k
  = match s with
    | x :: rest => if decide (x = c) then k (S pos, rest) else None
    | [] => None
    end.
Proof. reflexivity. Qed.

(** [\s*] at the end of a pattern. *)
Lemma spaces_at_end (ci : bool) (pos : nat) (s : list ascii) :
  rmatch ci spaces (pos, s) (λ cur, rmatch ci Empty cur Some)
  = Some ((pos + (length s - length (trim_start s)))%nat, trim_start s).
Proof.
  unfold spaces. rewrite rmatch_star.
  by apply (star_greedy_accepted is_space); [apply rmatch_class_matcher|..].
Qed.

(** A literal word. *)
Lemma rmatch_word_ci (w : list ascii) (k : cursor → option cursor) (pos : nat)
    (s : list ascii) :
  rmatch true (cat (Lit <$> w)) (pos, s) k
  = match strip_word w s with
    | Some rest => k ((pos + length w)%nat, rest)
    | None => None
    end.
Proof.
  revert pos s. induction w as [|x w IH]; intros pos s.
  - simpl. by rewrite Nat.add_0_r.
  - destruct s as [|y s]; [done|].
    rewrite fmap_cons. cbn [cat foldr rmatch snd fst strip_word].
    case_decide; [|done]. fold (cat (Lit <$> w)). rewrite IH.
    replace (S pos + length w)%nat with (pos + length (x :: w))%nat by (simpl; lia).
    done.
Qed.

Lemma strip_word_length (w s rest : list ascii) :
  strip_word w s = Some rest → (length rest + length w = length s)%nat.
Proof.
  revert s. induction w as [|x w IH]; intros s; simpl.
  - intros [= ->]. lia.
  - destruct s as [|y s]; [done|]. case_decide; [|done].
    intros Hrest. apply IH in Hrest. simpl. lia.
Qed.

Lemma after_close_length (close : ascii) (s rest : list ascii) :
  after_close close s = Some rest → (length rest < length s)%nat.
Proof.
  induction s as [|c s IH]; simpl; [done|].
  case_decide; [intros [= ->]; lia|]. case_match; [done|].
  intros Hrest. apply IH in Hrest. lia.
Qed.

(** [.*?] up to the closing character and the spaces behind it. *)
Lemma lazy_until_close (close : ascii)
    (m : cursor → (cursor → option cursor) → option cursor) (n pos : nat)
    (s : list ascii) :
  class_matcher is_dot m →
  (length s ≤ n)%nat →
  iterate m false (λ cur, rmatch false (Seq (Lit close) (Seq spaces Empty)) cur Some)
    n (pos, s)
  = (λ rest, ((pos + (length s - length (trim_start rest)))%nat, trim_start rest))
      <$> after_close close s.
Proof.
  intros Hm. revert n pos. induction s as [|c s IH]; intros n pos Hn.
  - destruct n; cbn [iterate]; rewrite ?Hm; done.
  - destruct n as [|n]; [simpl in Hn; lia|]. simpl in Hn.
    cbn [iterate]. rewrite rmatch_seq, rmatch_lit. cbn [after_close].
    destruct (decide (c = close)) as [->|Hne].
    + rewrite rmatch_seq, spaces_at_end. cbn [or_try fmap option_fmap option_map].
      pose proof (trim_start_length s). do 2 f_equal. simpl. lia.
    + cbn [or_try]. rewrite Hm. cbn [snd fst]. unfold is_dot.
      destruct (is_line_terminator c); [done|]. cbn [negb].
      rewrite decide_True by (simpl; lia). rewrite IH by lia.
      destruct (after_close close s) as [rest|] eqn:Hrest; [|done].
      apply after_close_length in Hrest. pose proof (trim_start_length rest).
      cbn [fmap option_fmap option_map]. do 2 f_equal. simpl. lia.
Qed.

Lemma exec_enclosed (open close : ascii) (pos : nat) (s : list ascii) :
  is_space open = false →
  exec false (re_enclosed open close) (pos, s) = behind pos s <$> group_at open close s.
Proof.
  intros Hopen. unfold exec, re_enclosed, cat. cbn [foldr].
  rewrite rmatch_seq. unfold spaces at 1. rewrite rmatch_star.
  rewrite (star_greedy_blocked is_space); [|apply rmatch_class_matcher|done|].
  2:{ intros pos' c rest Hc. rewrite rmatch_seq, rmatch_lit.
      rewrite decide_False; [done|]. intros ->. congruence. }
  unfold group_at. fold (trim_start s). pose proof (trim_start_length s) as Hts.
  destruct (trim_start s) as [|c rest]; [done|].
  rewrite rmatch_seq, rmatch_lit. case_decide; [|done].
  rewrite rmatch_seq. unfold anything_lazy. rewrite rmatch_star. cbn [snd].
  rewrite (lazy_until_close close); [|apply rmatch_class_matcher|done].
  destruct (after_close close rest) as [rest'|] eqn:Hrest; [|done].
  apply after_close_length in Hrest. pose proof (trim_start_length rest').
  cbn [fmap option_fmap option_map]. unfold behind. do 2 f_equal. simpl in *. lia.
Qed.

Lemma group_at_shorter (open close : ascii) (s rest : list ascii) :
  group_at open close s = Some rest → (length rest < length s)%nat.
Proof.
  unfold group_at. pose proof (trim_start_length s) as Hts.
  destruct (trim_start s) as [|c r]; [done|]. case_decide; [|done].
  destruct (after_close close r) as [rest'|] eqn:Hrest; [|done].
  apply after_close_length in Hrest. pose proof (trim_start_length rest').
  intros [= <-]. simpl in *. lia.
Qed.

Lemma is_space_not_digit (c : ascii) : is_space c = true → is_digit c = false.
Proof.
  unfold is_space, is_digit, in_range. intros Hs.
  destruct (48 <=? code c)%nat eqn:H1; [|done].
  destruct (code c <=? 57)%nat eqn:H2; [|done].
  apply Nat.leb_le in H1, H2.
  rewrite !orb_true_iff, andb_true_iff, !Nat.leb_le, !Nat.eqb_eq in Hs. exfalso. lia.
Qed.

Lemma exec_numbered (w : string) (pos : nat) (s : list ascii) :
  exec true (re_numbered w) (pos, s) = behind pos s <$> numbered_at w s.
Proof.
  unfold exec, re_numbered, cat. cbn [foldr]. rewrite rmatch_seq.
  unfold word at 1. rewrite rmatch_word_ci. unfold numbered_at.
  destruct (strip_word (chars w) s) as [rest1|] eqn:Hword; [|done].
  apply strip_word_length in Hword.
  rewrite rmatch_seq. unfold some_spaces at 1, Plus. rewrite rmatch_seq, rmatch_class.
  destruct rest1 as [|c r]; [done|]. destruct (is_space c); [|done].
  rewrite rmatch_star. cbn [snd].
  rewrite (star_greedy_blocked is_space); [|apply rmatch_class_matcher|done|].
  2:{ intros pos' x rest Hx. rewrite rmatch_seq. unfold digits, Plus.
      rewrite rmatch_seq, rmatch_class. by rewrite (is_space_not_digit x Hx). }
  fold (trim_start r). pose proof (trim_start_length r) as Hts.
  rewrite rmatch_seq. unfold digits, Plus. rewrite rmatch_seq, rmatch_class.
  destruct (trim_start r) as [|d after]; [done|]. destruct (is_digit d); [|done].
  rewrite rmatch_star. cbn [snd].
  erewrite (star_greedy_accepted is_digit); [|apply rmatch_class_matcher|done|reflexivity].
  pose proof (drop_while_length is_digit after).
  cbn [fmap option_fmap option_map]. unfold behind. do 2 f_equal. simpl in *. lia.
Qed.

Lemma numbered_at_shorter (w : string) (s rest : list ascii) :
  numbered_at w s = Some rest → (length rest < length s)%nat.
Proof.
  unfold numbered_at.
  destruct (strip_word (chars w) s) as [[|c r]|] eqn:Hword; try done.
  apply strip_word_length in Hword. destruct (is_space c); [|done].
  pose proof (trim_start_length r) as Hts.
  destruct (trim_start r) as [|d after]; [done|]. destruct (is_digit d); [|done].
  pose proof (drop_while_length is_digit after).
  intros [= <-]. simpl in *. lia.
Qed.

Lemma exec_some_spaces (pos : nat) (s : list ascii) :
  exec false some_spaces (pos, s) = behind pos s <$> spaces_at s.
Proof.
  unfold exec, some_spaces, Plus. rewrite rmatch_seq, rmatch_class. unfold spaces_at.
  destruct s as [|c r]; [done|]. destruct (is_space c); [|done].
  rewrite rmatch_star. cbn [snd].
  erewrite (star_greedy_accepted is_space); [|apply rmatch_class_matcher|done|reflexivity].
  fold (trim_start r). pose proof (trim_start_length r).
  cbn [fmap option_fmap option_map]. unfold behind. do 2 f_equal. simpl in *. lia.
Qed.

Lemma spaces_at_shorter (s rest : list ascii) :
  spaces_at s = Some rest → (length rest < length s)%nat.
Proof.
  unfold spaces_at. destruct s as [|c r]; [done|]. destruct (is_space c); [|done].
  pose proof (trim_start_length r). intros [= <-]. simpl. lia.
Qed.

(** The scan of [replace] with the [g] flag, for a pattern whose matches
    are told by [found] and are never empty. *)
Lemma replace_all_matches (ci : bool) (r : regex)
    (found : list ascii → option (list ascii)) (repl s : list ascii) :
  (∀ pos s, exec ci r (pos, s) = behind pos s <$> found s) →
  (∀ s rest, found s = Some rest → (length rest < length s)%nat) →
  replace_all ci r repl s = replace_each found repl s.
Proof.
  intros Hexec Hshorter. unfold replace_all, replace_each.
  generalize (S (length s)) as fuel. generalize 0%nat as pos. revert s.
  intros s pos fuel. revert s pos.
  induction fuel as [|fuel IH]; intros s pos; [done|].
  cbn [replace_all_from replace_matches snd fst]. rewrite Hexec.
  destruct (found s) as [rest|] eqn:Hfound.
  - apply Hshorter in Hfound. cbn [fmap option_fmap option_map]. unfold behind at 1.
    cbn [fst]. destruct (decide _) as [Heq|_]; [lia|]. unfold behind. by rewrite IH.
  - cbn [fmap option_fmap option_map]. destruct s as [|c s]; [done|]. by rewrite IH.
Qed.

(** The leading number: the pattern can only match at the start. *)
Lemma replace_first_leading_number_later (pos : nat) (s : list ascii) :
  pos ≠ 0%nat → replace_first_from false re_leading_number [] pos s = s.
Proof.
  revert pos. induction s as [|c s IH]; intros pos Hpos.
  - cbn [replace_first_from]. unfold exec, re_leading_number, cat. cbn [foldr rmatch fst].
    by rewrite decide_False.
  - cbn [replace_first_from]. unfold exec, re_leading_number, cat. cbn [foldr].
    rewrite rmatch_seq. cbn [rmatch fst]. rewrite decide_False by done.
    f_equal. by apply IH.
Qed.

Lemma replace_first_leading_number (s : list ascii) :
  replace_first false re_leading_number [] s = strip_leading_number s.
Proof.
  unfold replace_first, strip_leading_number.
  assert (Hexec : exec false re_leading_number (0%nat, s)
                  = match s with
                    | d :: rest =>
                        if is_digit d then
                          match drop_while is_digit rest with
                          | c :: after =>
                              if decide (c = "."%char)
                              then Some (behind 0 s (trim_start after)) else None
                          | [] => None
                          end
                        else None
                    | [] => None
                    end).
  { unfold exec, re_leading_number, cat. cbn [foldr]. rewrite rmatch_seq.
    cbn [rmatch fst]. rewrite decide_True by done. fold rmatch.
    change (rmatch false (Seq digits (Seq (Lit ".") (Seq spaces Empty))) (0%nat, s) Some
            = match s with
              | d :: rest =>
                  if is_digit d then
                    match drop_while is_digit rest with
                    | c :: after =>
                        if decide (c = "."%char)
                        then Some (behind 0 s (trim_start after)) else None
                    | [] => None
                    end
                  else None
              | [] => None
              end).
    rewrite rmatch_seq. unfold digits, Plus. rewrite rmatch_seq, rmatch_class.
    destruct s as [|d rest]; [done|]. destruct (is_digit d); [|done].
    rewrite rmatch_star. cbn [snd].
    rewrite (star_greedy_blocked is_digit); [|apply rmatch_class_matcher|done|].
    2:{ intros pos' x r Hx. rewrite rmatch_seq, rmatch_lit.
        rewrite decide_False; [done|]. intros ->. by vm_compute in Hx. }
    pose proof (drop_while_length is_digit rest) as Hdw.
    destruct (drop_while is_digit rest) as [|c after]; [done|].
    rewrite rmatch_seq, rmatch_lit. case_decide; [|done].
    rewrite rmatch_seq, spaces_at_end. pose proof (trim_start_length after).
    unfold behind. do 2 f_equal. simpl in *. lia. }
  destruct s as [|d rest].
  - cbn [replace_first_from]. by rewrite Hexec.
  - cbn [replace_first_from]. rewrite Hexec.
    assert (Hlater : d :: replace_first_from false re_leading_number [] 1 rest = d :: rest).
    { f_equal. by apply replace_first_leading_number_later. }
    destruct (is_digit d); [|done].
    destruct (drop_while is_digit rest) as [|c after]; [done|].
    by case_decide.
Qed.

(** The regular expressions of [cleanTitleForSearch] match as the scans
    of [normalise_title] say. *)
Lemma cleanTitleForSearch_scan (title : string) :
  cleanTitleForSearch title = normalise_title title.
Proof.
  unfold cleanTitleForSearch, normalise_title. cbv zeta.
  rewrite replace_first_leading_number.
  rewrite (replace_all_matches false (re_enclosed "(" ")") (group_at "(" ")"))
    by (intros; first [by apply exec_enclosed | by eapply group_at_shorter]).
  rewrite (replace_all_matches false (re_enclosed "[" "]") (group_at "[" "]"))
    by (intros; first [by apply exec_enclosed | by eapply group_at_shorter]).
  rewrite (replace_all_matches true (re_numbered "season") (numbered_at "season"))
    by (intros; first [by apply exec_numbered | by eapply numbered_at_shorter]).
  rewrite (replace_all_matches true (re_numbered "series") (numbered_at "series"))
    by (intros; first [by apply exec_numbered | by eapply numbered_at_shorter]).
  rewrite (replace_all_matches false some_spaces spaces_at)
    by (intros; first [by apply exec_some_spaces | by eapply spaces_at_shorter]).
  done.
Qed.

(** [strip_punctuation] keeps the word characters and the whitespace,
    in their order. *)
Lemma strip_punctuation_filter (s : string) :
  chars (strip_punctuation s) = List.filter (λ c, is_word c || is_space c) (chars s).
Proof.
  unfold strip_punctuation. rewrite chars_str.
  rewrite (replace_all_matches false _
             (λ s, match s with
                   | c :: rest => if negb (is_word c || is_space c) then Some rest else None
                   | [] => None
                   end)).
  - unfold replace_each. generalize (chars s) as l. intros l.
    assert (H : ∀ fuel, (length l < fuel)%nat →
              replace_matches fuel
                (λ s, match s with
                      | c :: rest =>
                          if negb (is_word c || is_space c) then Some rest else None
                      | [] => None
                      end) [] l
              = List.filter (λ c, is_word c || is_space c) l).
    { intros fuel. revert l. induction fuel as [|fuel IH]; intros l Hlen; [lia|].
      destruct l as [|c l]; [done|]. simpl in Hlen. cbn [replace_matches List.filter].
      destruct (is_word c || is_space c); cbn [negb app]; rewrite IH by lia; done. }
    apply H. lia.
  - intros pos l. unfold exec. rewrite rmatch_class. destruct l as [|c rest]; [done|].
    destruct (negb (is_word c || is_space c)); [|done].
    cbn [fmap option_fmap option_map]. unfold behind. do 2 f_equal. simpl. lia.
  - intros l rest. destruct l as [|c l]; [done|].
    destruct (negb (is_word c || is_space c)); [|done]. intros [= <-]. simpl. lia.
Qed.

(** ** The normalised title is tidy *)

Lemma drop_while_suffix (p : ascii → bool) (s : list ascii) :
  ∃ dropped, s = dropped ++ drop_while p s.
Proof.
  induction s as [|c s [dropped IH]]; [by exists []|]. simpl.
  destruct (p c); [|by exists []]. exists (c :: dropped). simpl. by rewrite <- IH.
Qed.

Lemma drop_while_head_default (p : ascii → bool) (s : list ascii) (d : ascii) :
  p d = false → p (default d (head (drop_while p s))) = false.
Proof.
  intros Hd. destruct (drop_while p s) as [|c rest] eqn:Hs; [done|].
  simpl. by eapply drop_while_head.
Qed.

Lemma single_spaced_app_r (l k : list ascii) : single_spaced (l ++ k) → single_spaced k.
Proof. induction l as [|c l IH]; simpl; [done|]. intros [_ H]. by apply IH. Qed.

Lemma single_spaced_app_l (l k : list ascii) : single_spaced (l ++ k) → single_spaced l.
Proof.
  induction l as [|c l IH]; simpl; [done|]. intros [Hc H]. split; [|by apply IH].
  intros Hs. destruct (Hc Hs) as [-> Hnext]. split; [done|].
  destruct l; [done|]. done.
Qed.

Lemma collapse_head (fuel : nat) (c : ascii) (s : list ascii) :
  is_space c = false →
  head (replace_matches (S fuel) spaces_at [" "%char] (c :: s)) = Some c.
Proof. intros Hc. cbn [replace_matches spaces_at]. by rewrite Hc. Qed.

Lemma collapse_single_spaced (fuel : nat) (s : list ascii) :
  (length s < fuel)%nat → single_spaced (replace_matches fuel spaces_at [" "%char] s).
Proof.
  revert s. induction fuel as [|fuel IH]; intros s Hlen; [lia|].
  destruct s as [|c s]; [done|]. simpl in Hlen.
  cbn [replace_matches spaces_at]. destruct (is_space c) eqn:Hc.
  - pose proof (trim_start_length s) as Hts. cbn [app single_spaced]. split.
    + intros _. split; [done|].
      destruct (trim_start s) as [|d rest] eqn:Hrest.
      * by destruct fuel.
      * apply drop_while_head in Hrest. destruct fuel; [simpl in *; lia|].
        by rewrite collapse_head.
    + apply IH. lia.
  - cbn [single_spaced]. split; [congruence|]. apply IH. lia.
Qed.

Lemma trim_chars_tidy (s : list ascii) : single_spaced s → tidy (trim_chars s).
Proof.
  intros Hs. unfold trim_chars, trim_start.
  destruct (drop_while_suffix is_space s) as [dropped Hdropped].
  set (t := drop_while is_space s) in *.
  destruct (drop_while_suffix is_space (reverse t)) as [trailing Htrailing].
  set (u := drop_while is_space (reverse t)) in *.
  assert (Ht : t = reverse u ++ reverse trailing).
  { by rewrite <- reverse_app, <- Htrailing, reverse_involutive. }
  assert (Hst : single_spaced t) by (rewrite Hdropped in Hs; by eapply single_spaced_app_r).
  split; [|split].
  - rewrite Ht in Hst. by eapply single_spaced_app_l.
  - destruct (reverse u) as [|c rest] eqn:Hu; [done|].
    simpl.
    assert (Hhead : drop_while is_space s = c :: rest ++ reverse trailing) by exact Ht.
    by apply drop_while_head in Hhead.
  - rewrite last_reverse. by apply drop_while_head_default.
Qed.

Lemma normalise_title_tidy (title : string) : tidy (chars (normalise_title title)).
Proof.
  unfold normalise_title. cbv zeta. rewrite chars_str.
  apply trim_chars_tidy. unfold replace_each. apply collapse_single_spaced. lia.
Qed.

(** ** No group is left in a title of one line *)

Lemma drop_while_suffix_of (p : ascii → bool) (s : list ascii) :
  drop_while p s `suffix_of` s.
Proof. destruct (drop_while_suffix p s) as [dropped H]. by exists dropped. Qed.



Lemma strip_word_suffix (w s rest : list ascii) :
  strip_word w s = Some rest → rest `suffix_of` s.
Proof.
  revert s. induction w as [|x w IH]; intros s; simpl.
  - by intros [= ->].
  - destruct s as [|y s]; [done|]. case_decide; [|done].
    intros Hrest. by apply suffix_cons_r, IH.
Qed.


Lemma suffix_sublist (l k : list ascii) : l `suffix_of` k → l `sublist_of` k.
Proof. intros [dropped ->]. by apply sublist_inserts_l. Qed.

(** Removing matches leaves a subsequence of the title. *)
Lemma remove_matches_sublist (found : list ascii → option (list ascii)) (fuel : nat)
    (s : list ascii) :
  (∀ s rest, found s = Some rest → rest `suffix_of` s) →
  replace_matches fuel found [] s `sublist_of` s.
Proof.
  intros Hsuffix. revert s. induction fuel as [|fuel IH]; intros s; [done|].
  cbn [replace_matches]. destruct (found s) as [rest|] eqn:Hfound.
  - simpl. etrans; [apply IH|]. by apply suffix_sublist, Hsuffix.
  - destruct s as [|c s]; [done|]. by constructor.
Qed.








(** ** Titles of one line *)








(** ** Edit scripts compose *)

Section EditScripts.
Context {A : Type} `{EqDecision A}.
Implicit Types s t u : list A.

Lemma edits_refl s : edits s s 0.
Proof. induction s; eauto with edits. Qed.

Lemma edits_lengths s t n :
  edits s t n → (length s ≤ length t + n ∧ length t ≤ length s + n)%nat.
Proof. induction 1; simpl; lia. Qed.

Lemma edits_zero s t : edits s t 0 → s = t.
Proof.
  intros H. remember 0%nat as n eqn:Hn. induction H; try done.
  f_equal. by apply IHedits.
Qed.

(** A script per character at most: replace along the shorter string,
    then insert or delete what is left of the longer one. *)
Lemma edits_max s t : ∃ n, (n ≤ length s `max` length t)%nat ∧ edits s t n.
Proof.
  revert t. induction s as [|a s IH]; intros t.
  - induction t as [|b t [n [Hn Ht]]].
    + exists 0%nat. eauto with edits.
    + exists (S n). simpl in *. split; [lia|eauto with edits].
  - destruct t as [|b t].
    + destruct (IH []) as (n & Hn & Hs). exists (S n). simpl in *.
      split; [lia|eauto with edits].
    + destruct (IH t) as (n & Hn & Hs). exists (S n). simpl.
      split; [lia|eauto with edits].
Qed.

(** Scripts compose. *)
Lemma edits_trans s t u n m :
  edits s t n → edits t u m → ∃ k, (k ≤ n + m)%nat ∧ edits s u k.
Proof.
  intros H1. revert u m. induction H1 as [|a s t n H1 IH|a b s t n H1 IH|a s t n H1 IH|b s t n H1 IH];
    intros u m H2.
  - eauto.
  - remember (a :: t) as t' eqn:Ht'. induction H2 as [|c t2 u m H2 _|c d t2 u m H2 _|c t2 u m H2 _|d t2 u m H2 IH2];
      try discriminate.
    + injection Ht' as -> ->. destruct (IH _ _ H2) as (k & Hk & Hs).
      exists k. split; [lia|eauto with edits].
    + injection Ht' as -> ->. destruct (IH _ _ H2) as (k & Hk & Hs).
      exists (S k). split; [lia|eauto with edits].
    + injection Ht' as -> ->. destruct (IH _ _ H2) as (k & Hk & Hs).
      exists (S k). split; [lia|eauto with edits].
    + destruct (IH2 Ht') as (k & Hk & Hs).
      exists (S k). split; [lia|eauto with edits].
  - remember (b :: t) as t' eqn:Ht'. induction H2 as [|c t2 u m H2 _|c d t2 u m H2 _|c t2 u m H2 _|d t2 u m H2 IH2];
      try discriminate.
    + injection Ht' as -> ->. destruct (IH _ _ H2) as (k & Hk & Hs).
      exists (S k). split; [lia|eauto with edits].
    + injection Ht' as -> ->. destruct (IH _ _ H2) as (k & Hk & Hs).
      exists (S k). split; [lia|eauto with edits].
    + injection Ht' as -> ->. destruct (IH _ _ H2) as (k & Hk & Hs).
      exists (S k). split; [lia|eauto with edits].
    + destruct (IH2 Ht') as (k & Hk & Hs).
      exists (S k). split; [lia|eauto with edits].
  - destruct (IH _ _ H2) as (k & Hk & Hs).
    exists (S k). split; [lia|eauto with edits].
  - remember (b :: t) as t' eqn:Ht'. induction H2 as [|c t2 u m H2 _|c d t2 u m H2 _|c t2 u m H2 _|d t2 u m H2 IH2];
      try discriminate.
    + injection Ht' as -> ->. destruct (IH _ _ H2) as (k & Hk & Hs).
      exists (S k). split; [lia|eauto with edits].
    + injection Ht' as -> ->. destruct (IH _ _ H2) as (k & Hk & Hs).
      exists (S k). split; [lia|eauto with edits].
    + injection Ht' as -> ->. destruct (IH _ _ H2) as (k & Hk & Hs).
      exists k. split; [lia|eauto with edits].
    + destruct (IH2 Ht') as (k & Hk & Hs).
      exists (S k). split; [lia|eauto with edits].
Qed.

End EditScripts.

(** ** levenshteinDistance is a metric *)

Lemma lev_triangle {A} `{EqDecision A} (s t u : list A) :
  (lev s u ≤ lev s t + lev t u)%nat.
Proof.
  destruct (edits_trans s t u _ _ (lev_edits s t) (lev_edits t u)) as (k & Hk & Hs).
  apply lev_least in Hs. lia.
Qed.

Lemma lev_zero {A} `{EqDecision A} (s t : list A) : lev s t = 0%nat ↔ s = t.
Proof.
  split.
  - intros H0. apply edits_zero. rewrite <- H0. apply lev_edits.
  - intros ->. apply lev_diag.
Qed.

Lemma lev_bounds {A} `{EqDecision A} (s t : list A) :
  (length s ≤ length t + lev s t ∧ length t ≤ length s + lev s t
   ∧ lev s t ≤ length s `max` length t)%nat.
Proof.
  pose proof (edits_lengths s t _ (lev_edits s t)) as [H1 H2].
  destruct (edits_max s t) as (n & Hn & Hs). apply lev_least in Hs. lia.
Qed.

(** X1.  [levenshteinDistance] is a metric on strings: the distance of
    two strings is 0 exactly when they are equal, it is the same in both
    directions, and the distance from [a] to [c] is at most the distance
    from [a] to [b] plus the distance from [b] to [c]. *)
Theorem levenshteinDistance_metric :
  (∀ a b : string, levenshteinDistance a b = 0 ↔ a = b)
  ∧ (∀ a b : string, levenshteinDistance a b = levenshteinDistance b a)
  ∧ (∀ a b c : string,
       levenshteinDistance a c ≤ levenshteinDistance a b + levenshteinDistance b c).
Proof.
  split; [|split].
  - intros a b. rewrite levenshteinDistance_lev. split.
    + intros H0. apply chars_inj, lev_zero. lia.
    + intros ->. rewrite lev_diag. done.
  - intros a b. by rewrite !levenshteinDistance_lev, lev_sym.
  - intros a b c. rewrite !levenshteinDistance_lev.
    pose proof (lev_triangle (chars a) (chars b) (chars c)). lia.
Qed.

(** X2.  [levenshteinDistance] lies between the difference of the two
    lengths and the length of the longer string. *)
Theorem levenshteinDistance_bounds (a b : string) :
  Z.abs (Z.of_nat (String.length a) - Z.of_nat (String.length b)) ≤ levenshteinDistance a b
  ∧ levenshteinDistance a b
    ≤ Z.max (Z.of_nat (String.length a)) (Z.of_nat (String.length b)).
Proof.
  rewrite levenshteinDistance_lev.
  pose proof (lev_bounds (chars a) (chars b)) as (H1 & H2 & H3).
  rewrite !chars_length in *. lia.
Qed.

Lemma calculateStringSimilarity_ge_0 (a b : string) : (0 <= calculateStringSimilarity a b)%Q.
Proof.
  rewrite calculateStringSimilarity_lev. cbv zeta.
  pose proof (lev_bounds (chars a) (chars b)) as (_ & _ & Hmax).
  rewrite !chars_length in Hmax. case_decide; [done|].
  unfold Qle. simpl. lia.
Qed.

(** X3.  [calculateStringSimilarity] lies between 0 and 1; it is 1
    exactly when the two strings are equal; and it is at most the length
    of the shorter string divided by the length of the longer one. *)
Theorem calculateStringSimilarity_range (a b : string) :
  let longer := Nat.max (String.length a) (String.length b) in
  let shorter := Nat.min (String.length a) (String.length b) in
  (0 <= calculateStringSimilarity a b <= 1)%Q
  ∧ ((calculateStringSimilarity a b == 1)%Q ↔ a = b)
  ∧ (calculateStringSimilarity a b * inject_Z (Z.of_nat longer)
     <= inject_Z (Z.of_nat shorter))%Q.
Proof.
  cbv zeta. rewrite calculateStringSimilarity_lev. cbv zeta.
  pose proof (lev_bounds (chars a) (chars b)) as (H1 & H2 & H3).
  rewrite !chars_length in *.
  case_decide as Hmax.
  - assert (Ha : String.length a = 0%nat) by lia.
    assert (Hb : String.length b = 0%nat) by lia.
    destruct a; [|done]. destruct b; [|done].
    rewrite Hmax. simpl. repeat split; try done.
  - set (n := Nat.max (String.length a) (String.length b)) in *.
    assert (Hn : Z.pos (Pos.of_nat n) = Z.of_nat n).
    { rewrite <- (positive_nat_Z (Pos.of_nat _)), Nat2Pos.id by done. done. }
    split; [|split].
    + unfold Qle. simpl. rewrite Hn. lia.
    + unfold Qeq. simpl. rewrite Hn. split.
      * intros Heq. apply chars_inj, lev_zero. lia.
      * intros ->. rewrite lev_diag. lia.
    + unfold Qle, Qmult, inject_Z. simpl. rewrite ?Pos.mul_1_r, ?Z.mul_1_r.
      rewrite Hn. apply Z.mul_le_mono_nonneg_r; lia.
Qed.

(** ** findBestMatch: ties and the range of the score *)

(** The head of a sorted list of scored results is the first, in the
    order they came, of those with the top score. *)
Lemma head_by_score_first (l : list Scored) (best : Scored) :
  head (array_sort (λ a b : Scored, Qltb b.2 a.2) l) = Some best →
  ∃ i : nat, l !! i = Some best
    ∧ (∀ j y, l !! j = Some y → (y.2 <= best.2)%Q)
    ∧ (∀ j y, l !! j = Some y → (j < i)%nat → (y.2 < best.2)%Q).
Proof.
  revert best. induction l as [|x l IH]; intros best; [done|].
  unfold array_sort in *. cbn [foldr].
  destruct (foldr (insert_sorted (λ a b : Scored, Qltb b.2 a.2)) [] l) as [|b sorted] eqn:Hsorted.
  - intros [= <-]. assert (l = []) as ->.
    { pose proof (array_sort_perm (λ a b : Scored, Qltb b.2 a.2) l) as Hperm.
      unfold array_sort in Hperm. rewrite Hsorted in Hperm.
      by apply Permutation_nil_l in Hperm. }
    exists 0%nat. split; [done|]. split.
    + intros [|j] y; [intros [= <-]; apply Qle_refl|done].
    + intros j y _ Hj. lia.
  - destruct (IH b eq_refl) as (i & Hi & Hmax & Hfirst).
    cbn [insert_sorted]. destruct (Qltb x.2 b.2) eqn:Hlt; cbn [head]; intros [= <-].
    + apply Qltb_lt in Hlt. exists (S i). split; [done|]. split.
      * intros [|j] y; [intros [= <-]; by apply Qlt_le_weak|apply Hmax].
      * intros [|j] y; [by intros [= <-] _|]. intros Hy Hj. apply (Hfirst j); [done|lia].
    + apply Qltb_ge in Hlt. exists 0%nat. split; [done|]. split.
      * intros [|j] y; [intros [= <-]; apply Qle_refl|].
        intros Hy. eapply Qle_trans; [by eapply Hmax|done].
      * intros j y _ Hj. lia.
Qed.

Lemma filter_results_subset mediaType results r :
  r ∈ filter_results mediaType results → r ∈ results.
Proof.
  unfold filter_results. destruct (decide (mediaType ≠ "multi")); [|done]. cbv zeta.
  destruct (decide _); [done|]. unfold media_type_filter. intros [Hin _]%list_elem_of_In%filter_In.
  by apply list_elem_of_In.
Qed.

(** X4.  [findBestMatch] returns null exactly when there is no
    result.  Otherwise it returns one of the results, with its score:
    among the candidates left by the media-type filter, in the order
    the API gave them, the first one that reaches the top score.  On
    equal scores the earlier result wins. *)
Theorem findBestMatch_first_of_top_scores `{Calendar}
    (results : list Candidate.t) (originalTitle countryCode mediaType : string) :
  let candidates := filter_results mediaType results in
  let score := similarity_score originalTitle countryCode in
  (findBestMatch results originalTitle countryCode mediaType = None ↔ results = [])
  ∧ ∀ best : Scored,
      findBestMatch results originalTitle countryCode mediaType = Some best →
      best.1 ∈ results
      ∧ best.2 = score best.1
      ∧ ∃ i : nat, candidates !! i = Some best.1
          ∧ (∀ j r, candidates !! j = Some r → (score r <= best.2)%Q)
          ∧ (∀ j r, candidates !! j = Some r → (j < i)%nat → (score r < best.2)%Q).
Proof.
  cbv zeta. split.
  - split.
    + intros Hnone. destruct results as [|r results]; [done|].
      destruct (findBestMatch_Some (r :: results) originalTitle countryCode mediaType)
        as [best Hbest]; [done|congruence].
    + by intros ->.
  - intros best. unfold findBestMatch. case_decide; [done|]. cbv zeta.
    intros Hhead. apply head_by_score_first in Hhead as (i & Hi & Hmax & Hfirst).
    rewrite list_lookup_fmap in Hi.
    destruct (filter_results mediaType results !! i) as [r|] eqn:Hr; [|done].
    injection Hi as <-. cbn [fst snd].
    split; [|split; [done|]].
    + eapply filter_results_subset, list_elem_of_lookup_2, Hr.
    + exists i. split; [done|]. split.
      * intros j r' Hr'.
        apply (Hmax j (r', similarity_score originalTitle countryCode r')).
        by rewrite list_lookup_fmap, Hr'.
      * intros j r' Hr' Hj.
        apply (Hfirst j (r', similarity_score originalTitle countryCode r')); [|done].
        by rewrite list_lookup_fmap, Hr'.
Qed.

Lemma title_points_range (originalTitle : string) (result : Candidate.t) :
  (0 <= title_points originalTitle result <= 100)%Q.
Proof.
  unfold title_points. repeat case_match; try lra.
  pose proof (calculateStringSimilarity_ge_0 (clean_original_title originalTitle)
                (clean_result_title result)).
  pose proof (calculateStringSimilarity_le_1 (clean_original_title originalTitle)
                (clean_result_title result)). lra.
Qed.

Lemma date_points_range `{Calendar} (countryCode : string) (result : Candidate.t) :
  (0 <= date_points countryCode result <= 30)%Q.
Proof. unfold date_points. repeat case_match; lra. Qed.

Lemma origin_points_range (countryCode : string) (result : Candidate.t) :
  (0 <= origin_points countryCode result <= 25)%Q.
Proof. unfold origin_points. repeat case_match; lra. Qed.

(** X5.  The score [findBestMatch] gives a candidate is at most 185
    (100 for the title, 30 for the date, 25 for the origin country, 10
    for popularity, 20 for the rating); when popularity and rating are
    not negative it is at least -20, the penalty on old, low-rated
    content. *)
Theorem similarity_score_bounds `{Calendar} (originalTitle countryCode : string)
    (result : Candidate.t) :
  (similarity_score originalTitle countryCode result <= 185)%Q
  ∧ ((0 <= default 0 (Candidate.popularity result))%Q →
     (0 <= default 0 (Candidate.vote_average result))%Q →
     (-20 <= similarity_score originalTitle countryCode result)%Q).
Proof.
  rewrite similarity_score_points.
  pose proof (title_points_range originalTitle result).
  pose proof (date_points_range countryCode result).
  pose proof (origin_points_range countryCode result).
  unfold tiebreak_points.
  pose proof (Q.le_min_r (default 0%Q (Candidate.popularity result) * (1 # 10)) 10).
  pose proof (Q.le_min_r (default 0%Q (Candidate.vote_average result) * 2) 20).
  split.
  - case_match; lra.
  - intros Hp Hv.
    assert (0 <= Qmin (default 0%Q (Candidate.popularity result) * (1 # 10)) 10)%Q
      by (apply Q.min_glb; lra).
    assert (0 <= Qmin (default 0%Q (Candidate.vote_average result) * 2) 20)%Q
      by (apply Q.min_glb; lra).
    case_match; lra.
Qed.

(** ** The gap-fill pass in closed form *)

Lemma free_ranks_push (entries : list Item.t) (e : Item.t) (rest : list Z) :
  free_ranks entries = Item.rank e :: rest → free_ranks (entries ++ [e]) = rest.
Proof.
  unfold free_ranks.
  assert (Hnd : NoDup (seqZ 1 10)) by apply NoDup_seqZ.
  revert Hnd. generalize (seqZ 1 10). intros l Hnd.
  assert (Hext : ∀ r, negb (has_rank (entries ++ [e]) r)
                      = negb (has_rank entries r) && negb (r =? Item.rank e)).
  { intros r. unfold has_rank. rewrite existsb_app. simpl.
    rewrite orb_false_r, negb_orb, (Z.eqb_sym (Item.rank e)). done. }
  induction l as [|x l IH]; [done|]. apply NoDup_cons in Hnd as [Hx Hnd].
  cbn [List.filter]. rewrite Hext.
  destruct (has_rank entries x) eqn:Hhas; cbn [negb andb]; [by apply IH|].
  intros [= -> <-]. rewrite Z.eqb_refl. cbn [negb].
  clear IH. induction l as [|y l IH]; [done|].
  apply NoDup_cons in Hnd as [Hy Hnd]. cbn [List.filter]. rewrite Hext.
  assert (y ≠ Item.rank e) by (intros ->; apply Hx; left).
  replace (y =? Item.rank e) with false by (symmetry; by apply Z.eqb_neq).
  rewrite andb_true_r. destruct (negb (has_rank entries y)).
  - f_equal. apply IH; [|done]. intros Hin. apply Hx. by right.
  - apply IH; [|done]. intros Hin. apply Hx. by right.
Qed.

Lemma first_free_rank_head (entries : list Item.t) (existingRanks : gset Z) :
  (∀ rank, rank ∈ existingRanks ↔ rank ∈ ranks entries) →
  first_free_rank existingRanks = head (free_ranks entries).
Proof.
  intros Hex. unfold first_free_rank, free_ranks.
  induction (seqZ 1 10) as [|x l IH]; [done|]. cbn [List.find List.filter].
  assert (bool_decide (x ∉ existingRanks) = negb (has_rank entries x)) as ->.
  { destruct (has_rank entries x) eqn:Hhas.
    - apply has_rank_spec in Hhas. apply bool_decide_eq_false. rewrite Hex. auto.
    - apply has_rank_false in Hhas. apply bool_decide_eq_true. by rewrite Hex. }
  by destruct (negb (has_rank entries x)).
Qed.

(** With distinct ranks from 1 to 10, as many ranks are free as entries
    are missing. *)
Lemma free_ranks_length (entries : list Item.t) :
  valid_ranks entries → (length (free_ranks entries) + length entries = 10)%nat.
Proof.
  intros [Hnd Hr]. unfold free_ranks.
  pose proof (filter_length (λ rank, negb (has_rank entries rank)) (seqZ 1 10)) as Hlen.
  rewrite length_seqZ in Hlen.
  assert (Htaken : List.filter (λ x, negb (negb (has_rank entries x))) (seqZ 1 10)
                   ≡ₚ ranks entries).
  { apply NoDup_Permutation; [|done|].
    - apply NoDup_ListNoDup, List.NoDup_filter, NoDup_ListNoDup, NoDup_seqZ.
    - intros x. rewrite list_elem_of_In, filter_In, <- list_elem_of_In, negb_involutive,
        has_rank_spec, elem_of_seqZ.
      split; [tauto|]. intros Hx. split; [|done].
      rewrite Forall_forall in Hr. apply Hr in Hx. lia. }
  apply Permutation_length in Htaken. unfold ranks in Htaken.
  rewrite length_fmap in Htaken. lia.
Qed.

Lemma nonblank_titles_cons (text : string) (texts : list string) :
  nonblank_titles (text :: texts)
  = if String.eqb (trim text) "" then nonblank_titles texts
    else trim text :: nonblank_titles texts.
Proof. unfold nonblank_titles. rewrite fmap_cons. simpl. by destruct (String.eqb _ _). Qed.

Lemma fill_loop_zip (category : string) (links : list string)
    (currentResults : list Item.t) (existingRanks : gset Z) :
  (∀ rank, rank ∈ existingRanks ↔ rank ∈ ranks currentResults) →
  valid_ranks currentResults →
  fill_loop category links currentResults existingRanks
  = currentResults
    ++ zip_with (λ rank title, new_item rank title category "")
         (free_ranks currentResults) (nonblank_titles links).
Proof.
  revert currentResults existingRanks.
  induction links as [|text links IH]; intros currentResults existingRanks Hex Hvalid.
  - simpl. unfold nonblank_titles. simpl. by rewrite zip_with_nil_r, app_nil_r.
  - cbn [fill_loop]. rewrite nonblank_titles_cons.
    destruct (String.eqb (trim text) ""); [by apply IH|].
    rewrite (first_free_rank_head currentResults) by done.
    destruct (free_ranks currentResults) as [|rank rest] eqn:Hfree; cbn [head].
    + simpl. rewrite app_nil_r. case_match; [done|].
      rewrite (IH _ _ Hex Hvalid), Hfree. simpl. by rewrite app_nil_r.
    + set (item := new_item rank (trim text) category "").
      assert (Hrank : 1 ≤ rank ≤ 10 ∧ rank ∉ ranks currentResults).
      { assert (Hin : rank ∈ free_ranks currentResults) by (rewrite Hfree; left).
        unfold free_ranks in Hin.
        apply list_elem_of_In, filter_In in Hin as [Hin Hnew].
        apply list_elem_of_In, elem_of_seqZ in Hin.
        apply negb_true_iff, has_rank_false in Hnew. split; [lia|done]. }
      assert (Hvalid' : valid_ranks (currentResults ++ [item])).
      { apply valid_ranks_push; [done|apply Hrank|apply Hrank]. }
      assert (Hex' : ∀ r, r ∈ ({[rank]} ∪ existingRanks : gset Z)
                          ↔ r ∈ ranks (currentResults ++ [item])).
      { intros r. rewrite ranks_app, elem_of_union, elem_of_singleton, elem_of_app, Hex.
        unfold ranks at 2. simpl. rewrite list_elem_of_singleton. tauto. }
      assert (Hrest : free_ranks (currentResults ++ [item]) = rest).
      { by apply free_ranks_push. }
      cbn [zip_with]. fold item.
      destruct (10 <=? length (currentResults ++ [item]))%nat eqn:Hfull.
      * apply Nat.leb_le in Hfull.
        pose proof (free_ranks_length _ Hvalid') as Hlen. rewrite Hrest in Hlen.
        destruct rest; [|simpl in Hlen; lia]. done.
      * rewrite (IH _ _ Hex' Hvalid'), Hrest, <- app_assoc. done.
Qed.

(** The result is what was collected, then the gap-fill entries. *)
Lemma parseTableData_filled (doc : Document) (sectionType : string) :
  parseTableData doc sectionType
  = unique_ranks (collect_results doc sectionType)
    ++ zip_with (λ rank title, new_item rank title (category_of sectionType) "")
         (free_ranks (unique_ranks (collect_results doc sectionType)))
         (nonblank_titles (title_links doc)).
Proof.
  set (kept := unique_ranks (collect_results doc sectionType)).
  assert (Hvalid : valid_ranks kept) by apply unique_ranks_valid.
  pose proof (free_ranks_length kept Hvalid) as Hfree.
  unfold parseTableData. cbv zeta. fold kept.
  destruct (length kept <? 10)%nat eqn:Hlt.
  - unfold fillMissingRanks. cbv zeta. apply fill_loop_zip; [|done].
    intros rank. by rewrite elem_of_list_to_set.
  - apply Nat.ltb_ge in Hlt. destruct (free_ranks kept); [|simpl in Hfree; lia].
    by rewrite app_nil_r.
Qed.

(** X6.  What [parseTableData] returns: the entries the stages
    collected, one per rank and in ascending order of rank, followed by
    the gap-fill entries, which pair the ranks still free, in ascending
    order, with the texts of the title links of the whole page that are
    not blank, in document order, as far as both last.  So the result
    has ten entries or, when the page holds fewer links, as many entries
    as were collected plus one per link. *)
Theorem parseTableData_gap_fill (doc : Document) (sectionType : string) :
  let kept := unique_ranks (collect_results doc sectionType) in
  let titles := nonblank_titles (title_links doc) in
  sorted_by_rank kept
  ∧ parseTableData doc sectionType
    = kept ++ zip_with (λ rank title, new_item rank title (category_of sectionType) "")
                (free_ranks kept) titles
  ∧ length (parseTableData doc sectionType) = Nat.min 10 (length kept + length titles).
Proof.
  cbv zeta.
  set (kept := unique_ranks (collect_results doc sectionType)).
  set (titles := nonblank_titles (title_links doc)).
  assert (Hvalid : valid_ranks kept) by apply unique_ranks_valid.
  pose proof (free_ranks_length kept Hvalid) as Hfree.
  pose proof (parseTableData_filled doc sectionType) as Heq. fold kept titles in Heq.
  split; [apply unique_ranks_sorted|]. split; [done|].
  rewrite Heq, length_app, length_zip_with. lia.
Qed.

(** ** The entries of a section *)

Lemma scraped_entry_push category entries rank title poster :
  Forall (scraped_entry category) entries → String.eqb title "" = false →
  Forall (scraped_entry category) (entries ++ [new_item rank title category poster]).
Proof.
  intros He Ht. apply Forall_app. split; [done|]. constructor; [|constructor].
  apply String.eqb_neq in Ht. by repeat split.
Qed.

Ltac push_or_keep_scraped :=
  cbv zeta;
  repeat match goal with
         | |- context [if ?b then _ else _] => destruct b eqn:?
         | |- context [match ?x with Some _ => _ | None => _ end] => destruct x eqn:?
         end;
  first
    [ done
    | apply scraped_entry_push; [done|];
      repeat match goal with
             | H : negb _ = true |- _ => apply negb_true_iff in H
             | H : _ && _ = true |- _ => apply andb_true_iff in H as [? ?]
             | H : _ || _ = false |- _ => apply orb_false_iff in H as [? ?]
             end; done ].

Lemma parse_by_header_scraped doc sectionType category :
  Forall (scraped_entry category) (parse_by_header doc sectionType category).
Proof.
  unfold parse_by_header. cbv zeta. destruct (section_header doc sectionType) as [h|].
  - assert (Hs : Forall (scraped_entry category) (scan_siblings category h [])).
    { unfold scan_siblings. case_match; [|constructor].
      apply (each_indexed_ind (λ _, Forall (scraped_entry category))); [constructor|].
      intros i x s _ Hs. unfold scan_row. push_or_keep_scraped. }
    case_decide as Hempty; [|done].
    apply nil_length_inv in Hempty. rewrite Hempty. clear.
    induction [0; 1; 2]%nat as [|level levels IH]; [constructor|].
    cbn [scan_parents]. cbv zeta. case_match; [|done].
    apply (each_indexed_ind (λ _, Forall (scraped_entry category))); [constructor|].
    intros i x s _ Hs. unfold scan_parent_link. push_or_keep_scraped.
  - unfold scan_all_links.
    apply (each_indexed_ind (λ _, Forall (scraped_entry category))); [constructor|].
    intros i x s _ Hs. push_or_keep_scraped.
Qed.

Lemma parseSectionBased_scraped doc sectionType :
  Forall (scraped_entry (category_of sectionType)) (parseSectionBased doc sectionType).
Proof.
  unfold parseSectionBased. cbv zeta. case_match; [constructor|].
  apply (fold_left_ind (Forall _)); [constructor|].
  intros s x Hs. apply (fold_left_ind (Forall _)); [done|].
  intros s' text Hs'. unfold collect_link. push_or_keep_scraped.
Qed.

Lemma parseTextBasedAggressive_scraped doc sectionType :
  Forall (scraped_entry (category_of sectionType)) (parseTextBasedAggressive doc sectionType).
Proof.
  unfold parseTextBasedAggressive. cbv zeta.
  apply (fold_left_ind (Forall _)); [constructor|].
  intros s item Hs. unfold keep_numbered_item. push_or_keep_scraped.
Qed.

Lemma merge_by_rank_Forall (P : Item.t → Prop) results extra :
  Forall P results → Forall P extra → Forall P (merge_by_rank results extra).
Proof.
  unfold merge_by_rank. revert results.
  induction extra as [|item extra IH]; intros results Hr He; [done|].
  apply Forall_cons in He as [Hi He]. cbn [fold_left]. apply IH; [|done].
  case_match; [done|]. apply Forall_app. split; [done|]. by constructor.
Qed.

Lemma collect_results_scraped doc sectionType :
  Forall (scraped_entry (category_of sectionType)) (collect_results doc sectionType).
Proof.
  unfold collect_results. cbv zeta.
  pose proof (parse_by_header_scraped doc sectionType (category_of sectionType)) as H1.
  set (r1 := parse_by_header _ _ _) in *.
  assert (H2 : Forall (scraped_entry (category_of sectionType))
            (if (length r1 <? 8)%nat
             then merge_by_rank r1 (parseSectionBased doc sectionType) else r1)).
  { case_match; [|done].
    apply merge_by_rank_Forall; [done|apply parseSectionBased_scraped]. }
  set (r2 := if (length r1 <? 8)%nat then _ else _) in *.
  case_match; [|done].
  apply merge_by_rank_Forall; [done|apply parseTextBasedAggressive_scraped].
Qed.

Lemma nonblank_titles_nonblank (texts : list string) :
  Forall (λ title, String.eqb title "" = false) (nonblank_titles texts).
Proof.
  unfold nonblank_titles. apply Forall_forall. intros t Ht.
  apply list_elem_of_In, filter_In in Ht as [_ Ht]. by apply negb_true_iff.
Qed.

(** X7.  Every entry [parseTableData] returns has a title that is not
    empty, the category of the section (TV Show for the section TV
    Shows, Movie for any other), the country Philippines, the platform
    Netflix and no match field. *)
Theorem parseTableData_entries_well_formed (doc : Document) (sectionType : string) :
  Forall (λ entry,
            Item.title entry ≠ ""
            ∧ Item.category entry = (if decide (sectionType = "TV Shows") then "TV Show" else "Movie")
            ∧ Item.country entry = "Philippines"
            ∧ Item.platform entry = "Netflix"
            ∧ Item.tmdb entry = None)
    (parseTableData doc sectionType).
Proof.
  change (Forall (scraped_entry (category_of sectionType)) (parseTableData doc sectionType)).
  rewrite parseTableData_filled.
  apply Forall_app. split.
  - rewrite unique_ranks_perm by apply collect_results_valid.
    apply collect_results_scraped.
  - pose proof (nonblank_titles_nonblank (title_links doc)) as Ht.
    revert Ht. generalize (nonblank_titles (title_links doc)).
    generalize (free_ranks (unique_ranks (collect_results doc sectionType))).
    intros rs. induction rs as [|r rs IH]; intros [|t ts] Ht; try constructor.
    + apply Forall_cons in Ht as [Ht _]. apply String.eqb_neq in Ht. by repeat split.
    + apply Forall_cons in Ht as [_ Ht]. by apply IH.
Qed.

Lemma fold_left_concat {A S : Type} (f : S → A → S) (ls : list (list A)) (s : S) :
  fold_left (λ s l, fold_left f l s) ls s = fold_left f (concat ls) s.
Proof.
  revert s. induction ls as [|l ls IH]; intros s; [done|].
  simpl. by rewrite fold_left_app, IH.
Qed.

Lemma collect_link_ranked category (texts : list string) (results : list Item.t) :
  fold_left (collect_link category) texts results
  = results ++ ranked_from (Z.of_nat (length results) + 1) category
                 (take (10 - length results) (nonblank_titles texts)).
Proof.
  revert results. induction texts as [|text texts IH]; intros results.
  - simpl. unfold nonblank_titles. simpl. rewrite take_nil. simpl. by rewrite app_nil_r.
  - cbn [fold_left]. rewrite IH, nonblank_titles_cons. unfold collect_link. cbv zeta.
    destruct (String.eqb (trim text) "") eqn:Hblank; cbn [negb andb]; [done|].
    destruct (length results <? 10)%nat eqn:Hlt.
    + apply Nat.ltb_lt in Hlt. rewrite length_app. cbn [length].
      destruct (10 - length results)%nat as [|n] eqn:Hn; [lia|].
      replace (10 - (length results + 1))%nat with n by lia.
      cbn [take]. unfold ranked_from. cbn [imap]. rewrite <- app_assoc. cbn [app].
      do 2 f_equal; [f_equal; lia|].
      apply imap_ext. intros i t _. simpl. f_equal. lia.
    + apply Nat.ltb_ge in Hlt. replace (10 - length results)%nat with 0%nat by lia.
      by rewrite !take_0.
Qed.

(** X8.  [parseSectionBased] in closed form: under the first heading
    whose lowercased text holds top 10 and the lowercased section label
    without its first space, the texts of the title links of the next
    ten siblings that are not blank, trimmed, the first ten of them,
    ranked 1, 2, ... in document order; nothing when no heading
    qualifies. *)
Theorem parseSectionBased_first_ten_links (doc : Document) (sectionType : string) :
  parseSectionBased doc sectionType
  = match List.filter (is_section_heading sectionType) (headings doc) with
    | section :: _ =>
        ranked_from 1 (category_of sectionType)
          (take 10 (nonblank_titles (concat (take 10 (heading_next section)))))
    | [] => []
    end.
Proof.
  unfold parseSectionBased. cbv zeta.
  destruct (List.filter _ _) as [|section _]; [done|].
  by rewrite fold_left_concat, collect_link_ranked.
Qed.

(** ** The stages of parseTableData in their order *)

Lemma merge_by_rank_prefix (results extra : list Item.t) :
  results `prefix_of` merge_by_rank results extra.
Proof.
  unfold merge_by_rank. revert results.
  induction extra as [|item extra IH]; intros results; [done|].
  cbn [fold_left]. case_match; [apply IH|].
  etrans; [|apply IH]. by apply prefix_app_r.
Qed.

Lemma merge_by_rank_from (results extra : list Item.t) (entry : Item.t) :
  entry ∈ merge_by_rank results extra →
  entry ∈ results ∨ (entry ∈ extra ∧ Item.rank entry ∉ ranks results).
Proof.
  unfold merge_by_rank. revert results.
  induction extra as [|item extra IH]; intros results; [by left|].
  cbn [fold_left]. destruct (has_rank results (Item.rank item)) eqn:Hhas.
  - intros [?|[? ?]]%IH; [by left|]. right. split; [by right|done].
  - apply has_rank_false in Hhas.
    intros [Hin|[Hin Hnew]]%IH.
    + apply elem_of_app in Hin as [?|Hin]; [by left|].
      apply list_elem_of_singleton in Hin as ->. right. split; [left|done].
    + right. split; [by right|]. rewrite ranks_app in Hnew.
      intros Hr. apply Hnew. apply elem_of_app. by left.
Qed.

(** The first stage goes first. *)
Lemma collect_results_prefix (doc : Document) (sectionType : string) :
  parse_by_header doc sectionType (category_of sectionType)
  `prefix_of` collect_results doc sectionType.
Proof.
  unfold collect_results. cbv zeta.
  set (r1 := parse_by_header doc sectionType (category_of sectionType)).
  set (r2 := if (length r1 <? 8)%nat then _ else r1).
  assert (H12 : r1 `prefix_of` r2).
  { unfold r2. case_match; [apply merge_by_rank_prefix|done]. }
  case_match; [|done]. etrans; [exact H12|]. apply merge_by_rank_prefix.
Qed.

(** X23.  The stages of [parseTableData] in their order of priority.
    An entry the table stage found is in the result; the result holds,
    for a rank the table stage found, the entry of the table stage; an
    entry of the section stage is in the result when the table stage
    found fewer than eight entries and none of its rank; and every
    entry of the result was found by one of the three stages or was
    filled in for a rank that none of them found. *)
Theorem parseTableData_stage_priority (doc : Document) (sectionType : string) :
  let category := category_of sectionType in
  let table := parse_by_header doc sectionType category in
  let result := parseTableData doc sectionType in
  table ⊆ result
  ∧ (∀ entry, entry ∈ result → Item.rank entry ∈ ranks table → entry ∈ table)
  ∧ (∀ entry, entry ∈ parseSectionBased doc sectionType →
       (length table < 8)%nat → Item.rank entry ∉ ranks table →
       ∃ kept, kept ∈ result ∧ Item.rank kept = Item.rank entry
               ∧ kept ∈ parseSectionBased doc sectionType)
  ∧ (∀ entry, entry ∈ result →
       entry ∈ table
       ∨ entry ∈ parseSectionBased doc sectionType
       ∨ entry ∈ parseTextBasedAggressive doc sectionType
       ∨ Item.rank entry ∉ ranks (collect_results doc sectionType)).
Proof.
  cbv zeta.
  set (table := parse_by_header doc sectionType (category_of sectionType)).
  pose proof (collect_results_prefix doc sectionType) as Hprefix. fold table in Hprefix.
  pose proof (collect_results_kept doc sectionType) as Hkept.
  pose proof (parseTableData_valid doc sectionType) as [Hnd _].
  assert (Htable : table ⊆ parseTableData doc sectionType).
  { intros entry Hin. apply Hkept. destruct Hprefix as [later ->].
    apply elem_of_app. by left. }
  assert (Hsame : ∀ a b, a ∈ parseTableData doc sectionType →
            b ∈ parseTableData doc sectionType → Item.rank a = Item.rank b → a = b).
  { intros a b Ha Hb Hrank.
    apply list_elem_of_lookup in Ha as [i Hi]. apply list_elem_of_lookup in Hb as [j Hj].
    assert (i = j) as ->.
    { apply (NoDup_lookup _ i j (Item.rank a) Hnd); unfold ranks;
        rewrite list_lookup_fmap; [by rewrite Hi|by rewrite Hj, Hrank]. }
    congruence. }
  split; [done|]. split; [|split].
  - intros entry Hin Hrank. unfold ranks in Hrank.
    apply list_elem_of_fmap in Hrank as (found & Hrank & Hfound).
    by rewrite (Hsame entry found Hin (Htable _ Hfound) Hrank).
  - intros entry Hin Hfew Hnew.
    assert (Hmerged : ∃ kept, kept ∈ merge_by_rank table (parseSectionBased doc sectionType)
                              ∧ Item.rank kept = Item.rank entry
                              ∧ kept ∈ parseSectionBased doc sectionType).
    { clear -Hin Hnew. unfold merge_by_rank. revert Hnew. generalize table. clear table.
      induction (parseSectionBased doc sectionType) as [|item extra IH]; intros results Hnew;
        [by apply elem_of_nil in Hin|].
      cbn [fold_left]. destruct (decide (Item.rank item = Item.rank entry)) as [Heq|Hne].
      - rewrite <- Heq in Hnew. apply has_rank_false in Hnew. rewrite Hnew.
        exists item. split; [|split; [done|left]].
        eapply elem_of_prefix; [|apply (merge_by_rank_prefix _ extra)].
        apply elem_of_app. right. left.
      - apply elem_of_cons in Hin as [->|Hin]; [done|].
        destruct (IH Hin (if has_rank results (Item.rank item) then results
                          else results ++ [item])) as (kept & Hk & Hr & Hk').
        + case_match; [done|]. rewrite ranks_app. intros [?|Hr]%elem_of_app; [done|].
          unfold ranks in Hr. simpl in Hr. apply list_elem_of_singleton in Hr. done.
        + exists kept. split; [done|]. split; [done|]. by right. }
    destruct Hmerged as (kept & Hk & Hr & Hk'). exists kept. split; [|done].
    apply Hkept. unfold collect_results. cbv zeta. fold table.
    replace (length table <? 8)%nat with true by (symmetry; by apply Nat.ltb_lt).
    case_match; [|done].
    eapply elem_of_prefix; [exact Hk|apply merge_by_rank_prefix].
  - intros entry Hin. rewrite parseTableData_filled in Hin.
    apply elem_of_app in Hin as [Hin|Hin].
    + rewrite unique_ranks_perm in Hin by apply collect_results_valid.
      unfold collect_results in Hin. cbv zeta in Hin. fold table in Hin.
      assert (Hstage2 : ∀ e, e ∈ (if (length table <? 8)%nat
                                  then merge_by_rank table (parseSectionBased doc sectionType)
                                  else table) →
                e ∈ table ∨ e ∈ parseSectionBased doc sectionType).
      { intros e. destruct (length table <? 8)%nat; [|by left].
        intros [?|[? _]]%merge_by_rank_from; auto. }
      destruct (length (if (length table <? 8)%nat then _ else table) <? 8)%nat.
      * apply merge_by_rank_from in Hin as [Hin|[Hin _]]; [|by auto].
        apply Hstage2 in Hin as [?|?]; auto.
      * apply Hstage2 in Hin as [?|?]; auto.
    + right. right. right.
      set (kept := unique_ranks (collect_results doc sectionType)) in *.
      assert (Hfree : Item.rank entry ∈ free_ranks kept).
      { revert Hin. generalize (nonblank_titles (title_links doc)).
        generalize (free_ranks kept). intros rs.
        induction rs as [|r rs IH]; intros [|t ts] Hin; try (by apply elem_of_nil in Hin).
        cbn [zip_with] in Hin. apply elem_of_cons in Hin as [->|Hin]; [left|].
        right. by eapply IH. }
      unfold free_ranks in Hfree. apply list_elem_of_In, filter_In in Hfree as [_ Hnew].
      apply negb_true_iff, has_rank_false in Hnew. unfold kept in Hnew.
      unfold ranks in *. by rewrite unique_ranks_perm in Hnew by apply collect_results_valid.
Qed.

(** ** parseNetflixTop10: the sources are merged by rank alone *)
















(** ** The query of the fourth strategy *)

Lemma split_on_cons (sep : ascii) (s : list ascii) :
  ∃ part parts, split_on sep s = part :: parts.
Proof.
  induction s as [|c s (part & parts & IH)]; [by eexists _, _|].
  simpl. case_decide; [by eexists _, _|]. rewrite IH. by eexists _, _.
Qed.

Lemma join_with_cons (sep : ascii) (part : list ascii) (parts : list (list ascii)) :
  parts ≠ [] →
  join_with sep (part :: parts) = part ++ sep :: join_with sep parts.
Proof. by destruct parts. Qed.

(** Splitting and joining on the same separator gives the string back. *)
Lemma join_split (sep : ascii) (s : list ascii) : join_with sep (split_on sep s) = s.
Proof.
  induction s as [|c s IH]; [done|]. cbn [split_on].
  destruct (split_on_cons sep s) as (part & parts & Hs). rewrite Hs in *.
  case_decide as Hc.
  - subst c. rewrite join_with_cons by done. by rewrite IH.
  - destruct parts as [|part' parts].
    + simpl in *. by rewrite IH.
    + rewrite !join_with_cons in * by done. cbn [app]. by rewrite IH.
Qed.

Lemma split_on_length (s : list ascii) :
  length (split_on " " s) = S (count_spaces s).
Proof.
  unfold count_spaces. induction s as [|c s IH]; [done|]. cbn [split_on List.filter].
  destruct (split_on_cons " " s) as (part & parts & Hs). rewrite Hs in *.
  case_decide as Hc.
  - rewrite bool_decide_eq_true_2 by done. simpl in *. by rewrite IH.
  - rewrite bool_decide_eq_false_2 by done. simpl in *. done.
Qed.

Lemma split_on_no_sep (s : list ascii) :
  Forall (λ part, count_spaces part = 0%nat) (split_on " " s).
Proof.
  induction s as [|c s IH]; [by repeat constructor|]. cbn [split_on].
  destruct (split_on_cons " " s) as (part & parts & Hs). rewrite Hs in *.
  apply Forall_cons in IH as [Hpart Hparts].
  case_decide as Hc.
  - constructor; [done|]. by constructor.
  - constructor; [|done]. unfold count_spaces in *. simpl.
    by rewrite bool_decide_eq_false_2 by done.
Qed.

Lemma count_spaces_app (l k : list ascii) :
  count_spaces (l ++ k) = (count_spaces l + count_spaces k)%nat.
Proof. unfold count_spaces. by rewrite List.filter_app, length_app. Qed.

Lemma count_spaces_join (parts : list (list ascii)) :
  Forall (λ part, count_spaces part = 0%nat) parts →
  count_spaces (join_with " " parts) = (length parts - 1)%nat.
Proof.
  induction parts as [|part parts IH]; [done|]. intros [Hpart Hparts]%Forall_cons.
  destruct parts as [|part' parts]; [simpl; by rewrite Hpart|].
  rewrite join_with_cons by done. rewrite count_spaces_app, Hpart.
  change (" "%char :: ?l) with ([" "%char] ++ l). rewrite count_spaces_app, IH by done.
  simpl. unfold count_spaces. simpl. lia.
Qed.

Lemma join_take_prefix (sep : ascii) (n : nat) (parts : list (list ascii)) :
  join_with sep (take n parts) `prefix_of` join_with sep parts.
Proof.
  revert n. induction parts as [|part parts IH]; intros n; [by rewrite take_nil|].
  destruct n as [|n]; [apply prefix_nil|]. cbn [take].
  destruct parts as [|part' parts]; [by rewrite take_nil|].
  rewrite (join_with_cons sep part (part' :: parts)) by done.
  destruct n as [|n].
  - simpl. by apply prefix_app_r.
  - rewrite join_with_cons by done. apply prefix_app, prefix_cons, IH.
Qed.

(** A title of three words at most is its own first three words. *)
Lemma first_three_words_short (cleanTitle : string) :
  (count_spaces (chars cleanTitle) ≤ 2)%nat → first_three_words cleanTitle = cleanTitle.
Proof.
  intros Hle. unfold first_three_words.
  rewrite take_ge by (rewrite split_on_length; lia).
  by rewrite join_split, str_chars.
Qed.

(** X9.  The query of the fourth strategy, [first_three_words], is a
    prefix of the normalised title; it holds two spaces at most; and it
    is the whole title exactly when the title holds two spaces at
    most. *)
Theorem first_three_words_prefix (cleanTitle : string) :
  chars (first_three_words cleanTitle) `prefix_of` chars cleanTitle
  ∧ count_spaces (chars (first_three_words cleanTitle))
    = Nat.min 2 (count_spaces (chars cleanTitle))
  ∧ ((count_spaces (chars cleanTitle) ≤ 2)%nat ↔ first_three_words cleanTitle = cleanTitle).
Proof.
  unfold first_three_words. rewrite chars_str.
  pose proof (split_on_length (chars cleanTitle)) as Hlen.
  pose proof (split_on_no_sep (chars cleanTitle)) as Hparts.
  pose proof (join_split " " (chars cleanTitle)) as Hjoin.
  assert (Hcount : count_spaces (join_with " " (take 3 (split_on " " (chars cleanTitle))))
                   = Nat.min 2 (count_spaces (chars cleanTitle))).
  { rewrite count_spaces_join by (by apply Forall_take).
    rewrite length_take, Hlen. lia. }
  split; [|split; [done|]].
  - rewrite <- Hjoin at 2. apply join_take_prefix.
  - split.
    + intros Hle. rewrite take_ge by lia. by rewrite Hjoin, str_chars.
    + intros Heq. apply (f_equal (λ s, count_spaces (chars s))) in Heq.
      rewrite chars_str, Hcount in Heq. lia.
Qed.

(** ** The queries are tidy *)

Lemma removeCountryIndicators_tidy (title : string) :
  tidy (chars (removeCountryIndicators title)).
Proof.
  unfold removeCountryIndicators. cbv zeta. rewrite chars_str.
  rewrite (replace_all_matches false some_spaces spaces_at)
    by (intros; first [by apply exec_some_spaces | by eapply spaces_at_shorter]).
  apply trim_chars_tidy. unfold replace_each. apply collapse_single_spaced. lia.
Qed.

Lemma join_take_drop (sep : ascii) (n : nat) (parts : list (list ascii)) :
  (0 < n < length parts)%nat →
  join_with sep parts = join_with sep (take n parts) ++ sep :: join_with sep (drop n parts).
Proof.
  revert n. induction parts as [|part parts IH]; intros n Hn; [simpl in Hn; lia|].
  destruct n as [|n]; [lia|]. simpl in Hn. cbn [take drop].
  destruct parts as [|part' parts]; [simpl in Hn; lia|].
  rewrite (join_with_cons sep part (part' :: parts)) by done.
  destruct n as [|n].
  - by rewrite take_0, drop_0.
  - cbn [take]. rewrite (join_with_cons sep part (part' :: take n parts)) by done.
    rewrite (IH (S n)) by (simpl in *; lia). cbn [take]. by rewrite <- app_assoc.
Qed.

Lemma tidy_prefix (f rest : list ascii) :
  tidy (f ++ " "%char :: rest) → tidy f.
Proof.
  intros (Hs & Hhead & Hlast). split; [by eapply single_spaced_app_l|]. split.
  - destruct f; [done|]. done.
  - destruct f as [|c f] using rev_ind; [done|]. rewrite last_snoc. simpl.
    rewrite <- app_assoc in Hs. apply single_spaced_app_r in Hs. destruct Hs as [Hc _].
    destruct (is_space c); [|done]. by destruct (Hc eq_refl) as [_ ?].
Qed.

Lemma first_three_words_tidy (cleanTitle : string) :
  tidy (chars cleanTitle) → tidy (chars (first_three_words cleanTitle)).
Proof.
  intros Ht. destruct (decide (count_spaces (chars cleanTitle) ≤ 2)%nat) as [Hle|Hgt].
  - by rewrite first_three_words_short.
  - unfold first_three_words. rewrite chars_str.
    pose proof (split_on_length (chars cleanTitle)) as Hlen.
    rewrite <- (join_split " " (chars cleanTitle)) in Ht.
    rewrite (join_take_drop " " 3) in Ht by lia.
    by eapply tidy_prefix.
Qed.

(** X10.  Every query [searchTMDB] sends is tidy: in the queries of
    all four strategies every whitespace character is a single space
    between two other characters. *)
Theorem searchStrategies_queries_tidy (title countryCode : string) :
  Forall (λ strategy, tidy (chars (strategy_query strategy)))
    (searchStrategies title countryCode).
Proof.
  assert (Hclean : tidy (chars (cleanTitleForSearch title))).
  { rewrite cleanTitleForSearch_scan. apply normalise_title_tidy. }
  unfold searchStrategies. cbv zeta.
  apply Forall_cons. split; [exact Hclean|].
  apply Forall_cons. split; [exact Hclean|].
  apply Forall_cons. split; [apply removeCountryIndicators_tidy|].
  apply Forall_cons. split; [by apply first_three_words_tidy|].
  constructor.
Qed.

(** ** The regular expressions of removeCountryIndicators *)

(** A property of characters that holds of the 256 of them. *)
Lemma forall_ascii (p : ascii → bool) :
  forallb p (ascii_of_nat <$> seq 0 256) = true → ∀ c, p c = true.
Proof.
  intros Hall c. rewrite forallb_forall in Hall. apply Hall.
  apply list_elem_of_In, list_elem_of_fmap. exists (nat_of_ascii c).
  split; [by rewrite ascii_nat_embedding|].
  apply elem_of_seq. pose proof (nat_ascii_bounded c). lia.
Qed.

Lemma toUpperChar_toLowerChar (c : ascii) : toUpperChar (toLowerChar c) = toUpperChar c.
Proof.
  apply Ascii.eqb_eq. revert c. apply forall_ascii. vm_compute. reflexivity.
Qed.

Lemma is_space_toUpperChar (c : ascii) : is_space c = true → toUpperChar c = c.
Proof.
  intros Hc. apply Ascii.eqb_eq. revert c Hc.
  cut (∀ c, implb (is_space c) (Ascii.eqb (toUpperChar c) c) = true).
  { intros H c Hc. specialize (H c). by rewrite Hc in H. }
  apply forall_ascii. vm_compute. reflexivity.
Qed.

(** Only an opening parenthesis is one in any letter case. *)
Lemma toUpperChar_paren (c : ascii) : toUpperChar c = toUpperChar "("%char → c = "("%char.
Proof.
  intros Hc. apply Ascii.eqb_eq. apply Ascii.eqb_eq in Hc. revert c Hc.
  cut (∀ c, implb (Ascii.eqb (toUpperChar c) (toUpperChar "(")) (Ascii.eqb c "(") = true).
  { intros H c Hc. specialize (H c). by rewrite Hc in H. }
  apply forall_ascii. vm_compute. reflexivity.
Qed.

Lemma country_initial_letter (c : ascii) :
  country_initial c = true → c ∈ chars "pPfFtT(".
Proof.
  intros Hc.
  cut (existsb (Ascii.eqb c) (chars "pPfFtT(") = true).
  { intros (x & Hx & ->%Ascii.eqb_eq)%existsb_exists. by apply list_elem_of_In. }
  revert c Hc.
  cut (∀ c, implb (country_initial c) (existsb (Ascii.eqb c) (chars "pPfFtT(")) = true).
  { intros H c Hc. specialize (H c). by rewrite Hc in H. }
  apply forall_ascii. vm_compute. reflexivity.
Qed.

Lemma strip_word_initial (w : string) (c : ascii) (s : list ascii) :
  w ∈ country_words → country_initial c = false → strip_word (chars w) (c :: s) = None.
Proof.
  intros Hw Hc. unfold country_initial in Hc.
  assert (Hne : ∀ x, x ∈ chars "PFT" → toUpperChar c ≠ x).
  { intros x Hx Heq. apply not_true_iff_false in Hc. apply Hc.
    apply existsb_exists. exists x. split; [by apply list_elem_of_In|].
    by apply Ascii.eqb_eq. }
  unfold country_words in Hw.
  repeat (apply elem_of_cons in Hw as [->|Hw]);
    [..|by apply elem_of_nil in Hw];
    cbn [chars String.list_ascii_of_string strip_word];
    (rewrite decide_False; [done|]); apply Hne; vm_compute;
    repeat first [by apply list_elem_of_here | apply list_elem_of_further].
Qed.

Lemma strip_first_word_initial (c : ascii) (s : list ascii) :
  country_initial c = false → strip_first_word country_words (c :: s) = None.
Proof.
  intros Hc.
  assert (H : ∀ ws, ws ⊆ country_words → strip_first_word ws (c :: s) = None).
  { induction ws as [|w ws IH]; intros Hsub; [done|]. cbn [strip_first_word].
    rewrite strip_word_initial; [|apply Hsub; left|done].
    apply IH. intros x Hx. apply Hsub. by right. }
  by apply H.
Qed.

Lemma strip_first_word_nil (ws : list string) :
  ws ⊆ country_words → strip_first_word ws [] = None.
Proof.
  induction ws as [|w ws IH]; intros Hsub; [done|]. cbn [strip_first_word].
  assert (Hw : w ∈ country_words) by (apply Hsub; left).
  assert (strip_word (chars w) [] = None) as ->.
  { unfold country_words in Hw.
    repeat (apply elem_of_cons in Hw as [->|Hw]); [..|by apply elem_of_nil in Hw]; done. }
  apply IH. intros x Hx. apply Hsub. by right.
Qed.

Lemma is_space_not_initial (c : ascii) : is_space c = true → country_initial c = false.
Proof.
  intros Hc. revert c Hc.
  cut (∀ c, implb (is_space c) (negb (country_initial c)) = true).
  { intros H c Hc. specialize (H c). rewrite Hc in H. by apply negb_true_iff. }
  apply forall_ascii. vm_compute. reflexivity.
Qed.

Lemma strip_first_word_shorter (ws : list string) (s rest : list ascii) :
  ws ⊆ country_words → strip_first_word ws s = Some rest → (length rest < length s)%nat.
Proof.
  induction ws as [|w ws IH]; intros Hsub; [done|]. cbn [strip_first_word].
  destruct (strip_word (chars w) s) as [rest'|] eqn:Hword.
  - intros [= <-]. apply strip_word_length in Hword.
    assert (Hw : w ∈ country_words) by (apply Hsub; left).
    assert (0 < length (chars w))%nat; [|lia].
    unfold country_words in Hw.
    repeat (apply elem_of_cons in Hw as [->|Hw]); [..|by apply elem_of_nil in Hw];
      simpl; lia.
  - apply IH. intros x Hx. apply Hsub. by right.
Qed.

Lemma rmatch_alt (ci : bool) (r1 r2 : regex) (cur : cursor) (k : cursor → option cursor) :
  rmatch ci (Alt r1 r2) cur k = or_try (rmatch ci r1 cur k) (rmatch ci r2 cur k).
Proof. reflexivity. Qed.

(** An alternation of words, followed by [\s*] at the end of the
    pattern: the first word that starts here is taken. *)
Lemma rmatch_words_end (ws : list string) (pos : nat) (s : list ascii) :
  ws ≠ [] →
  rmatch true (words ws) (pos, s) (λ cur, rmatch true spaces cur (λ cur, rmatch true Empty cur Some))
  = (λ rest, behind pos s (trim_start rest)) <$> strip_first_word ws s.
Proof.
  assert (Hword : ∀ w : string,
            rmatch true (word w) (pos, s)
              (λ cur, rmatch true spaces cur (λ cur, rmatch true Empty cur Some))
            = (λ rest, behind pos s (trim_start rest)) <$> strip_word (chars w) s).
  { intros w. unfold word. rewrite rmatch_word_ci.
    destruct (strip_word (chars w) s) as [rest|] eqn:Hw; [|done].
    apply strip_word_length in Hw. rewrite spaces_at_end.
    pose proof (trim_start_length rest). cbn [fmap option_fmap option_map]. unfold behind.
    do 2 f_equal. lia. }
  induction ws as [|w ws IH]; intros Hne; [done|].
  destruct ws as [|w' ws].
  - cbn [words strip_first_word]. rewrite Hword. by destruct (strip_word (chars w) s).
  - change (words (w :: w' :: ws)) with (Alt (word w) (words (w' :: ws))).
    rewrite rmatch_alt, Hword, IH by done. cbn [strip_first_word].
    by destruct (strip_word (chars w) s).
Qed.

Lemma exec_country_word (pos : nat) (s : list ascii) :
  exec true re_country_word (pos, s) = behind pos s <$> country_word_at s.
Proof.
  unfold exec, re_country_word, cat. cbn [foldr].
  rewrite rmatch_seq. unfold spaces at 1. rewrite rmatch_star.
  rewrite (star_greedy_blocked is_space); [|apply rmatch_class_matcher|done|].
  2:{ intros pos' c rest Hc. rewrite rmatch_seq.
      change (λ cur', rmatch true (Seq spaces Empty) cur' Some)
        with (λ cur', rmatch true spaces cur' (λ cur, rmatch true Empty cur Some)).
      rewrite rmatch_words_end by done.
      fold country_words. rewrite strip_first_word_initial; [done|].
      by apply is_space_not_initial. }
  rewrite rmatch_seq.
  change (λ cur', rmatch true (Seq spaces Empty) cur' Some)
    with (λ cur', rmatch true spaces cur' (λ cur, rmatch true Empty cur Some)).
  rewrite rmatch_words_end by done. fold country_words. fold (trim_start s).
  unfold country_word_at. pose proof (trim_start_length s).
  destruct (strip_first_word country_words (trim_start s)) as [rest|] eqn:Hrest; [|done].
  apply strip_first_word_shorter in Hrest; [|done]. pose proof (trim_start_length rest).
  cbn [fmap option_fmap option_map]. unfold behind. do 2 f_equal. cbn [fst snd]. lia.
Qed.

Lemma country_word_at_shorter (s rest : list ascii) :
  country_word_at s = Some rest → (length rest < length s)%nat.
Proof.
  unfold country_word_at. pose proof (trim_start_length s).
  destruct (strip_first_word country_words (trim_start s)) as [rest'|] eqn:Hrest; [|done].
  apply strip_first_word_shorter in Hrest; [|done]. pose proof (trim_start_length rest').
  intros [= <-]. lia.
Qed.

(** The pattern with the parentheses needs an opening parenthesis. *)
Lemma exec_country_paren (pos : nat) (s : list ascii) :
  "("%char ∉ s → exec true re_country_paren (pos, s) = None.
Proof.
  intros Hs. unfold exec, re_country_paren, cat. cbn [foldr].
  rewrite rmatch_seq. unfold spaces at 1. rewrite rmatch_star.
  assert (Hlit : ∀ pos' rest k, "("%char ∉ rest →
            rmatch true (Seq (Lit "(") k) (pos', rest) Some = None).
  { intros pos' rest k Hrest. rewrite rmatch_seq. cbn [rmatch snd].
    destruct rest as [|x rest]; [done|]. rewrite decide_False; [done|].
    intros Hx%toUpperChar_paren. subst x. apply Hrest. left. }
  rewrite (star_greedy_blocked is_space); [|apply rmatch_class_matcher|done|].
  - apply Hlit. intros Hin. apply Hs.
    eapply elem_of_sublist; [done|]. apply suffix_sublist, drop_while_suffix_of.
  - intros pos' c rest Hc. rewrite rmatch_seq. cbn [rmatch snd].
    rewrite decide_False; [done|]. intros Hx%toUpperChar_paren. by subst c.
Qed.

(** ** Country words are removed wherever they stand *)

Section ReplaceEach.
Context (found : list ascii → option (list ascii)) (repl : list ascii).
Hypothesis found_shorter : ∀ s rest, found s = Some rest → (length rest < length s)%nat.

(** Fuel beyond the length of the string makes no difference. *)
Lemma replace_matches_fuel (fuel fuel' : nat) (s : list ascii) :
  (length s < fuel)%nat → (length s < fuel')%nat →
  replace_matches fuel found repl s = replace_matches fuel' found repl s.
Proof.
  revert fuel' s. induction fuel as [|fuel IH]; intros fuel' s Hlen Hlen'; [lia|].
  destruct fuel' as [|fuel']; [lia|]. cbn [replace_matches].
  destruct (found s) as [rest|] eqn:Hfound.
  - apply found_shorter in Hfound. f_equal. apply IH; lia.
  - destruct s as [|c s]; [done|]. simpl in *. f_equal. apply IH; lia.
Qed.

Lemma replace_matches_S (fuel : nat) (s : list ascii) :
  replace_matches (S fuel) found repl s
  = match found s with
    | Some rest => repl ++ replace_matches fuel found repl rest
    | None =>
        match s with
        | [] => []
        | c :: s' => c :: replace_matches fuel found repl s'
        end
    end.
Proof. reflexivity. Qed.

Lemma replace_each_nil : replace_each found repl [] = [].
Proof.
  unfold replace_each. cbn [replace_matches length].
  destruct (found []) as [rest|] eqn:Hfound; [|done].
  apply found_shorter in Hfound. simpl in Hfound. lia.
Qed.

Lemma replace_each_found (s rest : list ascii) :
  found s = Some rest → replace_each found repl s = repl ++ replace_each found repl rest.
Proof.
  intros Hfound. unfold replace_each. rewrite (replace_matches_S (length s)), Hfound.
  apply found_shorter in Hfound. f_equal. apply replace_matches_fuel; lia.
Qed.

Lemma replace_each_skip (c : ascii) (s : list ascii) :
  found (c :: s) = None → replace_each found repl (c :: s) = c :: replace_each found repl s.
Proof.
  intros Hfound. unfold replace_each. by rewrite (replace_matches_S (length (c :: s))), Hfound.
Qed.

(** Where nothing is found the string is left as it is. *)
Lemma replace_each_none (s : list ascii) :
  (∀ t, t `suffix_of` s → found t = None) → replace_each found repl s = s.
Proof.
  induction s as [|c s IH]; intros Hnone; [apply replace_each_nil|].
  rewrite replace_each_skip by (by apply Hnone). f_equal. apply IH.
  intros t Ht. apply Hnone. by apply suffix_cons_r.
Qed.

End ReplaceEach.

Lemma drop_while_app (p : ascii → bool) (a b : list ascii) :
  drop_while p (a ++ b) = if forallb p a then drop_while p b else drop_while p a ++ b.
Proof.
  induction a as [|c a IH]; [done|]. cbn [app drop_while forallb].
  destruct (p c); [apply IH|done].
Qed.

Lemma drop_while_all (p : ascii → bool) (a : list ascii) :
  forallb p a = true → drop_while p a = [].
Proof. induction a as [|c a IH]; [done|]. simpl. by destruct (p c). Qed.

Lemma trim_end_cons (c : ascii) (s : list ascii) :
  trim_end (c :: s) = if forallb is_space (c :: s) then [] else c :: trim_end s.
Proof.
  unfold trim_end, trim_start. rewrite reverse_cons, drop_while_app.
  assert (Hrev : forallb is_space (reverse s) = forallb is_space s).
  { clear. induction s as [|x s IH]; [done|].
    rewrite reverse_cons, forallb_app, IH. simpl. by rewrite andb_true_r, andb_comm. }
  rewrite Hrev. cbn [forallb drop_while].
  destruct (forallb is_space s) eqn:Hs.
  - rewrite andb_true_r. rewrite drop_while_all by (by rewrite Hrev).
    destruct (is_space c); [done|]. by rewrite reverse_singleton.
  - rewrite andb_false_r. by rewrite reverse_app, reverse_singleton.
Qed.

(** No country word starts in a text without the letters they start
    with. *)
Lemma country_word_at_plain (s : list ascii) :
  Forall (λ c, country_initial c = false) s → country_word_at s = None.
Proof.
  intros Hs. unfold country_word_at.
  assert (Hts : Forall (λ c, country_initial c = false) (trim_start s)).
  { destruct (drop_while_suffix is_space s) as [dropped Hd]. rewrite Hd in Hs.
    by apply Forall_app in Hs as [_ ?]. }
  destruct (trim_start s) as [|c rest].
  - by rewrite strip_first_word_nil.
  - apply Forall_cons in Hts as [Hc _]. by rewrite strip_first_word_initial.
Qed.

Lemma replace_country_words_plain (s : list ascii) :
  Forall (λ c, country_initial c = false) s → replace_each country_word_at [] s = s.
Proof.
  intros Hs. apply replace_each_none; [apply country_word_at_shorter|].
  intros t [dropped ->]. apply country_word_at_plain. by apply Forall_app in Hs as [_ ?].
Qed.

(** A country word between two texts: it goes with the whitespace
    around it. *)
Lemma replace_country_word_between (u w v : list ascii) :
  Forall (λ c, country_initial c = false) u →
  strip_first_word country_words (w ++ v) = Some v →
  replace_each country_word_at [] (trim_start v) = trim_start v →
  replace_each country_word_at [] (u ++ w ++ v) = trim_end u ++ trim_start v.
Proof.
  intros Hu Hw Hv.
  assert (Hhead : trim_start (w ++ v) = w ++ v).
  { destruct (w ++ v) as [|c rest] eqn:Hwv; [done|]. unfold trim_start. cbn [drop_while].
    destruct (is_space c) eqn:Hc; [|done].
    rewrite strip_first_word_initial in Hw; [done|]. by apply is_space_not_initial. }
  induction u as [|c u IH].
  - cbn [app]. rewrite (replace_each_found _ _ country_word_at_shorter _ (trim_start v)).
    + by rewrite Hv.
    + unfold country_word_at. by rewrite Hhead, Hw.
  - apply Forall_cons in Hu as [Hc Hu]. rewrite trim_end_cons. cbn [app].
    destruct (forallb is_space (c :: u)) eqn:Hall.
    + rewrite (replace_each_found _ _ country_word_at_shorter _ (trim_start v)).
      * by rewrite Hv.
      * unfold country_word_at, trim_start.
        change (c :: u ++ w ++ v) with ((c :: u) ++ w ++ v).
        rewrite drop_while_app, Hall. fold (trim_start (w ++ v)). by rewrite Hhead, Hw.
    + rewrite replace_each_skip; [by rewrite IH|].
      unfold country_word_at, trim_start.
      change (c :: u ++ w ++ v) with ((c :: u) ++ w ++ v).
      rewrite drop_while_app, Hall.
      assert (Hts : Forall (λ c, country_initial c = false) (drop_while is_space (c :: u))).
      { destruct (drop_while_suffix is_space (c :: u)) as [dropped Hd].
        assert (Hcu : Forall (λ c, country_initial c = false) (c :: u)) by (by constructor).
        rewrite Hd in Hcu. by apply Forall_app in Hcu as [_ ?]. }
      destruct (drop_while is_space (c :: u)) as [|x r] eqn:Hdw.
      * exfalso. clear -Hall Hdw. revert Hall Hdw. generalize (c :: u). intros l.
        induction l as [|y l IHl]; [done|]. simpl. destruct (is_space y); [|done]. auto.
      * apply Forall_cons in Hts as [Hx _]. cbn [app].
        by rewrite strip_first_word_initial.
Qed.

Lemma indicator_free_initial (s : list ascii) :
  indicator_free s → Forall (λ c, country_initial c = false) s.
Proof.
  intros Hs. eapply Forall_impl; [exact Hs|]. simpl.
  intros c Hc. destruct (country_initial c) eqn:Hi; [|done].
  by apply country_initial_letter in Hi.
Qed.

Lemma indicator_free_paren (s : list ascii) : indicator_free s → "("%char ∉ s.
Proof.
  intros Hs Hin. unfold indicator_free in Hs. rewrite Forall_forall in Hs.
  apply (Hs _ Hin). vm_compute.
  repeat first [by apply list_elem_of_here | apply list_elem_of_further].
Qed.

(** A pattern that matches nowhere in the string leaves it as it is. *)
Lemma replace_all_no_match (ci : bool) (r : regex) (repl s : list ascii) :
  (∀ pos t, t `suffix_of` s → exec ci r (pos, t) = None) → replace_all ci r repl s = s.
Proof.
  unfold replace_all. generalize (S (length s)) as fuel. generalize 0%nat as pos.
  intros pos fuel. revert s pos. induction fuel as [|fuel IH]; intros s pos Hnone; [done|].
  cbn [replace_all_from snd fst]. rewrite Hnone by done.
  destruct s as [|c s]; [done|]. f_equal. apply IH.
  intros pos' t Ht. apply Hnone. by apply suffix_cons_r.
Qed.

(** [removeCountryIndicators] on a title without an opening
    parenthesis, without regular expressions. *)
Lemma removeCountryIndicators_spec (title : string) :
  "("%char ∉ chars title →
  removeCountryIndicators title
  = str (normalise_spaces (replace_each country_word_at [] (chars title))).
Proof.
  intros Hparen. unfold removeCountryIndicators, normalise_spaces. cbv zeta.
  rewrite (replace_all_matches true re_country_word country_word_at)
    by (intros; first [by apply exec_country_word | by eapply country_word_at_shorter]).
  set (t := replace_each country_word_at [] (chars title)).
  assert (Ht : "("%char ∉ t).
  { intros Hin. apply Hparen. eapply elem_of_sublist; [done|].
    apply remove_matches_sublist. intros s rest. unfold country_word_at.
    destruct (strip_first_word country_words (trim_start s)) as [rest'|] eqn:Hrest; [|done].
    intros [= <-]. etrans; [apply drop_while_suffix_of|].
    etrans; [|apply (drop_while_suffix_of is_space s)].
    clear -Hrest. revert Hrest. generalize country_words. intros ws.
    induction ws as [|w ws IH]; [done|]. cbn [strip_first_word].
    destruct (strip_word (chars w) (trim_start s)) as [r|] eqn:Hw; [|done].
    intros [= <-]. by eapply strip_word_suffix. }
  rewrite (replace_all_no_match true re_country_paren).
  - rewrite (replace_all_matches false some_spaces spaces_at)
      by (intros; first [by apply exec_some_spaces | by eapply spaces_at_shorter]).
    done.
  - intros pos s Hs. apply exec_country_paren. intros Hin. apply Ht.
    eapply elem_of_sublist; [done|]. by apply suffix_sublist.
Qed.

(** A word is matched on the letters of the text, whatever their case. *)
Lemma strip_word_same (x w v : list ascii) :
  toUpperChar <$> w = toUpperChar <$> x → strip_word x (w ++ v) = Some v.
Proof.
  revert w. induction x as [|a x IH]; intros [|y w] Hw; try done.
  rewrite !fmap_cons in Hw. injection Hw as Hy Hw. cbn [app strip_word].
  rewrite decide_True by done. by apply IH.
Qed.

Lemma strip_word_differs (n : nat) (x w v : list ascii) :
  (n ≤ length w)%nat → (n ≤ length x)%nat →
  take n (toUpperChar <$> w) ≠ take n (toUpperChar <$> x) →
  strip_word x (w ++ v) = None.
Proof.
  revert n w. induction x as [|a x IH]; intros n w Hw Hx Hne.
  - simpl in Hx. assert (n = 0%nat) as -> by lia. by rewrite !take_0 in Hne.
  - destruct n as [|n]; [by rewrite !take_0 in Hne|].
    destruct w as [|y w]; [simpl in Hw; lia|]. cbn [app strip_word].
    case_decide as Hy; [|done]. apply (IH n); [simpl in *; lia..|].
    intros Heq. apply Hne. rewrite !fmap_cons. cbn [take]. by rewrite Hy, Heq.
Qed.

(** The country words other than philippines, which the word ph before
    it in the alternation keeps from matching. *)
Lemma strip_first_word_whole (w v : list ascii) :
  str (toLowerChar <$> w) ∈ ["ph"; "filipino"; "pinoy"; "tagalog"; "tl"] →
  strip_first_word country_words (w ++ v) = Some v ∧ "("%char ∉ w.
Proof.
  intros Hw.
  assert (Hup : ∀ word : string, toLowerChar <$> w = chars word →
            toUpperChar <$> w = toUpperChar <$> chars word ∧ length w = String.length word).
  { intros word Hword. split.
    - rewrite <- Hword, <- list_fmap_compose. apply list_fmap_ext.
      intros _ y _. simpl. by rewrite toUpperChar_toLowerChar.
    - by rewrite <- chars_length, <- Hword, length_fmap. }
  assert (Hparen : ∀ word : string, toLowerChar <$> w = chars word →
            "("%char ∉ chars word → "("%char ∉ w).
  { intros word Hword Hnot Hin. apply Hnot. rewrite <- Hword.
    apply list_elem_of_fmap. by exists "("%char. }
  repeat (apply elem_of_cons in Hw as [Hw|Hw]); [..|by apply elem_of_nil in Hw];
    apply (f_equal chars) in Hw; rewrite chars_str in Hw;
    (split;
     [ destruct (Hup _ Hw) as [Hu Hlen]; unfold country_words; cbn [strip_first_word];
       repeat (rewrite (strip_word_differs 2);
               [|rewrite Hlen; simpl; lia|simpl; lia|rewrite Hu; by vm_compute]);
       by rewrite strip_word_same
     | apply (Hparen _ Hw); vm_compute; intros Hin;
       repeat (apply elem_of_cons in Hin as [Hin|Hin]; [discriminate Hin|]);
       by apply elem_of_nil in Hin ]).
Qed.

(** X11.  [removeCountryIndicators] removes a country word (ph,
    filipino, pinoy, tagalog or tl, in any letter case) wherever it
    stands, inside a word too, together with the whitespace on both
    sides of it: between texts [u] and [v] that hold none of the letters
    p, f, t and no opening parenthesis, what is left is [u] without its
    trailing whitespace joined to [v] without its leading whitespace,
    with whitespace normalised. *)
Theorem removeCountryIndicators_removes_word (u w v : list ascii) :
  indicator_free u → indicator_free v →
  toLowerCase (str w) ∈ ["ph"; "filipino"; "pinoy"; "tagalog"; "tl"] →
  removeCountryIndicators (str (u ++ w ++ v))
  = str (normalise_spaces (trim_end u ++ trim_start v)).
Proof.
  intros Hu Hv Hw. unfold toLowerCase in Hw. rewrite chars_str in Hw.
  apply strip_first_word_whole with (v := v) in Hw as [Hw Hparen].
  rewrite removeCountryIndicators_spec.
  - rewrite chars_str. rewrite replace_country_word_between; [done| |done|].
    + by apply indicator_free_initial.
    + apply replace_country_words_plain.
      destruct (drop_while_suffix is_space v) as [dropped Hd].
      apply indicator_free_initial in Hv. rewrite Hd in Hv.
      by apply Forall_app in Hv as [_ ?].
  - rewrite chars_str. rewrite !elem_of_app.
    intros [Hin|[Hin|Hin]];
      [by apply (indicator_free_paren u)|done|by apply (indicator_free_paren v)].
Qed.

(** ** The word philippines never matches *)

Lemma is_space_upper (c : ascii) : is_space (toUpperChar c) = false → is_space c = false.
Proof.
  intros Hc. destruct (is_space c) eqn:Hs; [|done].
  rewrite is_space_toUpperChar in Hc by done. congruence.
Qed.

Lemma country_word_at_differs (t v : list ascii) :
  t ≠ [] → starts_no_country_word (toUpperChar <$> t) = true →
  country_word_at (t ++ v) = None.
Proof.
  intros Ht [Hhead Hwords]%andb_true_iff. apply negb_true_iff in Hhead.
  destruct t as [|y t]; [done|]. rewrite fmap_cons in Hhead. simpl in Hhead.
  apply is_space_upper in Hhead.
  unfold country_word_at, trim_start. cbn [app drop_while]. rewrite Hhead.
  change (y :: t ++ v) with ((y :: t) ++ v).
  rewrite forallb_forall in Hwords.
  assert (H : ∀ ws, ws ⊆ country_words → strip_first_word ws ((y :: t) ++ v) = None);
    [|by rewrite H].
  induction ws as [|word ws IH]; intros Hsub; [done|]. cbn [strip_first_word].
  rewrite (strip_word_differs
             (Nat.min (length (toUpperChar <$> y :: t)) (String.length word))).
  - apply IH. intros x Hx. apply Hsub. by right.
  - rewrite length_fmap. lia.
  - rewrite chars_length. lia.
  - assert (Hin : In word country_words) by (apply list_elem_of_In, Hsub; left).
    apply Hwords in Hin. cbv zeta in Hin. by apply bool_decide_eq_true in Hin.
Qed.

(** A text is skipped when no country word starts in it. *)
Lemma replace_country_words_skip (r v : list ascii) :
  forallb (λ k, starts_no_country_word (drop k (toUpperChar <$> r))) (seq 0 (length r)) = true →
  replace_each country_word_at [] (r ++ v) = r ++ replace_each country_word_at [] v.
Proof.
  induction r as [|y r IH]; intros Hall; [done|].
  cbn [length seq forallb] in Hall. apply andb_true_iff in Hall as [Hy Hall].
  cbn [app]. rewrite replace_each_skip.
  - f_equal. apply IH. rewrite forallb_forall in *. intros k Hk.
    apply in_seq in Hk. specialize (Hall (S k)). rewrite fmap_cons in Hall. apply Hall.
    apply in_seq. lia.
  - change (y :: r ++ v) with ((y :: r) ++ v). by apply country_word_at_differs.
Qed.

(** X12.  The word philippines of the alternation never matches: ph
    stands before it and matches first.  Of the word Philippines, in
    any letter case, [removeCountryIndicators] removes the first two
    letters and the whitespace before them, and leaves the rest. *)
Theorem removeCountryIndicators_philippines (u w v : list ascii) :
  indicator_free u → indicator_free v →
  toLowerCase (str w) = "philippines" →
  removeCountryIndicators (str (u ++ w ++ v))
  = str (normalise_spaces (trim_end u ++ drop 2 w ++ v)).
Proof.
  intros Hu Hv Hw. unfold toLowerCase in Hw. rewrite chars_str in Hw.
  apply (f_equal chars) in Hw. rewrite chars_str in Hw.
  assert (Hlen : length w = 11%nat) by (by rewrite <- (length_fmap toLowerChar), Hw).
  assert (Hsplit : w = take 2 w ++ drop 2 w) by (by rewrite take_drop).
  assert (Hph : toLowerChar <$> take 2 w = chars "ph").
  { by rewrite fmap_take, Hw. }
  assert (Hrest : toUpperChar <$> drop 2 w = chars "ILIPPINES").
  { rewrite fmap_drop.
    assert (toUpperChar <$> w = toUpperChar <$> (toLowerChar <$> w)) as ->.
    { rewrite <- list_fmap_compose. apply list_fmap_ext. intros _ y _. simpl.
      by rewrite toUpperChar_toLowerChar. }
    by rewrite Hw. }
  assert (Hparen : "("%char ∉ w).
  { intros Hin. apply (list_elem_of_fmap_2 toLowerChar) in Hin. rewrite Hw in Hin.
    vm_compute in Hin.
    repeat (apply elem_of_cons in Hin as [Hin|Hin]; [discriminate Hin|]).
    by apply elem_of_nil in Hin. }
  assert (Hhead : trim_start (drop 2 w ++ v) = drop 2 w ++ v).
  { destruct (drop 2 w) as [|y r]; [done|]. rewrite fmap_cons in Hrest.
    injection Hrest as Hy _. unfold trim_start. cbn [app drop_while].
    rewrite is_space_upper; [done|]. by rewrite Hy. }
  rewrite removeCountryIndicators_spec.
  - rewrite chars_str. rewrite Hsplit at 1. rewrite <- (app_assoc (take 2 w)).
    rewrite replace_country_word_between.
    + by rewrite Hhead.
    + by apply indicator_free_initial.
    + apply strip_first_word_whole. rewrite Hph. left.
    + rewrite Hhead. rewrite replace_country_words_skip.
      * f_equal. apply replace_country_words_plain. by apply indicator_free_initial.
      * rewrite Hrest, length_drop, Hlen. by vm_compute.
  - rewrite chars_str. rewrite !elem_of_app.
    intros [Hin|[Hin|Hin]];
      [by apply (indicator_free_paren u)|done|by apply (indicator_free_paren v)].
Qed.

Lemma removeCountryIndicators_removes_word_witness :
  removeCountryIndicators "Alpha" = "Ala".
Proof.
  apply (removeCountryIndicators_removes_word (chars "Al") (chars "ph") (chars "a")).
  - unfold indicator_free. by apply (bool_decide_unpack _).
  - unfold indicator_free. by apply (bool_decide_unpack _).
  - left.
Defined.

Lemma removeCountryIndicators_philippines_witness :
  removeCountryIndicators "My Show Philippines" = "My Showilippines".
Proof.
  apply (removeCountryIndicators_philippines (chars "My Show ") (chars "Philippines") []).
  - unfold indicator_free. by apply (bool_decide_unpack _).
  - constructor.
  - reflexivity.
Defined.

(** ** Titles that need no cleaning *)

Lemma trim_start_id (s : list ascii) :
  is_space (default "x"%char (head s)) = false → trim_start s = s.
Proof. destruct s as [|c s]; [done|]. simpl. unfold trim_start. simpl. by intros ->. Qed.

Lemma collapse_tidy_id (s : list ascii) :
  single_spaced s → replace_each spaces_at [" "%char] s = s.
Proof.
  induction s as [|c s IH]; intros Hs; [by apply replace_each_nil, spaces_at_shorter|].
  destruct Hs as [Hc Hs]. destruct (is_space c) eqn:Hspace.
  - destruct (Hc eq_refl) as [-> Hnext].
    rewrite (replace_each_found _ _ spaces_at_shorter _ s).
    + by rewrite IH.
    + unfold spaces_at. rewrite Hspace. by rewrite trim_start_id.
  - rewrite replace_each_skip; [by rewrite IH|]. unfold spaces_at. by rewrite Hspace.
Qed.

Lemma trim_chars_tidy_id (s : list ascii) : tidy s → trim_chars s = s.
Proof.
  intros (_ & Hhead & Hlast). unfold trim_chars. rewrite (trim_start_id s) by done.
  rewrite trim_start_id; [apply reverse_involutive|]. by rewrite head_reverse.
Qed.

Lemma normalise_spaces_tidy_id (s : list ascii) : tidy s → normalise_spaces s = s.
Proof.
  intros Ht. unfold normalise_spaces. rewrite collapse_tidy_id by apply Ht.
  by apply trim_chars_tidy_id.
Qed.

Lemma group_at_absent (open close : ascii) (s : list ascii) :
  open ∉ s → group_at open close s = None.
Proof.
  intros Hopen. unfold group_at.
  pose proof (drop_while_suffix_of is_space s) as Hts. fold (trim_start s) in Hts.
  destruct (trim_start s) as [|c rest]; [done|]. case_decide as Hc; [|done].
  subst c. exfalso. apply Hopen. eapply elem_of_sublist; [|by apply suffix_sublist]. left.
Qed.

Lemma numbered_at_no_digit (w : string) (s : list ascii) :
  Forall (λ c, is_digit c = false) s → numbered_at w s = None.
Proof.
  intros Hs. unfold numbered_at.
  destruct (strip_word (chars w) s) as [[|c r]|] eqn:Hword; try done.
  apply strip_word_suffix in Hword. destruct (is_space c); [|done].
  pose proof (drop_while_suffix_of is_space r) as Hts. fold (trim_start r) in Hts.
  destruct (trim_start r) as [|d after]; [done|]. destruct (is_digit d) eqn:Hd; [|done].
  exfalso. rewrite Forall_forall in Hs. rewrite (Hs d) in Hd; [done|].
  eapply elem_of_sublist; [|apply suffix_sublist, Hword]. right.
  eapply elem_of_sublist; [|apply suffix_sublist, Hts]. left.
Qed.

Lemma cleanTitleForSearch_plain (title : string) :
  tidy (chars title) →
  Forall (λ c, is_digit c = false) (chars title) →
  "("%char ∉ chars title → "["%char ∉ chars title →
  cleanTitleForSearch title = title.
Proof.
  intros Ht Hd Hp Hb. rewrite cleanTitleForSearch_scan. unfold normalise_title.
  cbv zeta.
  assert (strip_leading_number (chars title) = chars title) as ->.
  { unfold strip_leading_number. destruct (chars title) as [|d rest]; [done|].
    apply Forall_cons in Hd as [-> _]. done. }
  rewrite (replace_each_none (group_at "(" ")") [] (group_at_shorter "(" ")")).
  2:{ intros t Ht'. apply group_at_absent. intros Hin. apply Hp.
      eapply elem_of_sublist; [done|]. by apply suffix_sublist. }
  rewrite (replace_each_none (group_at "[" "]") [] (group_at_shorter "[" "]")).
  2:{ intros t Ht'. apply group_at_absent. intros Hin. apply Hb.
      eapply elem_of_sublist; [done|]. by apply suffix_sublist. }
  assert (Hnum : ∀ w t, t `suffix_of` chars title → numbered_at w t = None).
  { intros w t [dropped Ht']. apply numbered_at_no_digit. rewrite Ht' in Hd.
    by apply Forall_app in Hd as [_ ?]. }
  rewrite (replace_each_none (numbered_at "season") [] (numbered_at_shorter "season"))
    by (intros; by apply Hnum).
  rewrite (replace_each_none (numbered_at "series") [] (numbered_at_shorter "series"))
    by (intros; by apply Hnum).
  fold (normalise_spaces (chars title)). rewrite normalise_spaces_tidy_id by done.
  apply str_chars.
Qed.

Lemma removeCountryIndicators_plain (title : string) :
  tidy (chars title) → indicator_free (chars title) →
  removeCountryIndicators title = title.
Proof.
  intros Ht Hfree. rewrite removeCountryIndicators_spec by (by apply indicator_free_paren).
  rewrite replace_country_words_plain by (by apply indicator_free_initial).
  rewrite normalise_spaces_tidy_id by done. apply str_chars.
Qed.

(** X13.  A title that needs no cleaning (trimmed, single-spaced,
    without digits, parentheses, brackets and the letters p, f, t) is
    left as it is by [cleanTitleForSearch] and by
    [removeCountryIndicators]; when it has three words at most, the four
    strategies of [searchTMDB] all send it as their query, the first one
    with the region. *)
Theorem searchStrategies_plain_title (title countryCode : string) :
  plain_title title → (count_spaces (chars title) ≤ 2)%nat →
  cleanTitleForSearch title = title
  ∧ removeCountryIndicators title = title
  ∧ searchStrategies title countryCode
    = [ {| strategy_query := title; strategy_region := Some countryCode |};
        {| strategy_query := title; strategy_region := None |};
        {| strategy_query := title; strategy_region := None |};
        {| strategy_query := title; strategy_region := None |} ].
Proof.
  intros [Ht Hc] Hwords.
  assert (Hclean : cleanTitleForSearch title = title).
  { apply cleanTitleForSearch_plain; [done|..].
    - eapply Forall_impl; [exact Hc|]. by intros c [? _].
    - intros Hin. rewrite Forall_forall in Hc. apply (Hc _ Hin). left.
    - intros Hin. rewrite Forall_forall in Hc. apply (Hc _ Hin). right. left. }
  assert (Hcountry : removeCountryIndicators title = title).
  { apply removeCountryIndicators_plain; [done|].
    eapply Forall_impl; [exact Hc|]. simpl. intros c [_ Hnot] Hin. apply Hnot.
    cbn [chars String.list_ascii_of_string] in *.
    repeat (apply elem_of_cons in Hin as [->|Hin]); [..|by apply elem_of_nil in Hin];
      repeat first [by apply list_elem_of_here | apply list_elem_of_further]. }
  split; [done|]. split; [done|].
  unfold searchStrategies. cbv zeta. rewrite Hclean, Hcountry.
  by rewrite first_three_words_short.
Qed.

Lemma searchStrategies_plain_title_witness :
  searchStrategies "My Show" "PH"
  = [ {| strategy_query := "My Show"; strategy_region := Some "PH" |};
      {| strategy_query := "My Show"; strategy_region := None |};
      {| strategy_query := "My Show"; strategy_region := None |};
      {| strategy_query := "My Show"; strategy_region := None |} ].
Proof.
  apply (searchStrategies_plain_title "My Show" "PH").
  - split.
    + split; [|split]; [|reflexivity..]. simpl. repeat split; discriminate.
    + by apply (bool_decide_unpack _).
  - vm_compute. lia.
Defined.

(** ** The calls and pauses of a search *)

Lemma searches_app (l k : list Event) : searches (l ++ k) = (searches l + searches k)%nat.
Proof. unfold searches. by rewrite List.filter_app, length_app. Qed.

Lemma pauses_app (ms : Z) (l k : list Event) :
  pauses ms (l ++ k) = (pauses ms l + pauses ms k)%nat.
Proof. unfold pauses. by rewrite List.filter_app, length_app. Qed.

Lemma returned_candidates_app (l k : list Event) :
  returned_candidates (l ++ k) = returned_candidates l ++ returned_candidates k.
Proof. unfold returned_candidates. by rewrite flat_map_app. Qed.

Lemma failed_events_counts (failed : list (Request * Outcome)) :
  searches (failed_events failed) = length failed
  ∧ pauses 100 (failed_events failed) = length failed
  ∧ pauses 150 (failed_events failed) = 0%nat
  ∧ pauses 200 (failed_events failed) = 0%nat
  ∧ length (failed_events failed) = (2 * length failed)%nat.
Proof.
  induction failed as [|[request outcome] failed (Hs & H100 & H150 & H200 & Hlen)];
    [done|].
  unfold searches, pauses in *. simpl. rewrite Hs, H100, H150, H200, Hlen.
  repeat split; lia.
Qed.

Lemma findBestMatch_elem `{Calendar} (results : list Candidate.t)
    (originalTitle countryCode mediaType : string) (best : Scored) :
  findBestMatch results originalTitle countryCode mediaType = Some best → best.1 ∈ results.
Proof.
  unfold findBestMatch. case_decide; [done|]. cbv zeta.
  intros Hhead. apply head_by_score_first in Hhead as (i & Hi & _).
  rewrite list_lookup_fmap in Hi.
  destruct (filter_results mediaType results !! i) as [r|] eqn:Hr; [|done].
  injection Hi as <-. eapply filter_results_subset, list_elem_of_lookup_2, Hr.
Qed.

(** What one run of [searchTMDB] does. *)
Lemma searchTMDB_events `{Host} (this : ScraperService)
    (title mediaType countryCode : string) (st : World * list Event) :
  ∃ (result : option TmdbData) (events : list Event) (w : World),
    searchTMDB this title mediaType countryCode st = (Ok result, (w, st.2 ++ events))
    ∧ (searches events ≤ 4)%nat
    ∧ (pauses 100 events ≤ searches events)%nat
    ∧ pauses 150 events = 0%nat
    ∧ pauses 200 events = 0%nat
    ∧ length events = (searches events + pauses 100 events)%nat
    ∧ (truthy (tmdbApiKey this) = false → result = None ∧ events = [] ∧ w = st.1)
    ∧ (∀ data, result = Some data →
         ∃ candidate, candidate ∈ returned_candidates events
                      ∧ tmdb_id data = Candidate.id candidate).
Proof.
  destruct (truthy (tmdbApiKey this)) eqn:Hkey.
  - rewrite searchTMDB_with_key by done.
    destruct (strategy_loop_spec this title mediaType countryCode
                (searchStrategies title countryCode) 0 st)
      as (failed & _ & _ & Hrun).
    cbv zeta in Hrun.
    destruct (strategy_loop this title mediaType countryCode 0
                (searchStrategies title countryCode) st) as [r [w log]] eqn:Hloop.
    cbn [fst snd] in Hrun.
    pose proof (failed_events_counts failed) as (Hs & H100 & H150 & H200 & Hlen).
    destruct Hrun as [(-> & Hn & -> & _)
                     |(request & results & best & Hreq & Hne & Hbest & -> & -> & _)].
    + exists None, (failed_events failed), w. split; [done|].
      rewrite Hs, H100, H150, H200, Hlen. simpl in Hn.
      repeat split; try lia; done.
    + apply lookup_lt_Some in Hreq. rewrite length_fmap in Hreq. simpl in Hreq.
      eexists _, _, w. split; [done|].
      rewrite !searches_app, !pauses_app, Hs, H100, H150, H200, length_app, Hlen.
      unfold searches, pauses. simpl.
      split; [lia|]. split; [lia|]. split; [lia|]. split; [lia|]. split; [lia|].
      split; [done|]. intros data [= <-]. exists best.1. split; [|done].
      rewrite returned_candidates_app. apply elem_of_app. right. simpl.
      rewrite app_nil_r. by eapply findBestMatch_elem.
  - rewrite searchTMDB_without_key by done. exists None, [], st.1.
    rewrite app_nil_r. destruct st. repeat split; try done; unfold searches, pauses; simpl; lia.
Qed.

(** ** searchTMDB: the strategies in their order *)


Lemma calls_app (l k : list Event) : calls (l ++ k) = calls l ++ calls k.
Proof. apply omap_app. Qed.

Lemma calls_failed_events (failed : list (Request * Outcome)) :
  calls (failed_events failed) = failed.
Proof.
  induction failed as [|[request outcome] failed IH]; [done|].
  change (failed_events ((request, outcome) :: failed))
    with ([Searched request outcome; Waited 100] ++ failed_events failed).
  by rewrite calls_app, IH.
Qed.







(** C8.  [searchTMDB] returns and never throws, whatever the calls of
    the search API do.  A call that throws counts for a call that
    returns no result: against the host [hushed H], where every call
    that would throw returns an empty list instead, the run has the same
    result, ends in the same world and logs the same calls and pauses.
    With an API key the first strategy is called, and after a call that
    threw or gave no candidate the run pauses and goes on with the call
    for the next strategy, as long as there is one: the calls that gave
    nothing, [failed], are the requests of the first strategies in their
    order, and either all four strategies are among them and the result
    is null, or the next strategy was called, gave candidates, and the
    result is a match that names it.  So the result is null exactly when
    no call of the run gave a candidate.  Without an API key nothing is
    called and the result is null. *)
Theorem searchTMDB_never_throws (H : Host) (this : ScraperService)
    (title mediaType countryCode : string) (st : @World H * list Event) :
  let run := @searchTMDB H this title mediaType countryCode st in
  let requests := search_request this mediaType <$> searchStrategies title countryCode in
  ∃ (result : option TmdbData) (events : list Event),
    run.1 = Ok result
    ∧ run.2.2 = st.2 ++ events
    ∧ @consistent H events st.1 run.2.1
    ∧ (result = None ↔
       ∀ request outcome, Searched request outcome ∈ events → unproductive outcome)
    ∧ @searchTMDB (hushed H) this title mediaType countryCode st
      = (Ok result, (run.2.1, st.2 ++ (hush_event <$> events)))
    ∧ length requests = 4%nat
    ∧ (∀ (n : nat) request message next,
         calls events !! n = Some (request, Threw message) →
         requests !! S n = Some next →
         ∃ outcome, calls events !! S n = Some (next, outcome))
    ∧ if truthy (tmdbApiKey this) then
        ∃ failed : list (Request * Outcome),
          Forall (λ call, unproductive call.2) failed
          ∧ failed.*1 = take (length failed) requests
          ∧ ((result = None
              ∧ length failed = 4%nat
              ∧ events = failed_events failed)
             ∨ ∃ request results data,
                 requests !! length failed = Some request
                 ∧ results ≠ []
                 ∧ result = Some data
                 ∧ search_strategy_used data = Z.of_nat (length failed) + 1
                 ∧ events = failed_events failed
                              ++ [Searched request (Responded (Some results))])
      else result = None ∧ events = [].
Proof.
  cbv zeta. destruct st as [w log].
  assert (Hfour : length (search_request this mediaType <$> searchStrategies title countryCode)
                  = 4%nat) by done.
  destruct (truthy (tmdbApiKey this)) eqn:Hkey.
  - rewrite (@searchTMDB_with_key H), (@searchTMDB_with_key (hushed H)) by done.
    destruct (strategy_loop_hushed H this title mediaType countryCode
                (searchStrategies title countryCode) 0 w log log) as (events & Hlog & Hquiet).
    destruct (@strategy_loop_spec H this title mediaType countryCode
                (searchStrategies title countryCode) 0 (w, log))
      as (failed & Hfailed & Hreqs & Hrun).
    cbv zeta in Hrun. cbn [fst snd] in Hrun.
    set (requests := search_request this mediaType <$> searchStrategies title countryCode) in *.
    assert (Hnth : ∀ n call, failed !! n = Some call → requests !! n = Some call.1).
    { intros n call Hcall.
      assert (Hn : failed.*1 !! n = Some call.1) by (by rewrite list_lookup_fmap, Hcall).
      rewrite Hreqs in Hn. by apply lookup_take_Some in Hn as [Hn _]. }
    destruct Hrun as [(Hnone & Hlen & Hlog' & Hcons)
                     |(request & results & best & Hreq & Hne & _ & Hsome & Hlog' & Hcons)].
    + exists None, events. rewrite Hlog' in Hlog. apply app_inv_head in Hlog. subst events.
      split; [done|]. split; [done|]. split; [done|]. split; [|split; [|split; [done|split]]].
      * split; [|done]. intros _ request outcome Hin.
        apply failed_events_searched in Hin. rewrite Forall_forall in Hfailed.
        by apply (Hfailed (request, outcome)).
      * by rewrite Hquiet, Hnone.
      * intros n request message next Hcall Hnext. rewrite calls_failed_events in *.
        assert (Hlen4 : length failed = 4%nat) by exact Hlen.
        apply lookup_lt_Some in Hnext as Hlt. rewrite Hfour, <- Hlen4 in Hlt.
        destruct (lookup_lt_is_Some_2 failed (S n) Hlt) as [[next' outcome] Hcall'].
        exists outcome. apply Hnth in Hcall' as Hreq. cbn [fst] in Hreq.
        rewrite Hnext in Hreq. by injection Hreq as <-.
      * exists failed. split; [done|]. split; [done|]. by left.
    + eexists _, events. rewrite Hlog' in Hlog. apply app_inv_head in Hlog. subst events.
      split; [exact Hsome|]. split; [done|]. split; [done|].
      split; [|split; [|split; [done|split]]].
      * split; [done|]. intros Hall.
        specialize (Hall request (Responded (Some results))).
        simpl in Hall. destruct Hne. apply Hall.
        apply elem_of_app. right. left.
      * by rewrite Hquiet, Hsome.
      * intros n request' message next Hcall Hnext.
        rewrite calls_app, calls_failed_events in *. cbn [calls omap] in *.
        change (omap _ []) with (@nil (Request * Outcome)) in *.
        assert (Hn : (n < length failed)%nat).
        { apply lookup_lt_Some in Hcall as Hlt. rewrite length_app in Hlt. simpl in Hlt.
          destruct (decide (n = length failed)) as [->|]; [|lia].
          rewrite lookup_app_r, Nat.sub_diag in Hcall by lia. by simpl in Hcall. }
        destruct (decide (S n = length failed)) as [Heq|Hne'].
        -- exists (Responded (Some results)).
           rewrite lookup_app_r, Heq, Nat.sub_diag by lia. simpl.
           rewrite Heq in Hnext. congruence.
        -- assert (Hlt : (S n < length failed)%nat) by lia.
           destruct (lookup_lt_is_Some_2 failed (S n) Hlt) as [[next' outcome] Hcall'].
           exists outcome. rewrite lookup_app_l by lia.
           apply Hnth in Hcall' as Hreq'. cbn [fst] in Hreq'.
           rewrite Hnext in Hreq'. by injection Hreq' as <-.
      * exists failed. split; [done|]. split; [done|]. right.
        exists request, results, (tmdb_data best mediaType (0 + Z.of_nat (length failed))).
        split; [done|]. split; [done|]. split; [done|]. split; [simpl; lia|done].
  - rewrite (@searchTMDB_without_key H), (@searchTMDB_without_key (hushed H)) by done.
    exists None, []. simpl. rewrite app_nil_r.
    split; [done|]. split; [done|]. split; [done|]. split; [|split; [done|split; [done|split]]].
    + split; [|done]. intros _ request outcome Hin. by apply elem_of_nil in Hin.
    + intros n request message next Hcall. done.
    + done.
Qed.

(** ** enrichWithTMDB and batchGetTMDBIds *)

Lemma enrich_item_events `{Host} (this : ScraperService) (countryCode : string)
    (item : Item.t) (st : World * list Event) :
  ∃ (enriched : Item.t) (events : list Event) (w : World),
    enrich_item this countryCode item st = (Ok enriched, (w, st.2 ++ events))
    ∧ (searches events ≤ 8)%nat
    ∧ (pauses 100 events ≤ searches events)%nat
    ∧ pauses 150 events = 0%nat
    ∧ pauses 200 events = 0%nat
    ∧ length events = (searches events + pauses 100 events)%nat
    ∧ (truthy (tmdbApiKey this) = false → events = []).
Proof.
  unfold enrich_item. cbv zeta. unfold mbind at 1, M_bind at 1.
  set (mediaType := if decide (Item.category item = "Movie") then "movie" else "tv").
  destruct (searchTMDB_events this (Item.title item) mediaType countryCode st)
    as (found1 & ev1 & w1 & -> & Hs1 & Hp1 & H150 & H200 & Hlen1 & Hkey1 & _).
  destruct found1 as [data|].
  - exists (with_tmdb item (Some data)), ev1, w1. split; [done|].
    repeat split; try done; try lia. intros Hkey. by apply Hkey1.
  - unfold mbind, M_bind.
    destruct (searchTMDB_events this (Item.title item) "multi" countryCode (w1, st.2 ++ ev1))
      as (found2 & ev2 & w2 & -> & Hs2 & Hp2 & H150' & H200' & Hlen2 & Hkey2 & _).
    exists (with_tmdb (with_tmdb item None) found2), (ev1 ++ ev2), w2.
    cbn [fst snd]. rewrite <- app_assoc. split; [done|].
    rewrite !searches_app, !pauses_app, length_app.
    repeat split; try lia.
    intros Hkey. destruct (Hkey1 Hkey) as (_ & -> & _).
    by destruct (Hkey2 Hkey) as (_ & -> & _).
Qed.

Lemma enrich_loop_events `{Host} (this : ScraperService) (countryCode : string)
    (items enrichedItems : list Item.t) (st : World * list Event) :
  ∃ events : list Event,
    (enrich_loop this countryCode items enrichedItems st).2.2 = st.2 ++ events
    ∧ pauses 200 events = length items
    ∧ (searches events ≤ 8 * length items)%nat
    ∧ (pauses 100 events ≤ searches events)%nat
    ∧ pauses 150 events = 0%nat
    ∧ length events = (searches events + pauses 100 events + pauses 200 events)%nat.
Proof.
  revert enrichedItems st. induction items as [|item later IH]; intros enrichedItems st.
  - exists []. simpl. by rewrite app_nil_r.
  - cbn [enrich_loop]. unfold mbind at 1, M_bind at 1.
    destruct (enrich_item_events this countryCode item st)
      as (enriched & ev & w & -> & Hs & Hp & H150 & H200 & Hlen & _).
    cbv zeta. unfold mbind at 1, M_bind at 1, wait at 1. cbn [fst snd].
    match goal with |- context [enrich_loop _ _ _ ?acc ?s] =>
      destruct (IH acc s) as (events & -> & H200' & Hs' & Hp' & H150' & Hlen')
    end.
    exists (ev ++ [Waited 200] ++ events). cbn [snd]. rewrite <- !app_assoc.
    split; [done|].
    rewrite !searches_app, !pauses_app, !length_app.
    change (searches [Waited 200]) with 0%nat.
    change (pauses 100 [Waited 200]) with 0%nat.
    change (pauses 150 [Waited 200]) with 0%nat.
    change (pauses 200 [Waited 200]) with 1%nat.
    cbn [length]. repeat split; lia.
Qed.

Lemma getTMDBIdOnly_events `{Host} (this : ScraperService)
    (title mediaType countryCode : string) (st : World * list Event) :
  ∃ (tmdbId : option Z) (events : list Event) (w : World),
    getTMDBIdOnly this title mediaType countryCode st = (Ok tmdbId, (w, st.2 ++ events))
    ∧ (searches events ≤ 4)%nat
    ∧ (pauses 100 events ≤ searches events)%nat
    ∧ pauses 150 events = 0%nat
    ∧ length events = (searches events + pauses 100 events)%nat
    ∧ (truthy (tmdbApiKey this) = false → tmdbId = None ∧ events = [])
    ∧ (∀ id, tmdbId = Some id →
         ∃ candidate, candidate ∈ returned_candidates events ∧ id = Candidate.id candidate).
Proof.
  unfold getTMDBIdOnly, mbind, M_bind.
  destruct (searchTMDB_events this title mediaType countryCode st)
    as (result & events & w & -> & Hs & Hp & H150 & _ & Hlen & Hkey & Hid).
  eexists _, events, w. split; [done|].
  split; [done|]. split; [done|]. split; [done|]. split; [done|]. split.
  - intros Hno. by destruct (Hkey Hno) as (-> & -> & _).
  - intros id Hsome. destruct result as [data|]; [|done]. injection Hsome as <-.
    by apply Hid.
Qed.

Lemma batch_loop_events `{Host} (this : ScraperService) (mediaType countryCode : string)
    (titles : list string) (i : nat) (remaining : list string) (results : list IdResult)
    (st : World * list Event) :
  (i + length remaining = length titles)%nat →
  ∃ (ids : list (option Z)) (events : list Event) (w : World),
    batch_loop this mediaType countryCode titles i remaining results st
    = (Ok (results ++ zip_with Build_IdResult remaining ids), (w, st.2 ++ events))
    ∧ length ids = length remaining
    ∧ pauses 150 events = (length remaining - 1)%nat
    ∧ (searches events ≤ 4 * length remaining)%nat
    ∧ (pauses 100 events ≤ searches events)%nat
    ∧ length events = (searches events + pauses 100 events + pauses 150 events)%nat
    ∧ (truthy (tmdbApiKey this) = false →
       ids = replicate (length remaining) None
       ∧ events = replicate (length remaining - 1) (Waited 150))
    ∧ (∀ id, Some id ∈ ids →
         ∃ candidate, candidate ∈ returned_candidates events ∧ id = Candidate.id candidate).
Proof.
  revert i results st. induction remaining as [|title later IH]; intros i results st Hi.
  - exists [], [], st.1. simpl. rewrite !app_nil_r. destruct st.
    repeat split; try done. intros id Hin. by apply elem_of_nil in Hin.
  - cbn [batch_loop]. unfold mbind at 1, M_bind at 1.
    destruct (getTMDBIdOnly_events this title mediaType countryCode st)
      as (tmdbId & ev & w & -> & Hs & Hp & H150 & Hlen & Hkey & Hid).
    cbv zeta. unfold mbind at 1, M_bind at 1. cbn [length] in Hi.
    set (pause := if decide (i < length titles - 1)%nat then [Waited 150] else []).
    assert (Hpause : ∃ w', (if decide (i < length titles - 1)%nat then wait 150 else mret ())
                             (w, st.2 ++ ev) = (Ok (), (w', st.2 ++ ev ++ pause))
                           ∧ length pause = (if decide (later = []) then 0 else 1)%nat).
    { unfold pause. destruct (decide (i < length titles - 1)%nat) as [Hlt|Hge].
      - eexists. unfold wait. cbn [fst snd]. rewrite <- app_assoc. split; [done|].
        destruct later; [simpl in Hi; lia|done].
      - eexists. rewrite app_nil_r. split; [done|].
        destruct later; [done|simpl in Hi; lia]. }
    destruct Hpause as (w' & -> & Hplen).
    destruct (IH (S i) (results ++ [{| id_title := title; id_tmdb_id := tmdbId |}])
                (w', st.2 ++ ev ++ pause) ltac:(lia))
      as (ids & events & w'' & -> & Hids & H150' & Hs' & Hp' & Hlen' & Hkey' & Hid').
    exists (tmdbId :: ids), (ev ++ pause ++ events), w''. cbn [fst snd zip_with].
    rewrite <- !app_assoc. split; [done|].
    assert (Hpc : searches pause = 0%nat ∧ pauses 100 pause = 0%nat
                  ∧ pauses 150 pause = length pause).
    { unfold pause. by destruct (decide _). }
    destruct Hpc as (Hps & Hp100 & Hp150).
    rewrite !searches_app, !pauses_app, !length_app, Hps, Hp100, Hp150, Hplen.
    cbn [length]. split; [lia|].
    split; [destruct (decide (later = [])) as [->|Hne]; [simpl in *; lia|];
            destruct later; [done|simpl in *; lia]|].
    split; [lia|]. split; [lia|].
    split; [destruct (decide (later = [])); lia|]. split.
    + intros Hno. destruct (Hkey Hno) as [-> ->]. destruct (Hkey' Hno) as [-> ->].
      split; [done|]. cbn [app]. unfold pause.
      destruct later as [|t later]; [by destruct (decide _)|].
      rewrite decide_True by (simpl in Hi; lia). simpl. by rewrite Nat.sub_0_r.
    + intros id Hin. apply elem_of_cons in Hin as [Hin|Hin].
      * destruct (Hid id (eq_sym Hin)) as (candidate & Hc & ->).
        exists candidate. split; [|done]. rewrite returned_candidates_app.
        apply elem_of_app. by left.
      * destruct (Hid' id Hin) as (candidate & Hc & ->).
        exists candidate. split; [|done]. rewrite !returned_candidates_app.
        apply elem_of_app. right. apply elem_of_app. by right.
Qed.

(** X15.  [batchGetTMDBIds] returns, without an exception, one record
    per title, in the order of the titles and with the titles as given.
    An id it reports is the id of a candidate that a call of the run
    returned; without an API key every id is null. *)
Theorem batchGetTMDBIds_one_result_per_title `{Host} (this : ScraperService)
    (titles : list string) (mediaType countryCode : string) (st : World * list Event) :
  let run := batchGetTMDBIds this titles mediaType countryCode st in
  ∃ (results : list IdResult) (events : list Event),
    run.1 = Ok results
    ∧ run.2.2 = st.2 ++ events
    ∧ id_title <$> results = titles
    ∧ (∀ id, Some id ∈ id_tmdb_id <$> results →
         ∃ candidate, candidate ∈ returned_candidates events ∧ id = Candidate.id candidate)
    ∧ (truthy (tmdbApiKey this) = false →
       id_tmdb_id <$> results = replicate (length titles) None).
Proof.
  cbv zeta. unfold batchGetTMDBIds.
  destruct (batch_loop_events this mediaType countryCode titles 0 titles [] st eq_refl)
    as (ids & events & w & -> & Hids & _ & _ & _ & _ & Hkey & Hid).
  assert (Hzip : id_title <$> zip_with Build_IdResult titles ids = titles
                 ∧ id_tmdb_id <$> zip_with Build_IdResult titles ids = ids).
  { clear -Hids. revert ids Hids. induction titles as [|t titles IH]; intros [|i ids] Hids;
      try done. simpl in Hids. destruct (IH ids ltac:(lia)) as [Ht Hi].
    cbn [zip_with]. rewrite !fmap_cons. cbn [id_title id_tmdb_id]. by rewrite Ht, Hi. }
  destruct Hzip as [Ht Hi].
  eexists _, events. cbn [fst snd app]. rewrite Ht, Hi.
  repeat split; try done. intros Hno. by destruct (Hkey Hno) as [-> _].
Qed.

(** ** The logs of enrichWithTMDB and batchGetTMDBIds, call by call *)

Lemma paced_app (l k : list Event) : paced l → paced k → paced (l ++ k).
Proof.
  induction 1 as [|request outcome events Hout _ IH|request outcome events Hout _ IH];
    intros Hk; simpl; [done|apply paced_found; auto|apply paced_failed; auto].
Qed.

Lemma paced_failed_events (failed : list (Request * Outcome)) :
  Forall (λ call, unproductive call.2) failed → paced (failed_events failed).
Proof.
  induction 1 as [|[request outcome] failed Hcall _ IH]; [constructor|].
  simpl. by apply paced_failed.
Qed.

Lemma searches_for_app this title countryCode mediaTypes (l k : list Event) :
  searches_for this title countryCode mediaTypes l →
  searches_for this title countryCode mediaTypes k →
  searches_for this title countryCode mediaTypes (l ++ k).
Proof. unfold searches_for. rewrite calls_app. apply Forall_app_2. Qed.

Lemma searches_for_more this title countryCode (mediaTypes mediaTypes' : list string)
    (log : list Event) :
  mediaTypes ⊆ mediaTypes' →
  searches_for this title countryCode mediaTypes log →
  searches_for this title countryCode mediaTypes' log.
Proof.
  intros Hsub Hlog. unfold searches_for in *. eapply Forall_impl; [exact Hlog|].
  intros call (mediaType & Hin & Hcall). exists mediaType. split; [by apply Hsub|done].
Qed.

(** The log of one run of [searchTMDB]. *)
Lemma searchTMDB_paced `{Host} (this : ScraperService)
    (title mediaType countryCode : string) (st : World * list Event) :
  ∃ events : list Event,
    (searchTMDB this title mediaType countryCode st).2.2 = st.2 ++ events
    ∧ paced events
    ∧ (searches events ≤ 4)%nat
    ∧ searches_for this title countryCode [mediaType] events.
Proof.
  destruct (truthy (tmdbApiKey this)) eqn:Hkey.
  - rewrite searchTMDB_with_key by done.
    destruct (strategy_loop_spec this title mediaType countryCode
                (searchStrategies title countryCode) 0 st)
      as (failed & Hfailed & Hreqs & Hrun).
    cbv zeta in Hrun.
    set (requests := search_request this mediaType <$> searchStrategies title countryCode) in *.
    pose proof (failed_events_counts failed) as (Hs & _).
    assert (Hfor : searches_for this title countryCode [mediaType] (failed_events failed)).
    { unfold searches_for. rewrite calls_failed_events. apply Forall_forall.
      intros call Hcall. exists mediaType. split; [left|]. fold requests.
      assert (Hin : call.1 ∈ failed.*1) by (by apply list_elem_of_fmap_2).
      rewrite Hreqs in Hin. apply elem_of_take in Hin as (n & Hn & _).
      by eapply list_elem_of_lookup_2. }
    destruct Hrun as [(_ & Hn & Hlog & _)
                     |(request & results & best & Hreq & Hne & _ & _ & Hlog & _)].
    + exists (failed_events failed). split; [done|].
      split; [by apply paced_failed_events|]. split; [|done].
      rewrite Hs. simpl in Hn. lia.
    + exists (failed_events failed ++ [Searched request (Responded (Some results))]).
      split; [done|]. split; [|split].
      * apply paced_app; [by apply paced_failed_events|].
        apply paced_found; [|constructor]. simpl. done.
      * apply lookup_lt_Some in Hreq. unfold requests in Hreq.
        rewrite length_fmap in Hreq. simpl in Hreq.
        rewrite searches_app, Hs. unfold searches. simpl. lia.
      * apply searches_for_app; [done|]. unfold searches_for, calls. simpl.
        apply Forall_singleton. exists mediaType. split; [left|].
        by eapply list_elem_of_lookup_2.
  - rewrite searchTMDB_without_key by done. exists []. rewrite app_nil_r.
    split; [done|]. split; [constructor|]. split; [unfold searches; simpl; lia|].
    unfold searches_for. constructor.
Qed.

(** The media type of the first search for an entry. *)
Lemma enrich_item_paced `{Host} (this : ScraperService) (countryCode : string)
    (item : Item.t) (st : World * list Event) :
  let mediaType := if decide (Item.category item = "Movie") then "movie" else "tv" in
  ∃ events : list Event,
    (enrich_item this countryCode item st).2.2 = st.2 ++ events
    ∧ paced events
    ∧ (searches events ≤ 8)%nat
    ∧ searches_for this (Item.title item) countryCode [mediaType; "multi"] events.
Proof.
  cbv zeta. unfold enrich_item. cbv zeta. unfold mbind at 1, M_bind at 1.
  set (mediaType := if decide (Item.category item = "Movie") then "movie" else "tv").
  destruct (searchTMDB_paced this (Item.title item) mediaType countryCode st)
    as (ev1 & Hlog1 & Hp1 & Hs1 & Hf1).
  destruct (searchTMDB_Ok this (Item.title item) mediaType countryCode st) as [found1 Hok1].
  destruct (searchTMDB this (Item.title item) mediaType countryCode st)
    as [r1 [w1 log1]] eqn:Hrun1.
  cbn [fst snd] in Hlog1, Hok1. subst r1 log1.
  assert (Hf1' : searches_for this (Item.title item) countryCode [mediaType; "multi"] ev1).
  { eapply searches_for_more; [|exact Hf1]. intros m ->%list_elem_of_singleton. left. }
  destruct found1 as [data|].
  - exists ev1. cbn. split; [done|]. split; [done|]. split; [lia|done].
  - unfold mbind, M_bind.
    destruct (searchTMDB_paced this (Item.title item) "multi" countryCode (w1, st.2 ++ ev1))
      as (ev2 & Hlog2 & Hp2 & Hs2 & Hf2).
    destruct (searchTMDB_Ok this (Item.title item) "multi" countryCode (w1, st.2 ++ ev1))
      as [found2 Hok2].
    destruct (searchTMDB this (Item.title item) "multi" countryCode (w1, st.2 ++ ev1))
      as [r2 [w2 log2]] eqn:Hrun2.
    cbn [fst snd] in Hlog2, Hok2. subst r2 log2.
    exists (ev1 ++ ev2). cbn [fst snd]. rewrite <- app_assoc. split; [done|].
    split; [by apply paced_app|]. split; [rewrite searches_app; lia|].
    apply searches_for_app; [done|].
    eapply searches_for_more; [|exact Hf2]. intros m ->%list_elem_of_singleton.
    right. left.
Qed.

Lemma enrich_loop_segments `{Host} (this : ScraperService) (countryCode : string)
    (items enrichedItems : list Item.t) (st : World * list Event) :
  ∃ segments : list (list Event),
    (enrich_loop this countryCode items enrichedItems st).2.2
    = st.2 ++ concat ((λ log, log ++ [Waited 200]) <$> segments)
    ∧ Forall2 (λ item log,
                 paced log ∧ (searches log ≤ 8)%nat
                 ∧ searches_for this (Item.title item) countryCode
                     [if decide (Item.category item = "Movie") then "movie" else "tv"; "multi"]
                     log)
        items segments.
Proof.
  revert enrichedItems st. induction items as [|item later IH]; intros enrichedItems st.
  - exists []. simpl. by rewrite app_nil_r.
  - cbn [enrich_loop]. unfold mbind at 1, M_bind at 1.
    destruct (enrich_item_paced this countryCode item st) as (ev & Hlog & Hp & Hs & Hf).
    destruct (enrich_item_events this countryCode item st)
      as (enriched & ev' & w & Hrun & _).
    rewrite Hrun in Hlog |- *. cbn [fst snd] in Hlog. apply app_inv_head in Hlog. subst ev'.
    cbv zeta. unfold mbind at 1, M_bind at 1, wait at 1. cbn [fst snd].
    match goal with |- context [enrich_loop _ _ _ ?acc ?s] =>
      destruct (IH acc s) as (segments & -> & Hsegments)
    end.
    exists (ev :: segments). cbn [snd fmap list_fmap concat]. rewrite <- !app_assoc.
    split; [done|]. by constructor.
Qed.

(** X14.  The calls and pauses of [enrichWithTMDB].  Without an API key
    it returns the list it was given and does nothing.  With one, its
    log is made of one segment for each entry, in the order of the
    entries, and each segment ends with a pause of 200 ms, the last one
    too.  Before that pause the segment holds the calls for that entry
    and nothing else: eight at most, each the request of one of the four
    strategies for the title of the entry, with the media type movie for
    the category Movie and tv for any other, or with multi; and each
    call that gave no candidate is followed at once by a pause of
    100 ms. *)
Theorem enrichWithTMDB_pacing `{Host} (this : ScraperService) (items : list Item.t)
    (countryCode : string) (st : World * list Event) :
  let run := enrichWithTMDB this items countryCode st in
  let mediaType := λ item : Item.t,
    if decide (Item.category item = "Movie") then "movie" else "tv" in
  ∃ events : list Event,
    run.2.2 = st.2 ++ events
    ∧ (if truthy (tmdbApiKey this) then
         pauses 200 events = length items
         ∧ ∃ segments : list (list Event),
             events = concat ((λ log, log ++ [Waited 200]) <$> segments)
             ∧ Forall2 (λ item log,
                          paced log ∧ (searches log ≤ 8)%nat
                          ∧ searches_for this (Item.title item) countryCode
                              [mediaType item; "multi"] log)
                 items segments
       else run = (Ok items, st))
    ∧ (searches events ≤ 8 * length items)%nat
    ∧ (pauses 100 events ≤ searches events)%nat
    ∧ length events = (searches events + pauses 100 events + pauses 200 events)%nat.
Proof.
  cbv zeta. unfold enrichWithTMDB. destruct (truthy (tmdbApiKey this)).
  - destruct (enrich_loop_events this countryCode items [] st)
      as (events & Hlog & H200 & Hs & Hp & _ & Hlen).
    destruct (enrich_loop_segments this countryCode items [] st)
      as (segments & Hlog' & Hsegments).
    rewrite Hlog in Hlog'. apply app_inv_head in Hlog'.
    exists events. split; [done|]. split; [|done].
    split; [done|]. by exists segments.
  - exists []. simpl. rewrite app_nil_r. repeat split; try done.
    unfold searches. simpl. lia.
Qed.

Lemma getTMDBIdOnly_paced `{Host} (this : ScraperService)
    (title mediaType countryCode : string) (st : World * list Event) :
  ∃ events : list Event,
    (getTMDBIdOnly this title mediaType countryCode st).2.2 = st.2 ++ events
    ∧ paced events
    ∧ (searches events ≤ 4)%nat
    ∧ searches_for this title countryCode [mediaType] events.
Proof.
  unfold getTMDBIdOnly, mbind, M_bind.
  destruct (searchTMDB_paced this title mediaType countryCode st) as (events & Hlog & Hrest).
  destruct (searchTMDB_Ok this title mediaType countryCode st) as [found Hok].
  destruct (searchTMDB this title mediaType countryCode st) as [r [w log]].
  cbn [fst snd] in Hlog, Hok. subst r log. by exists events.
Qed.

Lemma batch_loop_segments `{Host} (this : ScraperService) (mediaType countryCode : string)
    (titles : list string) (i : nat) (remaining : list string) (results : list IdResult)
    (st : World * list Event) :
  (i + length remaining = length titles)%nat →
  ∃ segments : list (list Event),
    (batch_loop this mediaType countryCode titles i remaining results st).2.2
    = st.2 ++ joined [Waited 150] segments
    ∧ Forall2 (λ title log,
                 paced log ∧ (searches log ≤ 4)%nat
                 ∧ searches_for this title countryCode [mediaType] log)
        remaining segments.
Proof.
  revert i results st. induction remaining as [|title later IH]; intros i results st Hi.
  - exists []. simpl. by rewrite app_nil_r.
  - cbn [batch_loop]. unfold mbind at 1, M_bind at 1. cbn [length] in Hi.
    destruct (getTMDBIdOnly_paced this title mediaType countryCode st)
      as (ev & Hlog & Hp & Hs & Hf).
    destruct (getTMDBIdOnly_events this title mediaType countryCode st)
      as (tmdbId & ev' & w & Hrun & _).
    rewrite Hrun in Hlog |- *. cbn [fst snd] in Hlog. apply app_inv_head in Hlog. subst ev'.
    cbv zeta. unfold mbind at 1, M_bind at 1.
    destruct later as [|title' later].
    + rewrite decide_False by (simpl in Hi; lia). cbn [batch_loop mret M_ret snd].
      exists [ev]. split; [done|]. constructor; [done|constructor].
    + rewrite decide_True by (simpl in Hi; lia). unfold wait at 1. cbn [fst snd].
      match goal with |- context [batch_loop _ _ _ _ _ _ ?acc ?s] =>
        destruct (IH (S i) acc s ltac:(simpl in *; lia)) as (segments & -> & Hsegments)
      end.
      exists (ev :: segments). cbn [snd]. split; [|by constructor].
      apply Forall2_length in Hsegments as Hlen.
      destruct segments as [|log segments]; [done|].
      cbn [joined]. by rewrite <- !app_assoc.
Qed.

(** X16.  The calls and pauses of [batchGetTMDBIds].  Its log is made
    of one segment for each title, in the order of the titles, with a
    pause of 150 ms between two segments and none after the last.  A
    segment holds the calls for its title and nothing else: four at
    most, each the request of one of the four strategies for that title
    with the media type asked for; and each call that gave no candidate
    is followed at once by a pause of 100 ms.  Without an API key no
    call is made and the pauses between the titles are all that
    happens. *)
Theorem batchGetTMDBIds_pacing `{Host} (this : ScraperService)
    (titles : list string) (mediaType countryCode : string) (st : World * list Event) :
  let run := batchGetTMDBIds this titles mediaType countryCode st in
  ∃ (events : list Event) (segments : list (list Event)),
    run.2.2 = st.2 ++ events
    ∧ events = joined [Waited 150] segments
    ∧ Forall2 (λ title log,
                 paced log ∧ (searches log ≤ 4)%nat
                 ∧ searches_for this title countryCode [mediaType] log)
        titles segments
    ∧ pauses 150 events = (length titles - 1)%nat
    ∧ (searches events ≤ 4 * length titles)%nat
    ∧ (pauses 100 events ≤ searches events)%nat
    ∧ length events = (searches events + pauses 100 events + pauses 150 events)%nat
    ∧ (truthy (tmdbApiKey this) = false →
       events = replicate (length titles - 1) (Waited 150)).
Proof.
  cbv zeta. unfold batchGetTMDBIds.
  destruct (batch_loop_events this mediaType countryCode titles 0 titles [] st eq_refl)
    as (ids & events & w & Hrun & _ & H150 & Hs & Hp & Hlen & Hkey & _).
  destruct (batch_loop_segments this mediaType countryCode titles 0 titles [] st eq_refl)
    as (segments & Hlog & Hsegments).
  rewrite Hrun in Hlog |- *. cbn [fst snd] in Hlog |- *. apply app_inv_head in Hlog.
  exists events, segments. repeat split; try done.
  intros Hno. by destruct (Hkey Hno) as [_ ->].
Qed.

(** ** scrapeNetflixTop10 *)

Lemma parseNetflixTop10_length `{Cheerio} (html type : string) :
  (length (parseNetflixTop10 html type) ≤ (if decide (type = "both") then 20 else 10))%nat.
Proof.
  pose proof (valid_ranks_length _ (parseTableData_valid (cheerio_load html) "TV Shows")).
  pose proof (valid_ranks_length _ (parseTableData_valid (cheerio_load html) "Movies")).
  unfold parseNetflixTop10. cbv zeta.
  destruct (decide (type = "both")) as [->|Hne].
  - destruct (decide (_ ∨ _)) as [_|[]]; [|by right].
    destruct (decide (_ ∨ _)) as [_|[]]; [|by right].
    rewrite !length_app. simpl. lia.
  - destruct (decide (type = "tv" ∨ type = "both"));
      destruct (decide (type = "movies" ∨ type = "both"));
      rewrite ?length_app; simpl; try lia.
    exfalso. intuition congruence.
Qed.

Lemma with_tmdb_none (items : list Item.t) :
  zip_with with_tmdb items (replicate (length items) None) = items.
Proof. induction items as [|item items IH]; [done|]. simpl. by rewrite IH. Qed.

Lemma run_tmdb_enrich `{Site} (this : ScraperService) (items : list Item.t)
    (countryCode : string) (st : World * list SiteEvent) :
  ∃ (enriched : list Item.t) (events : list Event) (w : World),
    run_tmdb (enrichWithTMDB this items countryCode) st
    = (Returned enriched, (w, st.2 ++ (Tmdb <$> events)))
    ∧ length enriched = length items
    ∧ Item.rank <$> enriched = Item.rank <$> items
    ∧ Item.title <$> enriched = Item.title <$> items
    ∧ Item.category <$> enriched = Item.category <$> items.
Proof.
  unfold run_tmdb. cbv zeta.
  assert (Hrun : ∃ matches st',
            enrichWithTMDB this items countryCode (st.1, []) = (Ok (zip_with with_tmdb items matches), st')
            ∧ length matches = length items).
  { unfold enrichWithTMDB. destruct (truthy (tmdbApiKey this)).
    - destruct (enrich_loop_spec this countryCode items [] (st.1, [])) as (matches & st' & Hlen & ->).
      by exists matches, st'.
    - exists (replicate (length items) None), (st.1, []). split; [|apply length_replicate].
      by rewrite with_tmdb_none. }
  destruct Hrun as (matches & [w events] & Hrun & Hlen). rewrite Hrun. cbn [fst snd].
  exists (zip_with with_tmdb items matches), events, w. split; [done|].
  clear -Hlen. revert matches Hlen.
  induction items as [|item items IH]; intros [|found matches] Hlen; try done.
  simpl in Hlen. destruct (IH matches ltac:(lia)) as (Hl & Hr & Ht & Hc).
  cbn [zip_with length]. rewrite !fmap_cons.
  by rewrite Hl, Hr, Ht, Hc, with_tmdb_rank, with_tmdb_title, with_tmdb_category.
Qed.

Lemma fetchPage_failure `{Site} (st : World * list SiteEvent) (cause : JsError) :
  (axios_get_page st.1).1 = inl cause →
  fetchPage st
  = (Raised (new_Error ("Failed to fetch page: " +:+ err_message cause)),
     ((axios_get_page st.1).2, st.2 ++ [Fetched (inl cause)])).
Proof. intros Hcause. unfold fetchPage. cbv zeta. by rewrite Hcause. Qed.

Lemma fetchPage_success `{Site} (st : World * list SiteEvent) (html : string) :
  (axios_get_page st.1).1 = inr html →
  fetchPage st = (Returned html, ((axios_get_page st.1).2, st.2 ++ [Fetched (inr html)])).
Proof. intros Hpage. unfold fetchPage. cbv zeta. by rewrite Hpage. Qed.

(** The cases of a scrape. *)
Lemma scrapeNetflixTop10_cases `{Site} (this : ScraperService) (type : string)
    (wanted : bool) (countryCode : string) (st : World * list SiteEvent) :
  let run := scrapeNetflixTop10 this type wanted countryCode st in
  match (axios_get_page st.1).1 with
  | inl cause =>
      run = (Raised (new_Error ("Failed to fetch page: " +:+ err_message cause)),
             ((axios_get_page st.1).2, st.2 ++ [Fetched (inl cause)]))
  | inr html =>
      let parsed := parseNetflixTop10 html type in
      let w := (axios_get_page st.1).2 in
      if decide (parsed = []) then
        let sample := substring_to 5000 html in
        let write := writeFileSync "./debug-html.txt" sample w in
        run.2 = (write.2, st.2 ++ [Fetched (inr html); Wrote "./debug-html.txt" sample write.1])
        ∧ run.1 = match write.1 with
                  | Some error => Raised error
                  | None =>
                      Returned {| success := true; data := [];
                                  scrapedAt := toISOString (Date_now write.2);
                                  count := 0; result_type := type;
                                  result_countryCode := countryCode;
                                  enrichedWithTMDB_flag := wanted && truthy (tmdbApiKey this) |}
                  end
      else
        ∃ (enriched : list Item.t) (events : list Event) (w' : World),
          run = (Returned {| success := true; data := enriched;
                             scrapedAt := toISOString (Date_now w');
                             count := Z.of_nat (length enriched); result_type := type;
                             result_countryCode := countryCode;
                             enrichedWithTMDB_flag := wanted && truthy (tmdbApiKey this) |},
                 (w', st.2 ++ Fetched (inr html) :: (Tmdb <$> events)))
          ∧ enriched ≠ []
          ∧ length enriched = length parsed
          ∧ Item.rank <$> enriched = Item.rank <$> parsed
          ∧ Item.title <$> enriched = Item.title <$> parsed
          ∧ Item.category <$> enriched = Item.category <$> parsed
          ∧ (wanted && truthy (tmdbApiKey this) = false → enriched = parsed ∧ events = [])
  end.
Proof.
  cbv zeta. unfold scrapeNetflixTop10.
  destruct ((axios_get_page st.1).1) as [cause|html] eqn:Hpage.
  - by rewrite (fetchPage_failure st cause).
  - rewrite (fetchPage_success st html) by done. cbv zeta.
    set (parsed := parseNetflixTop10 html type).
    set (st1 := ((axios_get_page st.1).2, st.2 ++ [Fetched (inr html)])).
    destruct (decide (parsed = [])) as [Hnone|Hsome].
    + rewrite Hnone. cbn [length]. rewrite andb_false_r.
      rewrite decide_True by done. unfold st1. cbn [fst snd].
      set (sample := substring_to 5000 html).
      destruct (writeFileSync "./debug-html.txt" sample (axios_get_page st.1).2)
        as [[error|] w']; cbn [fst snd]; by rewrite <- app_assoc.
    + destruct (wanted && truthy (tmdbApiKey this)) eqn:Hflag.
      * replace (0 <? length parsed)%nat with true
          by (symmetry; apply Nat.ltb_lt; destruct parsed; [done|simpl; lia]).
        cbn [andb].
        destruct (run_tmdb_enrich this parsed countryCode st1)
          as (enriched & events & w' & -> & Hlen & Hr & Ht & Hc).
        assert (Hne : enriched ≠ []).
        { intros ->. destruct parsed; [done|]. simpl in Hlen. lia. }
        rewrite decide_False by (intros Hl; by apply nil_length_inv in Hl).
        exists enriched, events, w'. unfold st1. cbn [fst snd]. rewrite <- app_assoc.
        repeat split; done.
      * cbn [andb].
        rewrite decide_False by (intros Hl; by apply nil_length_inv in Hl).
        exists parsed, [], (axios_get_page st.1).2. unfold st1. cbn [fst snd fmap list_fmap].
        repeat split; done.
Qed.

(** X17.  What [scrapeNetflixTop10] returns when it returns: [success]
    is true; [count] is the number of entries of [data], 20 at most for
    the type both and 10 at most for any other; the entries of [data]
    are, in rank, title and category and in their order, the entries
    [parseNetflixTop10] reads off the page that was fetched; type and
    country code are the ones asked for; and [enrichedWithTMDB] says
    that enrichment was asked for and an API key is configured, whether
    or not an entry was matched. *)
Theorem scrapeNetflixTop10_result `{Site} (this : ScraperService) (type : string)
    (wanted : bool) (countryCode : string) (st st' : World * list SiteEvent)
    (result : ScrapeResult) :
  scrapeNetflixTop10 this type wanted countryCode st = (Returned result, st') →
  ∃ html : string,
    (axios_get_page st.1).1 = inr html
    ∧ success result = true
    ∧ count result = Z.of_nat (length (data result))
    ∧ count result ≤ (if decide (type = "both") then 20 else 10)
    ∧ Item.rank <$> data result = Item.rank <$> parseNetflixTop10 html type
    ∧ Item.title <$> data result = Item.title <$> parseNetflixTop10 html type
    ∧ Item.category <$> data result = Item.category <$> parseNetflixTop10 html type
    ∧ result_type result = type
    ∧ result_countryCode result = countryCode
    ∧ enrichedWithTMDB_flag result = wanted && truthy (tmdbApiKey this).
Proof.
  intros Hrun.
  pose proof (scrapeNetflixTop10_cases this type wanted countryCode st) as Hcases.
  cbv zeta in Hcases. rewrite Hrun in Hcases.
  destruct ((axios_get_page st.1).1) as [cause|html]; [done|]. exists html.
  split; [done|].
  pose proof (parseNetflixTop10_length html type) as Hmax.
  destruct (decide (parseNetflixTop10 html type = [])) as [Hnone|Hsome].
  - destruct Hcases as [_ Hresult]. cbn [fst] in Hresult.
    destruct (writeFileSync _ _ _).1; [done|]. injection Hresult as ->.
    rewrite Hnone. cbn. repeat split; try done. case_decide; lia.
  - destruct Hcases as (enriched & events & w' & [= -> _] & _ & Hlen & Hr & Ht & Hc & _).
    cbn. rewrite Hlen. repeat split; try done. case_decide; lia.
Qed.

(** X18.  What [scrapeNetflixTop10] does.  When the request of the
    page throws, it throws an error whose message is Failed to fetch
    page: and the message of the cause, and nothing else happens.  When
    no entry is read off the page, no search is made, the first 5000
    characters of the page are written to the file debug-html.txt, and
    the result is a success with no entry unless the write throws, in
    which case its exception goes through.  When entries are read off
    the page, nothing is written and no exception is thrown; without
    enrichment the entries are returned as parsed and no search is
    made. *)
Theorem scrapeNetflixTop10_effects `{Site} (this : ScraperService) (type : string)
    (wanted : bool) (countryCode : string) (st : World * list SiteEvent) :
  let run := scrapeNetflixTop10 this type wanted countryCode st in
  match (axios_get_page st.1).1 with
  | inl cause =>
      run.1 = Raised (new_Error ("Failed to fetch page: " +:+ err_message cause))
      ∧ run.2.2 = st.2 ++ [Fetched (inl cause)]
  | inr html =>
      if decide (parseNetflixTop10 html type = []) then
        ∃ failed : option JsError,
          run.2.2 = st.2 ++ [Fetched (inr html);
                             Wrote "./debug-html.txt" (substring_to 5000 html) failed]
          ∧ match failed with
            | Some error => run.1 = Raised error
            | None => ∃ result, run.1 = Returned result ∧ success result = true
                                ∧ data result = [] ∧ count result = 0
            end
      else
        ∃ (result : ScrapeResult) (events : list Event),
          run.1 = Returned result
          ∧ data result ≠ []
          ∧ run.2.2 = st.2 ++ Fetched (inr html) :: (Tmdb <$> events)
          ∧ (wanted && truthy (tmdbApiKey this) = false →
             data result = parseNetflixTop10 html type ∧ events = [])
  end.
Proof.
  pose proof (scrapeNetflixTop10_cases this type wanted countryCode st) as Hcases.
  cbv zeta in *.
  destruct ((axios_get_page st.1).1) as [cause|html]; [by rewrite Hcases|].
  destruct (decide (parseNetflixTop10 html type = [])) as [Hnone|Hsome].
  - destruct Hcases as [Hlog Hresult]. eexists. rewrite Hlog. split; [done|].
    cbn [fst snd]. destruct (writeFileSync _ _ _).1; [done|]. by eexists.
  - destruct Hcases as (enriched & events & w' & -> & Hne & _ & _ & _ & _ & Hplain).
    eexists _, events. cbn [fst snd data].
    split; [done|]. split; [done|]. split; [done|]. exact Hplain.
Qed.

Lemma scrapeNetflixTop10_result_witness :
  ∃ (result : ScrapeResult) (st' : unit * list SiteEvent) (html : string),
    @scrapeNetflixTop10 failing_host alpha_site keyed_service "tv" true "PH" ((), [])
    = (Returned result, st')
    ∧ html = alpha_html
    ∧ success result = true
    ∧ count result = Z.of_nat (length (data result))
    ∧ count result ≤ 10
    ∧ Item.rank <$> data result = [2; 1]
    ∧ result_type result = "tv"
    ∧ enrichedWithTMDB_flag result = true.
Proof.
  destruct (@scrapeNetflixTop10 failing_host alpha_site keyed_service "tv" true "PH" ((), []))
    as [[result|error] st'] eqn:Hrun; [|by vm_compute in Hrun].
  destruct (@scrapeNetflixTop10_result failing_host alpha_site keyed_service "tv" true "PH"
              ((), []) st' result Hrun)
    as (html & Hpage & Hs & Hc & Hmax & Hr & Ht & Hcat & Hty & Hcc & Hflag).
  exists result, st', html. injection Hpage as <-.
  repeat split; done.
Defined.

(** ** The controller: cache and routes *)

Lemma errorHandler_new_Error (NODE_ENV : option string) (message : string) :
  errorHandler NODE_ENV (new_Error message)
  = (500, {| body_error := "Internal Server Error";
             body_message := if decide (NODE_ENV = Some "production")
                             then "Something went wrong" else message |}).
Proof.
  unfold errorHandler, new_Error. cbn [err_name err_code err_message].
  rewrite decide_False by done. rewrite decide_False by (by intros [?|?]). done.
Qed.

Lemma errorHandler_status (NODE_ENV : option string) (err : JsError) :
  (errorHandler NODE_ENV err).1 ∈ [400; 503; 500].
Proof.
  unfold errorHandler. repeat case_decide; cbn [fst];
    repeat first [by apply list_elem_of_here | apply list_elem_of_further].
Qed.

Lemma getFromCache_memory `{Runtime} (key : string)
    (s : gmap string CacheData * (World * list SiteEvent)) :
  localStorage = None →
  getFromCache key s
  = match s.1 !! key with
    | Some cached =>
        if Date_now s.2.1 <? cache_expiry cached
        then (Some (cache_value cached), s) else (None, (delete key s.1, s.2))
    | None => (None, s)
    end.
Proof.
  intros Hnone. unfold getFromCache. cbv zeta. rewrite Hnone. cbn [fst snd].
  destruct s as [cache [w log]]. cbn [fst snd].
  destruct (cache !! key) as [cached|]; [|done]. by case_match.
Qed.

Lemma setCache_memory `{Runtime} (key : string) (value : ScrapeResult)
    (s : gmap string CacheData * (World * list SiteEvent)) :
  localStorage = None →
  setCache key value s
  = ((), (<[key := {| cache_value := value;
                      cache_expiry := Date_now s.2.1 + CACHE_DURATION |}]> s.1, s.2)).
Proof. intros Hnone. unfold setCache. cbv zeta. by rewrite Hnone. Qed.

(** X19.  The memory cache of the controller, where there is no
    [localStorage].  [setCache] touches nothing but the cache.  A value
    stored under a key is what [getFromCache] returns for that key for
    an hour; from then on [getFromCache] returns null and removes the
    entry.  Other keys are not affected.  After [clearCache] for that
    key, or for no key or the empty key (which clears everything),
    [getFromCache] returns null. *)
Theorem memory_cache_round_trip `{Runtime} (key : string) (value : ScrapeResult)
    (memoryCache : gmap string CacheData) (st later : World * list SiteEvent) :
  localStorage = None →
  let stored := (setCache key value (memoryCache, st)).2 in
  stored.2 = st
  ∧ getFromCache key (stored.1, later)
    = (if Date_now later.1 <? Date_now st.1 + 3600000
       then (Some value, (stored.1, later))
       else (None, (delete key memoryCache, later)))
  ∧ (∀ other, other ≠ key →
       (getFromCache other (stored.1, later)).1 = (getFromCache other (memoryCache, later)).1)
  ∧ (∀ cacheKey, truthy cacheKey = false ∨ cacheKey = Some key →
       (getFromCache key ((clearCache cacheKey (stored.1, later)).2)).1 = None).
Proof.
  intros Hnone. cbv zeta. rewrite setCache_memory by done. cbn [fst snd].
  split; [done|]. split; [|split].
  - rewrite getFromCache_memory by done. cbn [fst snd]. rewrite lookup_insert_eq.
    cbn [cache_expiry cache_value]. change CACHE_DURATION with 3600000.
    case_match; [done|]. by rewrite delete_insert_eq.
  - intros other Hother. rewrite !getFromCache_memory by done. cbn [fst snd].
    rewrite lookup_insert_ne by done. destruct (memoryCache !! other); [|done].
    by case_match.
  - intros cacheKey Hkey. rewrite getFromCache_memory by done.
    unfold clearCache. cbv zeta. rewrite Hnone. cbn [fst snd].
    destruct (truthy cacheKey) eqn:Htruthy.
    + destruct Hkey as [?| ->]; [done|]. cbn [fst snd default].
      by rewrite lookup_delete_eq.
    + cbn [fst snd]. by rewrite lookup_empty.
Qed.

Lemma scrape_log `{Runtime} (scraperService : ScraperService) (type : string)
    (st : World * list SiteEvent) :
  ∃ later : list SiteEvent,
    (scrape scraperService type st).2.2
    = st.2 ++ Fetched (axios_get_page st.1).1 :: later.
Proof.
  unfold scrape.
  pose proof (scrapeNetflixTop10_cases scraperService type true "PH" st) as Hcases.
  cbv zeta in Hcases.
  destruct ((axios_get_page st.1).1) as [cause|html].
  - rewrite Hcases. by exists [].
  - destruct (decide (parseNetflixTop10 html type = [])).
    + destruct Hcases as [-> _]. by eexists.
    + destruct Hcases as (enriched & events & w' & -> & _). by eexists.
Qed.

Lemma scrape_failure `{Runtime} (scraperService : ScraperService) (type : string)
    (st : World * list SiteEvent) (cause : JsError) :
  (axios_get_page st.1).1 = inl cause →
  scrape scraperService type st
  = (Raised (new_Error ("Failed to fetch page: " +:+ err_message cause)),
     ((axios_get_page st.1).2, st.2 ++ [Fetched (inl cause)])).
Proof.
  intros Hcause. unfold scrape.
  pose proof (scrapeNetflixTop10_cases scraperService type true "PH" st) as Hcases.
  cbv zeta in Hcases. by rewrite Hcause in Hcases.
Qed.

(** X20.  The route of the TV shows, where there is no
    [localStorage].  A response with status 200 carries a result and
    says whether it came from the cache.  When it did, nothing was
    requested and nothing changed.  When it did not, the page was
    requested, and a request made within the hour that follows is
    answered from the cache with the same result, without any request:
    also when the result holds no entry. *)
Theorem getNetflixTVShows_cached_for_an_hour `{Runtime} (scraperService : ScraperService)
    (memoryCache : gmap string CacheData) (st later : World * list SiteEvent)
    (response : Response) (s : gmap string CacheData * (World * list SiteEvent)) :
  localStorage = None →
  getNetflixTVShows scraperService (memoryCache, st) = (response, s) →
  status response = 200 →
  ∃ (result : ScrapeResult) (cached : bool) (stamp : string),
    body response = TvBody result cached stamp
    ∧ (if cached then s = (memoryCache, st)
       else ∃ events, s.2.2 = st.2 ++ Fetched (axios_get_page st.1).1 :: events)
    ∧ (cached = false → Date_now later.1 < Date_now s.2.1 + 3600000 →
       getNetflixTVShows scraperService (s.1, later)
       = (res_json (TvBody result true (toISOString (Date_now later.1))), (s.1, later))).
Proof.
  intros Hnone Hrun Hstatus. unfold getNetflixTVShows in Hrun. cbv zeta in Hrun.
  rewrite getFromCache_memory in Hrun by done. cbn [fst snd] in Hrun.
  set (key := "netflix_tv_shows") in *.
  assert (Hmiss : ∀ cache',
            match scrape scraperService "tv" st with
            | (Returned result, st1) =>
                (res_json (TvBody result false
                             (toISOString (Date_now (setCache key result (cache', st1)).2.2.1))),
                 (setCache key result (cache', st1)).2)
            | (Raised error, st1) => (next error, (cache', st1))
            end = (response, s) →
            ∃ result cached stamp,
              body response = TvBody result cached stamp
              ∧ (if cached then s = (memoryCache, st)
                 else ∃ events, s.2.2 = st.2 ++ Fetched (axios_get_page st.1).1 :: events)
              ∧ (cached = false → Date_now later.1 < Date_now s.2.1 + 3600000 →
                 getNetflixTVShows scraperService (s.1, later)
                 = (res_json (TvBody result true (toISOString (Date_now later.1))),
                    (s.1, later)))).
  { intros cache' Hrun'.
    destruct (scrape_log scraperService "tv" st) as [events Hlog].
    destruct (scrape scraperService "tv" st) as [[result|error] st1] eqn:Hscrape.
    - rewrite setCache_memory in Hrun' by done. cbn [fst snd] in Hrun', Hlog.
      injection Hrun' as <- <-. exists result, false, (toISOString (Date_now st1.1)).
      split; [done|]. split; [by exists events|]. intros _ Hfresh. cbn [fst snd] in *.
      unfold getNetflixTVShows. cbv zeta. rewrite getFromCache_memory by done.
      cbn [fst snd]. fold key. rewrite lookup_insert_eq. cbn [cache_expiry cache_value].
      change CACHE_DURATION with 3600000.
      replace (Date_now later.1 <? Date_now st1.1 + 3600000) with true
        by (symmetry; by apply Z.ltb_lt).
      done.
    - injection Hrun' as <- <-. exfalso.
      pose proof (errorHandler_status NODE_ENV error) as Hin.
      unfold next in Hstatus. cbn [status] in Hstatus. rewrite Hstatus in Hin.
      repeat (apply elem_of_cons in Hin as [Hin|Hin]; [done|]).
      by apply elem_of_nil in Hin. }
  destruct (memoryCache !! key) as [entry|] eqn:Hentry.
  - destruct (Date_now st.1 <? cache_expiry entry) eqn:Hfresh.
    + cbn [fst snd] in Hrun. injection Hrun as <- <-.
      exists (cache_value entry), true, (toISOString (Date_now st.1)).
      split; [done|]. split; [done|]. done.
    + cbn [fst snd] in Hrun. by apply (Hmiss (delete key memoryCache)).
  - cbn [fst snd] in Hrun. by apply (Hmiss memoryCache).
Qed.

(** X21.  The routes of the top 10 and of the movies never use the
    cache: each request leaves the cache as it is and requests the
    page. *)
Theorem uncached_routes_fetch_every_time `{Runtime} (scraperService : ScraperService)
    (s : gmap string CacheData * (World * list SiteEvent)) :
  Forall (λ handler : ScraperService → Ctl Response,
            (handler scraperService s).2.1 = s.1
            ∧ ∃ events, (handler scraperService s).2.2.2
                        = s.2.2 ++ Fetched (axios_get_page s.2.1).1 :: events)
    [getNetflixTop10; getNetflixMovies].
Proof.
  repeat apply Forall_cons_2; [..|constructor].
  - unfold getNetflixTop10. destruct (scrape_log scraperService "both" s.2) as [events Hlog].
    destruct (scrape scraperService "both" s.2) as [[result|error] st]; eauto.
  - unfold getNetflixMovies. destruct (scrape_log scraperService "movies" s.2) as [events Hlog].
    destruct (scrape scraperService "movies" s.2) as [[result|error] st]; eauto.
Qed.

(** X22.  When the request of the page throws, whatever the name and
    the code of the exception, every route that requests the page
    answers with status 500 and Internal Server Error: [fetchPage] wraps
    the cause in a new error, which has no code, so the answer is never
    503.  The message is Something went wrong in production and Failed
    to fetch page: with the message of the cause otherwise.  The route
    of the TV shows then caches nothing. *)
Theorem routes_answer_500_when_the_page_fails `{Runtime} (scraperService : ScraperService)
    (s : gmap string CacheData * (World * list SiteEvent)) (cause : JsError) :
  (axios_get_page s.2.1).1 = inl cause →
  let failure :=
    {| status := 500;
       body := FailureBody
                 {| body_error := "Internal Server Error";
                    body_message :=
                      if decide (NODE_ENV = Some "production") then "Something went wrong"
                      else "Failed to fetch page: " +:+ err_message cause |} |} in
  (getNetflixTop10 scraperService s).1 = failure
  ∧ (getNetflixMovies scraperService s).1 = failure
  ∧ (localStorage = None → (getFromCache "netflix_tv_shows" s).1 = None →
     (getNetflixTVShows scraperService s).1 = failure
     ∧ (getNetflixTVShows scraperService s).2.1 !! "netflix_tv_shows" = None).
Proof.
  intros Hcause. cbv zeta.
  assert (Hnext : ∀ message,
            next (new_Error message)
            = {| status := 500;
                 body := FailureBody
                           {| body_error := "Internal Server Error";
                              body_message :=
                                if decide (NODE_ENV = Some "production")
                                then "Something went wrong" else message |} |}).
  { intros message. unfold next. by rewrite errorHandler_new_Error. }
  split; [|split].
  - unfold getNetflixTop10. rewrite (scrape_failure _ _ _ cause) by done. apply Hnext.
  - unfold getNetflixMovies. rewrite (scrape_failure _ _ _ cause) by done. apply Hnext.
  - intros Hnone Hmiss. unfold getNetflixTVShows. cbv zeta.
    rewrite getFromCache_memory in * by done.
    destruct (s.1 !! "netflix_tv_shows") as [entry|] eqn:Hentry.
    + destruct (Date_now s.2.1 <? cache_expiry entry); [done|]. cbn [fst snd].
      rewrite (scrape_failure _ _ _ cause) by done. cbn [fst snd].
      split; [apply Hnext|apply lookup_delete_eq].
    + cbn [fst snd]. rewrite (scrape_failure _ _ _ cause) by done. cbn [fst snd].
      split; [apply Hnext|done].
Qed.

Lemma memory_cache_round_trip_witness :
  (@getFromCache failing_host alpha_site (server alpha_site None) "netflix_tv_shows"
     ((@setCache failing_host alpha_site (server alpha_site None) "netflix_tv_shows" no_data
         (∅, ((), []))).2.1, ((), []))).1
  = Some no_data.
Proof.
  pose proof (@memory_cache_round_trip failing_host alpha_site (server alpha_site None)
                "netflix_tv_shows" no_data ∅ ((), []) ((), []) eq_refl) as (_ & Hget & _).
  exact (f_equal fst Hget).
Defined.

Lemma getNetflixTVShows_cached_for_an_hour_witness :
  ∃ (response : Response) (s : gmap string CacheData * (unit * list SiteEvent))
    (result : ScrapeResult),
    @getNetflixTVShows failing_host alpha_site (server alpha_site None) keyed_service
      (∅, ((), [])) = (response, s)
    ∧ status response = 200
    ∧ body response = TvBody result false iso_1970
    ∧ @getNetflixTVShows failing_host alpha_site (server alpha_site None) keyed_service
        (s.1, ((), []))
      = (res_json (TvBody result true iso_1970), (s.1, ((), []))).
Proof.
  destruct (@getNetflixTVShows failing_host alpha_site (server alpha_site None) keyed_service
              (∅, ((), []))) as [response s] eqn:Hrun.
  assert (Hstatus : status response = 200).
  { pose proof (f_equal (λ run, status run.1) Hrun) as H1. cbn beta in H1.
    cbn [fst] in H1. rewrite <- H1. by vm_compute. }
  assert (Hcached : ∃ result, body response = TvBody result false iso_1970).
  { pose proof (f_equal (λ run, body run.1) Hrun) as H1. cbn beta in H1.
    cbn [fst] in H1. rewrite <- H1. vm_compute. by eexists. }
  destruct (@getNetflixTVShows_cached_for_an_hour failing_host alpha_site
              (server alpha_site None) keyed_service ∅ ((), []) ((), []) response s
              eq_refl Hrun Hstatus)
    as (result & cached & stamp & Hbody & _ & Hagain).
  destruct Hcached as [result' Hbody']. rewrite Hbody in Hbody'.
  injection Hbody' as -> -> ->.
  exists response, s, result'. split; [done|]. split; [done|]. split; [done|].
  apply Hagain; [done|]. simpl. lia.
Defined.

Lemma routes_answer_500_when_the_page_fails_witness :
  (@getNetflixMovies failing_host offline_site (server offline_site (Some "production"))
     keyed_service (∅, ((), []))).1
  = {| status := 500;
       body := FailureBody {| body_error := "Internal Server Error";
                              body_message := "Something went wrong" |} |}.
Proof.
  exact (proj1 (proj2 (@routes_answer_500_when_the_page_fails failing_host offline_site
                         (server offline_site (Some "production")) keyed_service
                         (∅, ((), [])) refused eq_refl))).
Defined.
